(** * ITMO curriculum bot: a shallow embedding of [bot_config.py],
    [telegram_bot.py] and the text functions of [site_parser.py], and the
    properties of its polling loop, message delivery and formatter.

    Python values are modelled as follows.
    - [str] is a list of Unicode code points ([N]): [len], slicing, [strip],
      [startswith] and the regular expressions of the formatter all work on
      code points.  Literals are written as UTF-8 text and decoded by [lit].
    - Integers (chat ids, message ids, update ids, the update offset) are [Z].
    - A dictionary received from the network is a record whose fields are
      [option]s where the code looks a key up with [d[k]] (a missing key
      raises [KeyError]) or with [d.get(k)].
    - The outside world (Telegram's HTTP API, the PDF processor, the
      YandexGPT SDK) is a deterministic oracle [World] that answers each call
      from the history of the calls made so far; the calls issued are
      recorded, in order, in the state.
    - Exceptions are results [Exc e]; [try]/[except Exception] is [attempt].
    Logging and [asyncio.sleep] are not modelled. *)

From Stdlib Require Import String Ascii DecimalString.
From Stdlib Require Import NArith ZArith Bool Arith Lia List.
Import ListNotations.

Set Implicit Arguments.

(* ================================================================== *)
(** * Python strings *)

Definition char := N.
Definition str := list char.

Definition bytes_of (s : string) : list N :=
  map N_of_ascii (list_ascii_of_string s).

(** UTF-8 decoding of a well-formed byte sequence. *)
Fixpoint utf8_decode (bs : list N) : str :=
  match bs with
  | [] => []
  | b0 :: r =>
      if (b0 <? 128)%N then b0 :: utf8_decode r
      else if (b0 <? 224)%N then
        match r with
        | b1 :: r1 => ((b0 - 192) * 64 + (b1 - 128))%N :: utf8_decode r1
        | _ => []
        end
      else if (b0 <? 240)%N then
        match r with
        | b1 :: b2 :: r2 =>
            ((b0 - 224) * 4096 + (b1 - 128) * 64 + (b2 - 128))%N :: utf8_decode r2
        | _ => []
        end
      else
        match r with
        | b1 :: b2 :: b3 :: r3 =>
            ((b0 - 240) * 262144 + (b1 - 128) * 4096 + (b2 - 128) * 64 + (b3 - 128))%N
              :: utf8_decode r3
        | _ => []
        end
  end.

(** A Python string literal. *)
Definition lit (s : string) : str := utf8_decode (bytes_of s).

(** [str(n)] / [f"{n}"] for a non-negative integer. *)
Definition str_of_nat (n : nat) : str :=
  lit (NilEmpty.string_of_uint (Nat.to_uint n)).

Definition star : char := 42%N.
Definition backtick : char := 96%N.
Definition newline : char := 10%N.

Fixpoint str_eqb (a b : str) : bool :=
  match a, b with
  | [], [] => true
  | x :: a', y :: b' => (x =? y)%N && str_eqb a' b'
  | _, _ => false
  end.

(** [strip_prefix p s] is [Some r] when [s = p ++ r]. *)
Fixpoint strip_prefix (p s : str) : option str :=
  match p with
  | [] => Some s
  | x :: p' =>
      match s with
      | [] => None
      | y :: s' => if (x =? y)%N then strip_prefix p' s' else None
      end
  end.

(** [s.startswith(p)] *)
Definition startswith (s p : str) : bool :=
  match strip_prefix p s with Some _ => true | None => false end.

(** [c.isspace()]: the characters removed by [str.strip()]. *)
Definition isspace (c : char) : bool :=
  ((9 <=? c) && (c <=? 13) || (28 <=? c) && (c <=? 32)
   || (c =? 133) || (c =? 160) || (c =? 5760)
   || (8192 <=? c) && (c <=? 8202)
   || (c =? 8232) || (c =? 8233) || (c =? 8239) || (c =? 8287)
   || (c =? 12288))%N.

Fixpoint lstrip (s : str) : str :=
  match s with
  | [] => []
  | c :: s' => if isspace c then lstrip s' else s
  end.

Definition rstrip (s : str) : str := rev (lstrip (rev s)).

(** [s.strip()] *)
Definition strip (s : str) : str := rstrip (lstrip s).

(** Truthiness of a string: [if s] / [not s]. *)
Definition str_truthy (s : str) : bool :=
  match s with [] => false | _ => true end.

(* ================================================================== *)
(** * bot_config.py *)

(** What the configuration module finds when it is imported: the secrets
    module (when [from secrets import ...] succeeds) and the environment
    variables read with [os.getenv]. *)
Record Environment := {
  secrets_module : option (str * str * str);
  env_TELEGRAM_BOT_TOKEN : option str;
  env_YANDEX_FOLDER_ID : option str;
  env_YANDEX_AUTH_TOKEN : option str
}.

(** The [try: from secrets import ... except ImportError:] block. *)
Definition TELEGRAM_BOT_TOKEN (e : Environment) : str :=
  match secrets_module e with
  | Some (t, _, _) => t
  | None => lit "YOUR_TELEGRAM_BOT_TOKEN"
  end.

Definition YANDEX_FOLDER_ID (e : Environment) : str :=
  match secrets_module e with
  | Some (_, f, _) => f
  | None => lit "YOUR_YANDEX_FOLDER_ID"
  end.

Definition YANDEX_AUTH_TOKEN (e : Environment) : str :=
  match secrets_module e with
  | Some (_, _, a) => a
  | None => lit "YOUR_YANDEX_AUTH_TOKEN"
  end.

(** [os.getenv(name, default)] *)
Definition getenv (v : option str) (default : str) : str :=
  match v with Some s => s | None => default end.

Definition TELEGRAM_CONFIG_token (e : Environment) : str :=
  getenv (env_TELEGRAM_BOT_TOKEN e) (TELEGRAM_BOT_TOKEN e).

Definition max_message_length : nat := 4000.

Definition YANDEX_CONFIG_folder_id (e : Environment) : str :=
  getenv (env_YANDEX_FOLDER_ID e) (YANDEX_FOLDER_ID e).

Definition YANDEX_CONFIG_auth_token (e : Environment) : str :=
  getenv (env_YANDEX_AUTH_TOKEN e) (YANDEX_AUTH_TOKEN e).

(** The two short entries of [SYSTEM_PROMPTS]. *)
Definition SYSTEM_PROMPTS_error : str :=
  lit "Извините, произошла ошибка при обработке вашего вопроса. Попробуйте позже.".

Definition SYSTEM_PROMPTS_no_response : str :=
  lit "Извините, не удалось получить ответ от модели. Попробуйте позже.".

(** The long templates of [SYSTEM_PROMPTS]: ['main'] (a function of the
    curriculum text, by [str.format]), ['welcome'] and ['help'].  No property
    below depends on their text, so they are kept as one record. *)
Record Templates := {
  SYSTEM_PROMPTS_main : str -> str;
  SYSTEM_PROMPTS_welcome : str;
  SYSTEM_PROMPTS_help : str
}.

Record ConfigStatus := {
  valid : bool;
  issues : list str
}.

(** [validate_config()] *)
Definition validate_config (e : Environment) : ConfigStatus :=
  let issues0 : list str := [] in
  let issues1 :=
    if negb (str_truthy (TELEGRAM_CONFIG_token e))
       || str_eqb (TELEGRAM_CONFIG_token e) (lit "YOUR_TELEGRAM_TOKEN")
    then issues0 ++ [lit "Telegram bot token not configured"] else issues0 in
  let issues2 :=
    if negb (str_truthy (YANDEX_CONFIG_folder_id e))
       || str_eqb (YANDEX_CONFIG_folder_id e) (lit "YOUR_FOLDER_ID")
    then issues1 ++ [lit "YandexGPT folder_id not configured"] else issues1 in
  let issues3 :=
    if negb (str_truthy (YANDEX_CONFIG_auth_token e))
       || str_eqb (YANDEX_CONFIG_auth_token e) (lit "YOUR_AUTH_TOKEN")
    then issues2 ++ [lit "YandexGPT auth_token not configured"] else issues2 in
  {| valid := Nat.eqb (length issues3) 0; issues := issues3 |}.

(** A required credential is missing when neither the secrets module nor the
    environment provides it, so that the placeholder is in effect. *)
Definition token_missing (e : Environment) : bool :=
  match secrets_module e, env_TELEGRAM_BOT_TOKEN e with
  | None, None => true | _, _ => false end.

Definition folder_id_missing (e : Environment) : bool :=
  match secrets_module e, env_YANDEX_FOLDER_ID e with
  | None, None => true | _, _ => false end.

Definition auth_token_missing (e : Environment) : bool :=
  match secrets_module e, env_YANDEX_AUTH_TOKEN e with
  | None, None => true | _, _ => false end.

(* ================================================================== *)
(** * The formatter: [fix_telegram_formatting] *)

(** The lazy any-character group followed by the closing delimiter [delim]:
    the shortest prefix of [s] after which [delim] occurs.  Without
    [re.DOTALL] the dot does not match a newline. *)
Fixpoint lazy_until (dotall : bool) (delim s : str) : option (str * str) :=
  match strip_prefix delim s with
  | Some rest => Some ([], rest)
  | None =>
      match s with
      | [] => None
      | c :: s' =>
          if negb dotall && (c =? newline)%N then None
          else
            match lazy_until dotall delim s' with
            | Some (body, rest) => Some (c :: body, rest)
            | None => None
            end
      end
  end.

(** The lazy group of characters other than [d], followed by [d]: the text
    up to the first [d]. *)
Fixpoint until_char (d : char) (s : str) : option (str * str) :=
  match s with
  | [] => None
  | c :: s' =>
      if (c =? d)%N then Some ([], s')
      else
        match until_char d s' with
        | Some (body, rest) => Some (c :: body, rest)
        | None => None
        end
  end.

Definition nonempty_until (d : char) (s : str) : option (str * str) :=
  match until_char d s with
  | Some ([], _) => None
  | r => r
  end.

(** A pattern matched at the head of the subject: given the character before
    the head (for a lookbehind) and the text from the head on, the captured
    group and the text after the match. *)
Definition matcher := option char -> str -> option (str * str).

(** First pattern: two asterisks, a lazy group of characters other than
    newline, two asterisks. *)
Definition match_bold : matcher := fun _ s =>
  match strip_prefix [star; star] s with
  | Some r => lazy_until false [star; star] r
  | None => None
  end.

(** Second pattern: an asterisk not preceded by an asterisk, a non-empty
    group of characters other than the asterisk, an asterisk not followed by
    an asterisk. *)
Definition match_italic : matcher := fun prev s =>
  match s with
  | c :: r =>
      if (c =? star)%N
         && negb (match prev with Some p => (p =? star)%N | None => false end)
      then
        match nonempty_until star r with
        | Some (body, rest) =>
            if startswith rest [star] then None else Some (body, rest)
        | None => None
        end
      else None
  | [] => None
  end.

(** Third pattern, with [re.DOTALL]: three backticks, a lazy group of any
    characters, three backticks. *)
Definition match_block : matcher := fun _ s =>
  match strip_prefix [backtick; backtick; backtick] s with
  | Some r => lazy_until true [backtick; backtick; backtick] r
  | None => None
  end.

(** Fourth pattern: a backtick, a non-empty group of characters other than
    the backtick, a backtick. *)
Definition match_code : matcher := fun _ s =>
  match s with
  | c :: r => if (c =? backtick)%N then nonempty_until backtick r else None
  | [] => None
  end.

(** [re.sub(pattern, repl, s)], where [repl] wraps the group in [opening]
    and [closing], for a pattern that never
    matches the empty string: the leftmost match is replaced and the scan
    resumes after it.  [last] is the last character of every match of the
    pattern, the character before the position where the scan resumes. *)
Fixpoint re_sub_from (m : matcher) (opening closing : str) (last : char)
    (fuel : nat) (prev : option char) (s : str) : str :=
  match fuel with
  | O => s
  | S fuel' =>
      match s with
      | [] => []
      | c :: s' =>
          match m prev s with
          | Some (group, rest) =>
              opening ++ group ++ closing
                ++ re_sub_from m opening closing last fuel' (Some last) rest
          | None => c :: re_sub_from m opening closing last fuel' (Some c) s'
          end
      end
  end.

Definition re_sub (m : matcher) (opening closing : str) (last : char) (s : str) : str :=
  re_sub_from m opening closing last (length s) None s.

Definition sub_bold : str -> str :=
  re_sub match_bold (lit "<b>") (lit "</b>") star.
Definition sub_italic : str -> str :=
  re_sub match_italic (lit "<i>") (lit "</i>") star.
Definition sub_block : str -> str :=
  re_sub match_block (lit "<code>") (lit "</code>") backtick.
Definition sub_code : str -> str :=
  re_sub match_code (lit "<code>") (lit "</code>") backtick.

(** [fix_telegram_formatting(text)] *)
Definition fix_telegram_formatting (text : str) : str :=
  let text := sub_bold text in
  let text := sub_italic text in
  let text := sub_block text in
  let text := sub_code text in
  text.


(* ================================================================== *)
(** * The outside world *)

(** The [message] dictionary of an update.  [msg_chat_id] is the result of
    [message['chat']['id']] and [msg_from_id] of [message['from']['id']]:
    [None] when the lookup raises [KeyError].  [msg_text] is the ['text'] key,
    read with [message.get('text', '')]. *)
Record Message := {
  msg_chat_id : option Z;
  msg_from_id : option Z;
  msg_text : option str
}.

(** One element of the [result] list of [getUpdates].  [update_id] is [None]
    when the key is absent; [message] is [None] when the update carries no
    message. *)
Record Update := {
  update_id : option Z;
  message : option Message
}.

(** The calls the bot makes, as they are recorded in the history. *)
Inductive Call :=
| sendMessage (chat_id : Z) (text : str)
| editMessageText (chat_id message_id : Z) (text : str)
| deleteMessage (chat_id message_id : Z)
| sendChatAction (chat_id : Z)
| getUpdates (offset : Z)
| get_curriculum_text
| completions_run (system_text user_text : str).

(** The parsed body of a Bot API answer: the truthiness of its ['ok'] key and
    [result['result']['message_id']] ([None] when that lookup raises). *)
Record TgJson := {
  ok : bool;
  result_message_id : option Z
}.

(** What [requests.post] gives: it raises, or it returns a response whose
    body parses as JSON ([Some]) or does not ([None], [response.json()]
    raises). *)
Inductive HttpResponse :=
| ConnectionError
| Response (body : option TgJson).

(** What [requests.get] on [getUpdates] gives; the parsed body has the
    truthiness of ['ok'] and the ['result'] list (empty when absent). *)
Inductive PollResponse :=
| PollConnectionError
| PollResponseOf (data : option (bool * list Update)).

(** The world answers every call from the history of the calls before it.
    [pdf_reply] is [PDFProcessor.get_curriculum_text] ([None]: it raises);
    [sdk_reply] is the SDK's [run(messages)] ([None]: it raises), giving the
    texts of the alternatives of the result. *)
Record World := {
  post_reply : list Call -> Call -> HttpResponse;
  poll_reply : list Call -> Z -> PollResponse;
  pdf_reply : list Call -> option str;
  sdk_reply : list Call -> str -> str -> option (list str)
}.

(* ================================================================== *)
(** * State, exceptions and the monad of the bot's methods *)

Inductive exn :=
| KeyError
| ValueError
| RequestException
| JSONDecodeError
| SdkError.

Inductive Res (A : Type) :=
| Val (a : A)
| Exc (e : exn).
Arguments Val {A} a.
Arguments Exc {A} e.

(** The bot's only mutable field, [self.update_offset], and the history of
    the calls made to the world. *)
Record St := {
  update_offset : Z;
  history : list Call
}.

Definition M (A : Type) := St -> Res A * St.

Definition ret {A} (a : A) : M A := fun st => (Val a, st).

Definition bind {A B} (c : M A) (k : A -> M B) : M B :=
  fun st =>
    match c st with
    | (Val a, st') => k a st'
    | (Exc e, st') => (Exc e, st')
    end.

Definition raise {A} (e : exn) : M A := fun st => (Exc e, st).

(** [try: c except Exception: ...]: the outcome of [c] as a value. *)
Definition attempt {A} (c : M A) : M (Res A) :=
  fun st => let (r, st') := c st in (Val r, st').

(** [d[k]]: the value, or [KeyError]. *)
Definition lookup {A} (o : option A) : M A :=
  match o with Some a => ret a | None => raise KeyError end.

(** The state after one more call. *)
Definition add_call (st : St) (c : Call) : St :=
  {| update_offset := update_offset st; history := history st ++ [c] |}.

Definition add_calls (st : St) (l : list Call) : St :=
  {| update_offset := update_offset st; history := history st ++ l |}.

Definition record (c : Call) : M unit := fun st => (Val tt, add_call st c).

Definition get_history : M (list Call) := fun st => (Val (history st), st).

Definition get_update_offset : M Z := fun st => (Val (update_offset st), st).

Definition set_update_offset (o : Z) : M unit :=
  fun st => (Val tt, {| update_offset := o; history := history st |}).

Declare Scope bot_scope.
Delimit Scope bot_scope with bot.
Notation "x <- c ;; k" := (bind c (fun x => k))
  (at level 100, c at next level, right associativity) : bot_scope.
Notation "c ;;; k" := (bind c (fun _ => k))
  (at level 100, right associativity) : bot_scope.
Open Scope bot_scope.

(** The monadic [for x in l: body x]; an exception leaves the loop. *)
Fixpoint for_each {A} (l : list A) (body : A -> M unit) : M unit :=
  match l with
  | [] => ret tt
  | x :: l' => body x ;;; for_each l' body
  end.

Section Bot.

Variable w : World.
Variable T : Templates.

(** [requests.post(url, data=payload, ...)] on the method of [c]. *)
Definition requests_post (c : Call) : M (option TgJson) :=
  h <- get_history ;;
  record c ;;;
  match post_reply w h c with
  | ConnectionError => raise RequestException
  | Response body => ret body
  end.

(** [response.json()] *)
Definition json {A} (body : option A) : M A :=
  match body with Some j => ret j | None => raise JSONDecodeError end.

(* ------------------------------------------------------------------ *)
(** ** [send_telegram_message] *)

(** [range(0, stop, step)] *)
Fixpoint range_from (fuel i stop step : nat) : list nat :=
  match fuel with
  | O => []
  | S fuel' =>
      if i <? stop then i :: range_from fuel' (i + step) stop step else []
  end.

Definition range (stop step : nat) : list nat := range_from stop 0 stop step.

(** [text[i:i+n]] *)
Definition slice (text : str) (i n : nat) : str := firstn n (skipn i text).

(** [[text[i:i+max_length] for i in range(0, len(text), max_length)]] *)
Definition split_parts (max_length : nat) (text : str) : list str :=
  map (fun i => slice text i max_length) (range (length text) max_length).

(** The f-string put before every part but the first; [i] is the index of
    the part given by [enumerate]. *)
Definition continuation (i total : nat) : str :=
  lit "(продолжение " ++ str_of_nat (i + 1) ++ lit "/" ++ str_of_nat total
    ++ [41; 10; 10]%N.

(** The body of [for i, part in enumerate(parts)], from index [i] on.  The
    two [return False] leave the function; the [return True] after the loop
    is the empty case. *)
Fixpoint send_parts (chat_id : Z) (total i : nat) (parts : list str) : M bool :=
  match parts with
  | [] => ret true
  | part :: rest =>
      let part := if 0 <? i then continuation i total ++ part else part in
      r <- attempt (response <- requests_post (sendMessage chat_id part) ;;
                    j <- json response ;;
                    ret (ok j)) ;;
      match r with
      | Val true => send_parts chat_id total (S i) rest
      | Val false => ret false
      | Exc _ => ret false
      end
  end.

Definition send_telegram_message (chat_id : Z) (text : str) : M bool :=
  let max_length := max_message_length in
  if max_length <? length text then
    let parts := split_parts max_length text in
    send_parts chat_id (length parts) 0 parts
  else
    r <- attempt (response <- requests_post (sendMessage chat_id text) ;;
                  result <- json response ;;
                  ret (ok result)) ;;
    match r with
    | Val true => ret true
    | Val false => ret false
    | Exc _ => ret false
    end.

(* ------------------------------------------------------------------ *)
(** ** [get_telegram_updates] *)

(** [requests.get(url, params=params, ...)] with ['offset'] the current
    [self.update_offset]. *)
Definition requests_get_updates (offset : Z) : M (option (bool * list Update)) :=
  h <- get_history ;;
  record (getUpdates offset) ;;;
  match poll_reply w h offset with
  | PollConnectionError => raise RequestException
  | PollResponseOf data => ret data
  end.

Definition list_truthy {A} (l : list A) : bool :=
  match l with [] => false | _ => true end.

(** [updates[-1]['update_id']] *)
Definition last_update_id (updates : list Update) : option Z :=
  match rev updates with
  | u :: _ => update_id u
  | [] => None
  end.

Definition get_telegram_updates : M (list Update) :=
  offset <- get_update_offset ;;
  r <- attempt (response <- requests_get_updates offset ;;
                data <- json response ;;
                if fst data && list_truthy (snd data) then
                  let updates := snd data in
                  (if list_truthy updates then
                     i <- lookup (last_update_id updates) ;;
                     set_update_offset (i + 1)
                   else ret tt) ;;;
                  ret updates
                else ret []) ;;
  match r with
  | Val updates => ret updates
  | Exc _ => ret []
  end.

(* ------------------------------------------------------------------ *)
(** ** [process_message] *)

Definition start_command_processed : str := lit "start_command_processed".
Definition help_command_processed : str := lit "help_command_processed".

(** [message.get('text', '')] *)
Definition get_text (m : Message) : str :=
  match msg_text m with Some t => t | None => [] end.

Definition process_message (m : Message) : M (option str) :=
  r <- attempt (chat_id <- lookup (msg_chat_id m) ;;
                user_id <- lookup (msg_from_id m) ;;
                let text := strip (get_text m) in
                if negb (str_truthy text) then ret None
                else if startswith text (lit "/start") then
                  send_telegram_message chat_id (SYSTEM_PROMPTS_welcome T) ;;;
                  ret (Some start_command_processed)
                else if startswith text (lit "/help") then
                  send_telegram_message chat_id (SYSTEM_PROMPTS_help T) ;;;
                  ret (Some help_command_processed)
                else ret (Some text)) ;;
  match r with
  | Val question => ret question
  | Exc _ => ret None
  end.

(* ------------------------------------------------------------------ *)
(** ** [show_thinking_animation] *)

Definition thinking_messages : list str :=
  [ lit "🤔 Анализирую учебные планы...";
    lit "📚 Ищу информацию в базе данных...";
    lit "🔍 Проверяю детали программ...";
    lit "💭 Формулирую ответ..." ].

(** The loop over the status strings [msgs] still to show, with the current
    value of the local [message_id].  An exception in the body is caught and
    leaves the loop ([break]) with [message_id] as it was. *)
Fixpoint thinking_loop (chat_id : Z) (msgs : list str) (message_id : option Z)
  : M (option Z) :=
  match msgs with
  | [] => ret message_id
  | msg :: rest =>
      r <- attempt
             match message_id with
             | None =>
                 response <- requests_post (sendMessage chat_id msg) ;;
                 result <- json response ;;
                 if ok result then
                   i <- lookup (result_message_id result) ;;
                   ret (Some i)
                 else ret None
             | Some i =>
                 requests_post (editMessageText chat_id i msg) ;;;
                 ret (Some i)
             end ;;
      match r with
      | Val message_id' => thinking_loop chat_id rest message_id'
      | Exc _ => ret message_id
      end
  end.

Definition show_thinking_animation (chat_id : Z) : M (option Z) :=
  thinking_loop chat_id thinking_messages None.

(* ------------------------------------------------------------------ *)
(** ** [get_yandex_response] *)

(** [PDFProcessor.get_curriculum_text()] *)
Definition pdf_get_curriculum_text : M str :=
  h <- get_history ;;
  record get_curriculum_text ;;;
  match pdf_reply w h with
  | Some t => ret t
  | None => raise SdkError
  end.

(** [get_system_prompt] *)
Definition get_system_prompt : M str :=
  curriculum_text <- pdf_get_curriculum_text ;;
  ret (SYSTEM_PROMPTS_main T curriculum_text).

(** The SDK call [completions(...).configure(...).run(messages)] on the
    system message and the user message. *)
Definition completions (system_text user_text : str) : M (list str) :=
  h <- get_history ;;
  record (completions_run system_text user_text) ;;;
  match sdk_reply w h system_text user_text with
  | Some alternatives => ret alternatives
  | None => raise SdkError
  end.

Definition get_yandex_response (user_question : str) : M str :=
  r <- attempt (system_prompt <- get_system_prompt ;;
                result <- completions system_prompt user_question ;;
                match result with
                | response_text :: _ => ret (fix_telegram_formatting response_text)
                | [] => ret SYSTEM_PROMPTS_no_response
                end) ;;
  match r with
  | Val response => ret response
  | Exc _ => ret SYSTEM_PROMPTS_error
  end.

(* ------------------------------------------------------------------ *)
(** ** [handle_question] *)

(** [if thinking_message_id:] on an optional integer. *)
Definition id_truthy (i : option Z) : bool :=
  match i with
  | Some z => negb (z =? 0)%Z
  | None => false
  end.

(** The guarded deletion of the thinking message, the same in the body and
    in the handler: [if thinking_message_id: try: requests.post(delete_url,
    ...) except: ...]. *)
Definition delete_thinking (chat_id : Z) (thinking_message_id : option Z) : M unit :=
  if id_truthy thinking_message_id then
    match thinking_message_id with
    | Some i => attempt (requests_post (deleteMessage chat_id i)) ;;; ret tt
    | None => ret tt
    end
  else ret tt.

Definition error_message : str :=
  lit "Извините, произошла ошибка при обработке вашего вопроса. Попробуйте позже.".

(** The [except Exception] block of [handle_question], with the value the
    local [thinking_message_id] has when the exception is caught. *)
Definition handle_question_except (chat_id : Z) (thinking_message_id : option Z)
  : M unit :=
  delete_thinking chat_id thinking_message_id ;;;
  send_telegram_message chat_id error_message ;;;
  ret tt.

(** [handle_question].  The [try] block is cut where the local
    [thinking_message_id] is assigned, so that the handler sees [None] for an
    exception raised before the assignment and the assigned value after. *)
Definition handle_question (chat_id : Z) (question : str) : M unit :=
  r1 <- attempt (requests_post (sendChatAction chat_id) ;;;
                 show_thinking_animation chat_id) ;;
  match r1 with
  | Exc _ => handle_question_except chat_id None
  | Val thinking_message_id =>
      r2 <- attempt (response <- get_yandex_response question ;;
                     delete_thinking chat_id thinking_message_id ;;;
                     send_telegram_message chat_id response ;;;
                     ret tt) ;;
      match r2 with
      | Val _ => ret tt
      | Exc _ => handle_question_except chat_id thinking_message_id
      end
  end.

(* ------------------------------------------------------------------ *)
(** ** [run] *)

(** [question and question not in ['start_command_processed',
    'help_command_processed']] *)
Definition is_question (question : option str) : bool :=
  match question with
  | Some q =>
      str_truthy q
      && negb (str_eqb q start_command_processed || str_eqb q help_command_processed)
  | None => false
  end.

(** The body of [for update in updates]. *)
Definition run_update (update : Update) : M unit :=
  match message update with
  | Some m =>
      chat_id <- lookup (msg_chat_id m) ;;
      question <- process_message m ;;
      if is_question question then
        match question with
        | Some q => handle_question chat_id q
        | None => ret tt
        end
      else ret tt
  | None => ret tt
  end.

(** The [try] block of one turn of [while True]. *)
Definition run_body : M unit :=
  updates <- get_telegram_updates ;;
  for_each updates run_update.

(** One turn of [while True]: the body, and [except Exception] around it. *)
Definition run_once : M unit :=
  r <- attempt run_body ;;
  match r with
  | Val _ => ret tt
  | Exc _ => ret tt
  end.

(** [n] turns of the loop. *)
Fixpoint run (n : nat) : M unit :=
  match n with
  | O => ret tt
  | S n' => run_once ;;; run n'
  end.

End Bot.

(** The constructors of the two collaborators, [PDFProcessor()] and
    [YCloudML(folder_id=..., auth=...)]: each returns or raises. *)
Record Collaborators := {
  PDFProcessor : Res unit;
  YCloudML : str -> str -> Res unit
}.

(** [ITMOCurriculumBot.__init__]: [ValueError] when the configuration is
    not valid; otherwise the collaborators are constructed, the SDK with the
    folder id and the auth token of the configuration, and an exception of
    either constructor leaves [__init__]; then [update_offset = 0]. *)
Definition init (k : Collaborators) (e : Environment) : Res St :=
  let config_status := validate_config e in
  if negb (valid config_status) then Exc ValueError
  else
    let yandex_folder_id := YANDEX_CONFIG_folder_id e in
    let yandex_auth_token := YANDEX_CONFIG_auth_token e in
    match PDFProcessor k with
    | Exc x => Exc x
    | Val _ =>
        match YCloudML k yandex_folder_id yandex_auth_token with
        | Exc x => Exc x
        | Val _ => Val {| update_offset := 0; history := [] |}
        end
    end.

(* ================================================================== *)
(** * Inputs that contain only the four recognized patterns *)

(** Plain text carries no markup character. *)
Definition plain_char (c : char) : bool :=
  negb (c =? star)%N && negb (c =? backtick)%N.

Definition plain (s : str) : bool := forallb plain_char s.

(** A piece of an input: plain text, or one of the four patterns around
    plain text. *)
Inductive Piece :=
| Text (s : str)
| Bold (s : str)
| Italic (s : str)
| CodeBlock (s : str)
| Code (s : str).

Definition render_piece (p : Piece) : str :=
  match p with
  | Text s => s
  | Bold s => [star; star] ++ s ++ [star; star]
  | Italic s => [star] ++ s ++ [star]
  | CodeBlock s => [backtick; backtick; backtick] ++ s ++ [backtick; backtick; backtick]
  | Code s => [backtick] ++ s ++ [backtick]
  end.

Definition render (ps : list Piece) : str := concat (map render_piece ps).

(** The text inside a piece is plain; the groups of the second and fourth
    patterns are not empty. *)
Definition piece_ok (p : Piece) : bool :=
  match p with
  | Text s | Bold s | CodeBlock s => plain s
  | Italic s | Code s => plain s && str_truthy s
  end.

Definition recognized (ps : list Piece) : bool := forallb piece_ok ps.

(* ================================================================== *)
(** * Vocabulary of the statements *)

(** The world accepts a call: [requests.post] returns, the body parses and
    its ['ok'] is truthy.  Anything else is a transport failure. *)
Definition accepted (w : World) (h : list Call) (c : Call) : bool :=
  match post_reply w h c with
  | Response (Some j) => ok j
  | _ => false
  end.

(** The world raises on a call: [requests.post] itself fails. *)
Definition post_raises (w : World) (h : list Call) (c : Call) : bool :=
  match post_reply w h c with
  | ConnectionError => true
  | Response _ => false
  end.

(** The texts of the transport calls of a chunked send, for the parts from
    index [i] on. *)
Fixpoint payloads_from (total i : nat) (parts : list str) : list str :=
  match parts with
  | [] => []
  | part :: rest =>
      (if 0 <? i then continuation i total ++ part else part)
        :: payloads_from total (S i) rest
  end.

Definition payloads (text : str) : list str :=
  let parts := split_parts max_message_length text in
  payloads_from (length parts) 0 parts.

(** [ceil(a / b)] *)
Definition ceil_div (a b : nat) : nat := (a + b - 1) / b.

(** Every call of [calls], issued in order from the history [h], is
    accepted. *)
Fixpoint all_accepted (w : World) (h : list Call) (calls : list Call) : bool :=
  match calls with
  | [] => true
  | c :: rest => accepted w h c && all_accepted w (h ++ [c]) rest
  end.

(** The update ids present in a batch, and the greatest of them. *)
Definition update_ids (updates : list Update) : list Z :=
  flat_map (fun u => match update_id u with Some i => [i] | None => [] end) updates.

Definition max_update_id (updates : list Update) : option Z :=
  match update_ids updates with
  | [] => None
  | i :: rest => Some (fold_left Z.max rest i)
  end.

Fixpoint ascending (l : list Z) : bool :=
  match l with
  | a :: (b :: _) as rest => (a <=? b)%Z && ascending rest
  | _ => true
  end.

(** The marker of the specification's text, for comparison with
    [continuation]. *)
Definition continuation_en (i total : nat) : str :=
  lit "(continuation " ++ str_of_nat i ++ lit "/" ++ str_of_nat total
    ++ [41; 10; 10]%N.

(* ------------------------------------------------------------------ *)
(** ** Concrete worlds and inputs *)

Definition ok_json (i : Z) : TgJson := {| ok := true; result_message_id := Some i |}.
Definition not_ok_json : TgJson := {| ok := false; result_message_id := None |}.

(** A world that accepts every post (message id 77), has nothing to poll,
    and whose completion answers [answer]. *)
Definition world_ok (answer : list str) : World :=
  {| post_reply := fun _ _ => Response (Some (ok_json 77));
     poll_reply := fun _ _ => PollResponseOf (Some (true, []));
     pdf_reply := fun _ => Some (lit "plan");
     sdk_reply := fun _ _ _ => Some answer |}.

(** A world whose Bot API answers every post with a body that is not ok. *)
Definition world_not_ok : World :=
  {| post_reply := fun _ _ => Response (Some not_ok_json);
     poll_reply := fun _ _ => PollResponseOf (Some (true, []));
     pdf_reply := fun _ => Some (lit "plan");
     sdk_reply := fun _ _ _ => Some [] |}.

(** A world that answers the first poll with [batch] and accepts every
    post. *)
Definition world_batch (batch : list Update) : World :=
  {| post_reply := fun _ _ => Response (Some (ok_json 77));
     poll_reply := fun h _ =>
       match h with
       | [] => PollResponseOf (Some (true, batch))
       | _ => PollResponseOf (Some (true, []))
       end;
     pdf_reply := fun _ => Some (lit "plan");
     sdk_reply := fun _ _ _ => Some [lit "answer"] |}.

(** A world that accepts the posts made while fewer than [n] calls are in
    the history, and answers the later ones with a connection error. *)
Definition world_flaky (n : nat) : World :=
  {| post_reply := fun h _ =>
       if length h <? n then Response (Some (ok_json 77)) else ConnectionError;
     poll_reply := fun _ _ => PollResponseOf (Some (true, []));
     pdf_reply := fun _ => Some (lit "plan");
     sdk_reply := fun _ _ _ => Some [lit "answer"] |}.

(** Texts of 4001 and of 8001 characters. *)
Definition long_text : str := repeat 97%N 4001.
Definition longer_text : str := repeat 97%N (4001 + 4000).

Definition templates0 : Templates :=
  {| SYSTEM_PROMPTS_main := fun t => lit "system: " ++ t;
     SYSTEM_PROMPTS_welcome := lit "welcome";
     SYSTEM_PROMPTS_help := lit "help" |}.

Definition st0 : St := {| update_offset := 0; history := [] |}.

Definition text_message (chat : Z) (t : str) : Message :=
  {| msg_chat_id := Some chat; msg_from_id := Some chat; msg_text := Some t |}.

Definition update_of (i : Z) (m : Message) : Update :=
  {| update_id := Some i; message := Some m |}.

(** The environment with no secrets module and no variable set. *)
Definition env_unset : Environment :=
  {| secrets_module := None;
     env_TELEGRAM_BOT_TOKEN := None;
     env_YANDEX_FOLDER_ID := None;
     env_YANDEX_AUTH_TOKEN := None |}.

(** A computation that only makes calls: it leaves [update_offset] alone and
    extends the history. *)
Definition only_calls {A} (c : M A) : Prop :=
  forall st, exists r l, c st = (r, add_calls st l).

(** A computation that, moreover, returns normally in every state. *)
Definition never_raises {A} (c : M A) : Prop :=
  forall st, exists a l, c st = (Val a, add_calls st l).

(** No call of [calls], issued in order from the history [h], raises. *)
Fixpoint none_raises (w : World) (h : list Call) (calls : list Call) : bool :=
  match calls with
  | [] => true
  | c :: rest => negb (post_raises w h c) && none_raises w (h ++ [c]) rest
  end.

(** A world that accepts every [sendMessage] and answers every other post
    with a body that is not ok. *)
Definition world_edit_refused : World :=
  {| post_reply := fun _ c =>
       match c with
       | sendMessage _ _ => Response (Some (ok_json 77))
       | _ => Response (Some not_ok_json)
       end;
     poll_reply := fun _ _ => PollResponseOf (Some (true, []));
     pdf_reply := fun _ => Some (lit "plan");
     sdk_reply := fun _ _ _ => Some [lit "answer"] |}.

(** A world whose completion call raises. *)
Definition world_sdk_raises : World :=
  {| post_reply := fun _ _ => Response (Some (ok_json 77));
     poll_reply := fun _ _ => PollResponseOf (Some (true, []));
     pdf_reply := fun _ => Some (lit "plan");
     sdk_reply := fun _ _ _ => None |}.

(** The texts of the transport calls that deliver [text] when every call is
    accepted. *)
Definition deliveries (text : str) : list str :=
  if max_message_length <? length text then payloads text else [text].

(** A world that accepts every post except [deleteMessage], which raises. *)
Definition world_delete_raises : World :=
  {| post_reply := fun _ c =>
       match c with
       | deleteMessage _ _ => ConnectionError
       | _ => Response (Some (ok_json 77))
       end;
     poll_reply := fun _ _ => PollResponseOf (Some (true, []));
     pdf_reply := fun _ => Some (lit "plan");
     sdk_reply := fun _ _ _ => Some [lit "**Курс X**: *5* кредитов"] |}.

(** Batches: two updates in ascending order, two updates out of order, and
    a question followed by a command. *)
Definition batch_ascending : list Update :=
  [update_of 5 (text_message 1 (lit "/start"));
   update_of 7 (text_message 2 (lit "/help"))].

Definition batch_unordered : list Update :=
  [update_of 5 (text_message 1 (lit "/start"));
   update_of 3 (text_message 2 (lit "/help"))].

Definition batch_question_then_start : list Update :=
  [update_of 5 (text_message 1 (lit "Сколько кредитов?"));
   update_of 7 (text_message 2 (lit "/start"))].

(** A world that answers the first poll with [batch] and in which every
    post and every completion raises. *)
Definition world_posts_raise (batch : list Update) : World :=
  {| post_reply := fun _ _ => ConnectionError;
     poll_reply := fun h _ =>
       match h with
       | [] => PollResponseOf (Some (true, batch))
       | _ => PollResponseOf (Some (true, []))
       end;
     pdf_reply := fun _ => Some (lit "plan");
     sdk_reply := fun _ _ _ => None |}.

(** Collaborators whose constructors return. *)
Definition collaborators_ok : Collaborators :=
  {| PDFProcessor := Val tt; YCloudML := fun _ _ => Val tt |}.

(** The call of one step of the thinking indicator, and whether the step
    raises: the post itself fails, or, for a send, the body does not parse or
    is ok without a message id. *)
Definition step_call (chat_id : Z) (msg : str) (message_id : option Z) : Call :=
  match message_id with
  | None => sendMessage chat_id msg
  | Some i => editMessageText chat_id i msg
  end.

Definition step_raises (w : World) (h : list Call) (message_id : option Z)
    (c : Call) : bool :=
  match post_reply w h c, message_id with
  | ConnectionError, _ => true
  | Response None, None => true
  | Response (Some j), None =>
      ok j && match result_message_id j with Some _ => false | None => true end
  | Response _, Some _ => false
  end.

(** The status strings of the thinking indicator, by position. *)
Definition thinking_first : str := lit "🤔 Анализирую учебные планы...".
Definition thinking_second : str := lit "📚 Ищу информацию в базе данных...".
Definition thinking_later : list str :=
  [ lit "🔍 Проверяю детали программ...";
    lit "💭 Формулирую ответ..." ].

(* ================================================================== *)
(** * Vocabulary of the formatter's proofs *)

(** The scan of [re.sub] from a position whose previous character is
    [prev]. *)
Definition scan (m : matcher) (opening closing : str) (last : char)
    (prev : option char) (s : str) : str :=
  re_sub_from m opening closing last (length s) prev s.

(** A character that is no markup and no newline; the tags consist of such
    characters. *)
Definition neutral (c : char) : bool :=
  negb (c =? star)%N && negb (c =? backtick)%N && negb (c =? newline)%N.

(** [refines P s s']: [s'] is [s] with some characters that satisfy [P]
    replaced by non-empty runs of neutral characters. *)
Inductive refines (P : char -> bool) : str -> str -> Prop :=
| refines_nil : refines P [] []
| refines_keep c s s' : refines P s s' -> refines P (c :: s) (c :: s')
| refines_tag c t s s' :
    P c = true -> t <> [] -> forallb neutral t = true ->
    refines P s s' -> refines P (c :: s) (t ++ s').

(** The pattern [m] matches at no position of [s], [prev] being the character
    before [s]. *)
Fixpoint no_match (m : matcher) (prev : option char) (s : str) : Prop :=
  match s with
  | [] => True
  | c :: s' => m prev s = None /\ no_match m (Some c) s'
  end.

Definition is_star (c : char) : bool := (c =? star)%N.
Definition is_backtick (c : char) : bool := (c =? backtick)%N.
Definition no_backtick (s : str) : bool := forallb (fun c => negb (is_backtick c)) s.
Definition no_star (s : str) : bool := forallb (fun c => negb (is_star c)) s.

(** Texts whose backticks all belong to instances of the third and fourth
    patterns around text without backticks. *)
Inductive backticks_paired : str -> Prop :=
| paired_nil : backticks_paired []
| paired_char c s :
    is_backtick c = false -> backticks_paired s -> backticks_paired (c :: s)
| paired_code body s :
    body <> [] -> no_backtick body = true -> backticks_paired s ->
    backticks_paired ([backtick] ++ body ++ [backtick] ++ s)
| paired_block body s :
    no_backtick body = true -> backticks_paired s ->
    backticks_paired ([backtick; backtick; backtick] ++ body
                        ++ [backtick; backtick; backtick] ++ s).

(** The same with instances of the fourth pattern only. *)
Inductive single_paired : str -> Prop :=
| single_nil : single_paired []
| single_char c s :
    is_backtick c = false -> single_paired s -> single_paired (c :: s)
| single_code body s :
    body <> [] -> no_backtick body = true -> single_paired s ->
    single_paired ([backtick] ++ body ++ [backtick] ++ s).

(** What the proofs need of a pattern: a match is the opening delimiter
    [d1], the group, the closing delimiter [d2]. *)
Definition sound (m : matcher) (d1 d2 : str) : Prop :=
  forall prev s g rest, m prev s = Some (g, rest) -> s = d1 ++ g ++ d2 ++ rest.

(** The first and the third pattern: the delimiter [d], a lazy group, the
    delimiter again. *)
Definition match_delim (dotall : bool) (d : str) : matcher := fun _ s =>
  match strip_prefix d s with
  | Some r => lazy_until dotall d r
  | None => None
  end.

(** Whether the character before a position is an asterisk, which is all
    the lookbehind of the second pattern asks. *)
Definition after_star (prev : option char) : bool :=
  match prev with Some c => is_star c | None => false end.

(** The character before the position reached after the text [g]. *)
Fixpoint prev_after (prev : option char) (g : str) : option char :=
  match g with
  | [] => prev
  | c :: g' => prev_after (Some c) g'
  end.

(** The scan of such a pattern from the start of a text. *)
Definition scan_delim (dotall : bool) (d opening closing : str) (q : char)
    (s : str) : str :=
  scan (match_delim dotall d) opening closing q None s.

(** The four passes as scans. *)
Definition scan_bold := scan match_bold (lit "<b>") (lit "</b>") star.
Definition scan_italic := scan match_italic (lit "<i>") (lit "</i>") star.
Definition scan_block := scan match_block (lit "<code>") (lit "</code>") backtick.
Definition scan_code := scan match_code (lit "<code>") (lit "</code>") backtick.

Definition bt3 : str := [backtick; backtick; backtick].

(** An input of the four patterns, and one with a stray pair of backticks. *)
Definition pieces_example : list Piece :=
  [Bold (lit "Курс X"); Text (lit ": "); Italic (lit "5"); Text (lit " кредитов ");
   Code (lit "c"); CodeBlock (lit "x"); Italic (lit "a"); Bold (lit "b")].

Definition stray_backticks : str := lit "``a``".

(* ================================================================== *)
(** * Inputs whose pattern instances stand apart *)

Definition is_text (p : Piece) : bool :=
  match p with Text _ => true | _ => false end.

(** The list is empty or begins with a non-empty plain text. *)
Definition starts_text (ps : list Piece) : bool :=
  match ps with
  | [] => true
  | Text s :: _ => str_truthy s
  | _ => false
  end.

(** Every instance of a pattern is followed by plain text or by the end. *)
Fixpoint separated (ps : list Piece) : bool :=
  match ps with
  | [] => true
  | p :: ps' => (is_text p || starts_text ps') && separated ps'
  end.

Definition no_newline (s : str) : bool :=
  forallb (fun c => negb (c =? newline)%N) s.

(** The text between double asterisks is on one line. *)
Definition bold_on_one_line (p : Piece) : bool :=
  match p with Bold s => no_newline s | _ => true end.

(** The HTML of a piece. *)
Definition converted (p : Piece) : str :=
  match p with
  | Text s => s
  | Bold s => lit "<b>" ++ s ++ lit "</b>"
  | Italic s => lit "<i>" ++ s ++ lit "</i>"
  | CodeBlock s => lit "<code>" ++ s ++ lit "</code>"
  | Code s => lit "<code>" ++ s ++ lit "</code>"
  end.

(** A piece after each of the four passes. *)
Definition stage_bold (p : Piece) : Piece :=
  match p with Bold s => Text (converted p) | _ => p end.
Definition stage_italic (p : Piece) : Piece :=
  match p with Italic s => Text (converted p) | _ => p end.
Definition stage_block (p : Piece) : Piece :=
  match p with CodeBlock s => Text (converted p) | _ => p end.
Definition stage_code (p : Piece) : Piece :=
  match p with Code s => Text (converted p) | _ => p end.

Definition not_bold (p : Piece) : bool :=
  match p with Bold _ => false | _ => true end.
Definition not_block (p : Piece) : bool :=
  match p with CodeBlock _ => false | _ => true end.

(** Pieces that stand apart, and a text in bold over two lines. *)
Definition pieces_apart : list Piece :=
  [Bold (lit "Курс X"); Text (lit ": "); Italic (lit "5"); Text (lit " кредитов ");
   CodeBlock (lit "x
y"); Text (lit " "); Code (lit "c")].

Definition bold_over_lines : str := lit "a
b".

(* ================================================================== *)
(** * site_parser.py *)

Definition langle : char := 60%N.
Definition rangle : char := 62%N.
Definition slash : char := 47%N.

(** The pattern of a line break: the text [<br], whitespace (greedy), an
    optional slash, [>].  Whitespace is neither a slash nor [>], so giving
    whitespace back never helps; and when the slash is not followed by [>]
    the attempt without the slash fails on the slash.  The pattern has no
    group: the matcher returns the empty text for it. *)
Definition match_br : matcher := fun _ s =>
  match strip_prefix (lit "<br") s with
  | Some r =>
      let r := lstrip r in
      let r := match r with
               | c :: r' => if (c =? slash)%N then r' else r
               | [] => r
               end in
      match r with
      | c :: rest => if (c =? rangle)%N then Some ([], rest) else None
      | [] => None
      end
  | None => None
  end.

(** The pattern of a tag: [<], a lazy group of characters other than
    newline, [>]. *)
Definition match_tag : matcher := fun _ s =>
  match s with
  | c :: r =>
      if (c =? langle)%N then
        match lazy_until false [rangle] r with
        | Some (_, rest) => Some ([], rest)
        | None => None
        end
      else None
  | [] => None
  end.

Definition sub_br : str -> str := re_sub match_br [newline] [] rangle.
Definition sub_tag : str -> str := re_sub match_tag [] [] rangle.

(** [clean_html_tags(text)], for a text that is [None] or a string. *)
Definition clean_html_tags (text : option str) : str :=
  match text with
  | None => []
  | Some text =>
      if negb (str_truthy text) then []
      else
        let clean_text := sub_br text in
        let clean_text := sub_tag clean_text in
        strip clean_text
  end.

(** [s.lstrip(d)] and [s.strip(d)] for a single character [d]. *)
Fixpoint lstrip_char (d : char) (s : str) : str :=
  match s with
  | [] => []
  | c :: s' => if (c =? d)%N then lstrip_char d s' else s
  end.

Definition strip_char (d : char) (s : str) : str :=
  rev (lstrip_char d (rev (lstrip_char d s))).

(** [s.split(d)] for a single character [d]: never the empty list. *)
Fixpoint split (d : char) (s : str) : list str :=
  match s with
  | [] => [[]]
  | c :: s' =>
      if (c =? d)%N then [] :: split d s'
      else
        match split d s' with
        | part :: parts => (c :: part) :: parts
        | [] => [[c]]
        end
  end.

(** [l[-1]]: [None] stands for [IndexError]. *)
Fixpoint last_item (l : list str) : option str :=
  match l with
  | [] => None
  | [x] => Some x
  | _ :: l' => last_item l'
  end.

(** [extract_program_id_from_url(url)].  [urlparse_path url] is
    [urlparse(url).path], [None] when [urlparse] raises; an exception
    anywhere in the body gives ['unknown']. *)
Definition extract_program_id_from_url (urlparse_path : str -> option str)
    (url : str) : str :=
  match urlparse_path url with
  | None => lit "unknown"
  | Some path =>
      let path_parts := split slash (strip_char slash path) in
      if (3 <=? length path_parts)
         && str_eqb (nth 0 path_parts []) (lit "program")
      then
        match last_item path_parts with
        | Some part => part
        | None => lit "unknown"
        end
      else
        match path_parts with
        | [] => lit "unknown"
        | _ =>
            match last_item path_parts with
            | Some part => part
            | None => lit "unknown"
            end
        end
  end.

(** The name of the output file in [main]. *)
Definition output_filename (urlparse_path : str -> option str) (url : str) : str :=
  let program_id := extract_program_id_from_url urlparse_path url in
  lit "itmo_program_data_" ++ program_id ++ lit ".json".

Definition no_langle (s : str) : bool := forallb (fun c => negb (c =? langle)%N) s.
Definition no_slash (s : str) : bool := forallb (fun c => negb (c =? slash)%N) s.

(** The text has a [>] with no newline before it. *)
Definition closes (s : str) : bool :=
  match lazy_until false [rangle] s with Some _ => true | None => false end.

Definition scan_br := scan match_br [newline] [] rangle.
Definition scan_tag := scan match_tag [] [] rangle.

(** [d.join(parts)] for a single character [d]. *)
Fixpoint join (d : char) (parts : list str) : str :=
  match parts with
  | [] => []
  | [x] => x
  | x :: parts' => x ++ d :: join d parts'
  end.

(** A text in which an angle bracket is closed on a later line, a page
    address and the path [urlparse] finds in it. *)
Definition bracket_over_lines : str := lit "a<b
c>d".

Definition program_url : str := lit "https://abit.itmo.ru/program/master/ai_product".

Definition urlparse_example (url : str) : option str :=
  if str_eqb url program_url then Some (lit "/program/master/ai_product")
  else if str_eqb url (lit "https://abit.itmo.ru/") then Some (lit "/")
  else None.

(** A world in which reading the knowledge text raises. *)
Definition world_pdf_raises : World :=
  {| post_reply := fun _ _ => Response (Some (ok_json 77));
     poll_reply := fun _ _ => PollResponseOf (Some (true, []));
     pdf_reply := fun _ => None;
     sdk_reply := fun _ _ _ => Some [lit "answer"] |}.

(** An environment whose secrets module provides the three credentials
    while the variable [TELEGRAM_BOT_TOKEN] is set to the empty string. *)
Definition env_empty_variable : Environment :=
  {| secrets_module := Some (lit "123:abc", lit "folder", lit "key");
     env_TELEGRAM_BOT_TOKEN := Some [];
     env_YANDEX_FOLDER_ID := None;
     env_YANDEX_AUTH_TOKEN := None |}.

(** An environment in which the three variables are set, without a secrets
    module. *)
Definition env_variables_set : Environment :=
  {| secrets_module := None;
     env_TELEGRAM_BOT_TOKEN := Some (lit "123:abc");
     env_YANDEX_FOLDER_ID := Some (lit "folder");
     env_YANDEX_AUTH_TOKEN := Some (lit "key") |}.

(** What [__init__] does once the validation has passed: the collaborators
    are constructed, the SDK with [folder_id] and [auth_token]. *)
Definition construct (k : Collaborators) (folder_id auth_token : str) : Res St :=
  match PDFProcessor k with
  | Exc x => Exc x
  | Val _ =>
      match YCloudML k folder_id auth_token with
      | Exc x => Exc x
      | Val _ => Val st0
      end
  end.

(** The three conditions of [validate_config]. *)
Definition token_rejected (e : Environment) : bool :=
  negb (str_truthy (TELEGRAM_CONFIG_token e))
  || str_eqb (TELEGRAM_CONFIG_token e) (lit "YOUR_TELEGRAM_TOKEN").

Definition folder_id_rejected (e : Environment) : bool :=
  negb (str_truthy (YANDEX_CONFIG_folder_id e))
  || str_eqb (YANDEX_CONFIG_folder_id e) (lit "YOUR_FOLDER_ID").

Definition auth_token_rejected (e : Environment) : bool :=
  negb (str_truthy (YANDEX_CONFIG_auth_token e))
  || str_eqb (YANDEX_CONFIG_auth_token e) (lit "YOUR_AUTH_TOKEN").

(* ================================================================== *)
(** * Configuration *)

(** C2.  With no secrets module and no environment variable, all three
    required credentials are missing and the placeholders are in effect; yet
    [validate_config] reports a valid configuration with no issue, and the
    constructor does not raise [ValueError] but goes on to construct the
    collaborators, the SDK with the placeholders, and returns when they do:
    the placeholders it tests for are not the ones the module falls back
    to. *)
Theorem validate_config_accepts_placeholders :
  token_missing env_unset = true /\
  folder_id_missing env_unset = true /\
  auth_token_missing env_unset = true /\
  validate_config env_unset = {| valid := true; issues := [] |} /\
  init collaborators_ok env_unset = Val st0 /\
  (forall k,
     init k env_unset
     = construct k (lit "YOUR_YANDEX_FOLDER_ID") (lit "YOUR_YANDEX_AUTH_TOKEN")).
Proof.
  split; [|split; [|split; [|split; [|split]]]]; vm_compute; reflexivity.
Qed.

(** More generally, without a secrets module a credential that is left unset
    is never among the reported issues. *)
Lemma validate_config_misses_unset (e : Environment) :
  secrets_module e = None ->
  (token_missing e = true ->
   ~ In (lit "Telegram bot token not configured") (issues (validate_config e)))
  /\ (folder_id_missing e = true ->
      ~ In (lit "YandexGPT folder_id not configured") (issues (validate_config e)))
  /\ (auth_token_missing e = true ->
      ~ In (lit "YandexGPT auth_token not configured") (issues (validate_config e))).
Proof.
  intros Hs. destruct e as [sm t f a]. simpl in Hs. subst sm.
  unfold token_missing, folder_id_missing, auth_token_missing, validate_config,
    TELEGRAM_CONFIG_token, YANDEX_CONFIG_folder_id, YANDEX_CONFIG_auth_token,
    TELEGRAM_BOT_TOKEN, YANDEX_FOLDER_ID, YANDEX_AUTH_TOKEN, getenv.
  cbn [secrets_module env_TELEGRAM_BOT_TOKEN env_YANDEX_FOLDER_ID
       env_YANDEX_AUTH_TOKEN issues].
  split; [|split]; intros Hm.
  - destruct t; [discriminate|].
    replace (negb (str_truthy (lit "YOUR_TELEGRAM_BOT_TOKEN"))
             || str_eqb (lit "YOUR_TELEGRAM_BOT_TOKEN") (lit "YOUR_TELEGRAM_TOKEN"))
      with false by (vm_compute; reflexivity).
    destruct (_ || _); destruct (_ || _); simpl;
      intros H; repeat (destruct H as [H|H]; [vm_compute in H; discriminate|]);
      exact H.
  - destruct f; [discriminate|].
    replace (negb (str_truthy (lit "YOUR_YANDEX_FOLDER_ID"))
             || str_eqb (lit "YOUR_YANDEX_FOLDER_ID") (lit "YOUR_FOLDER_ID"))
      with false by (vm_compute; reflexivity).
    destruct (_ || _); destruct (_ || _); simpl;
      intros H; repeat (destruct H as [H|H]; [vm_compute in H; discriminate|]);
      exact H.
  - destruct a; [discriminate|].
    replace (negb (str_truthy (lit "YOUR_YANDEX_AUTH_TOKEN"))
             || str_eqb (lit "YOUR_YANDEX_AUTH_TOKEN") (lit "YOUR_AUTH_TOKEN"))
      with false by (vm_compute; reflexivity).
    destruct (_ || _); destruct (_ || _); simpl;
      intros H; repeat (destruct H as [H|H]; [vm_compute in H; discriminate|]);
      exact H.
Qed.

(* ================================================================== *)
(** * Elementary facts about the monad *)

Ltac unfold_m :=
  unfold bind, ret, raise, attempt, lookup, json, record, get_history,
    get_update_offset, set_update_offset in *.

Lemma requests_post_eq w c st :
  requests_post w c st =
  (match post_reply w (history st) c with
   | ConnectionError => Exc RequestException
   | Response body => Val body
   end, add_call st c).
Proof.
  unfold requests_post; unfold_m; simpl.
  destruct (post_reply w (history st) c); reflexivity.
Qed.

(** One guarded post whose answer is tested for ['ok']: both branches of the
    code continue from the state with the call recorded, along the first
    when the call is accepted and along the second otherwise. *)
Lemma guarded_post w c (A : Type) (k1 k2 : M A) st :
  (r <- attempt (response <- requests_post w c ;;
                 j <- json response ;;
                 ret (ok j)) ;;
   match r with
   | Val true => k1
   | Val false => k2
   | Exc _ => k2
   end) st
  = if accepted w (history st) c then k1 (add_call st c) else k2 (add_call st c).
Proof.
  unfold accepted. unfold bind at 1. unfold attempt.
  unfold bind at 1. rewrite requests_post_eq.
  destruct (post_reply w (history st) c) as [|[j|]]; unfold_m; simpl; try reflexivity.
  destruct (ok j); reflexivity.
Qed.

(* ================================================================== *)
(** * Messages whose text is one of the two sentinels *)

(** C10.  A message whose trimmed text is literally
    [start_command_processed] or [help_command_processed] is returned by
    [process_message] as a question, and the comparison in [run] then drops
    it: the update is handled without a single call to the world, so
    [handle_question] is not entered, the completion is not called and
    nothing is sent. *)
Theorem sentinel_text_gets_no_reply w T (u : Update) (m : Message) (c f : Z) st :
  message u = Some m ->
  msg_chat_id m = Some c ->
  msg_from_id m = Some f ->
  strip (get_text m) = start_command_processed
  \/ strip (get_text m) = help_command_processed ->
  process_message w T m st = (Val (Some (strip (get_text m))), st)
  /\ is_question (Some (strip (get_text m))) = false
  /\ run_update w T u st = (Val tt, st).
Proof.
  intros Hm Hc Hf Hs.
  assert (Hp : process_message w T m st = (Val (Some (strip (get_text m))), st)).
  { unfold process_message. unfold_m. rewrite Hc, Hf.
    destruct Hs as [Hs | Hs]; rewrite Hs; reflexivity. }
  assert (Hq : is_question (Some (strip (get_text m))) = false).
  { destruct Hs as [Hs | Hs]; rewrite Hs; reflexivity. }
  repeat split; trivial.
  unfold run_update. rewrite Hm. unfold bind at 1. rewrite Hc.
  unfold lookup, ret. unfold bind. rewrite Hp, Hq. reflexivity.
Qed.

Lemma sentinel_text_gets_no_reply_witness :
  let m := text_message 5 (lit "  start_command_processed ") in
  run_update (world_ok []) templates0 (update_of 1 m) st0 = (Val tt, st0).
Proof.
  exact (proj2 (proj2
    (sentinel_text_gets_no_reply (world_ok []) templates0
       (update_of 1 (text_message 5 (lit "  start_command_processed ")))
       st0 eq_refl eq_refl eq_refl (or_introl eq_refl)))).
Defined.

(* ================================================================== *)
(** * Chunked delivery: [send_telegram_message] *)

Lemma add_calls_nil st : add_calls st [] = st.
Proof. destruct st; unfold add_calls; simpl; rewrite app_nil_r; reflexivity. Qed.

Lemma add_calls_cons st c l : add_calls (add_call st c) l = add_calls st (c :: l).
Proof. unfold add_calls, add_call; simpl. rewrite <- app_assoc. reflexivity. Qed.

Lemma add_call_twice st a b : add_call (add_call st a) b = add_calls st [a; b].
Proof. unfold add_call, add_calls; simpl. rewrite <- app_assoc. reflexivity. Qed.

Section Slices.

Variable step : nat.
Hypothesis step_pos : 0 < step.

Lemma ceil_div_0 : ceil_div 0 step = 0.
Proof. unfold ceil_div. apply Nat.div_small. lia. Qed.

Lemma ceil_div_step a : 0 < a -> ceil_div a step = S (ceil_div (a - step) step).
Proof.
  intros Ha. unfold ceil_div.
  destruct (le_lt_dec step a) as [Hle | Hlt].
  - replace (a + step - 1) with ((a - step + step - 1) + 1 * step) by lia.
    rewrite Nat.div_add by lia. lia.
  - replace (a - step) with 0 by lia. simpl.
    rewrite (Nat.div_small (step - 1)) by lia.
    replace (a + step - 1) with ((a - 1) + 1 * step) by lia.
    rewrite Nat.div_add by lia. rewrite Nat.div_small by lia. reflexivity.
Qed.

Lemma range_from_length stop : forall fuel i,
  stop - i <= fuel ->
  length (range_from fuel i stop step) = ceil_div (stop - i) step.
Proof.
  induction fuel as [|fuel IH]; intros i Hf; simpl.
  - replace (stop - i) with 0 by lia. symmetry; apply ceil_div_0.
  - destruct (Nat.ltb_spec i stop) as [Hlt | Hge].
    + simpl. rewrite IH by lia. rewrite (ceil_div_step (a := stop - i)) by lia.
      f_equal. f_equal. lia.
    + replace (stop - i) with 0 by lia. symmetry; apply ceil_div_0.
Qed.

Lemma range_from_nth stop : forall fuel i k,
  k < length (range_from fuel i stop step) ->
  nth k (range_from fuel i stop step) 0 = i + k * step.
Proof.
  induction fuel as [|fuel IH]; intros i k; simpl.
  - lia.
  - destruct (Nat.ltb_spec i stop) as [Hlt | Hge]; simpl; [|lia].
    destruct k as [|k]; intros Hk.
    + lia.
    + rewrite IH by lia. lia.
Qed.

Lemma range_from_concat (text : str) : forall fuel i,
  length text - i <= fuel ->
  concat (map (fun j => slice text j step) (range_from fuel i (length text) step))
  = skipn i text.
Proof.
  induction fuel as [|fuel IH]; intros i Hf; simpl.
  - symmetry. apply skipn_all2. lia.
  - destruct (Nat.ltb_spec i (length text)) as [Hlt | Hge]; simpl.
    + rewrite IH by lia. unfold slice.
      replace (i + step) with (step + i) by lia.
      rewrite <- skipn_skipn. apply firstn_skipn.
    + symmetry. apply skipn_all2. lia.
Qed.

(** The parts are [ceil(len / step)] many. *)
Lemma split_parts_length (text : str) :
  length (split_parts step text) = ceil_div (length text) step.
Proof.
  unfold split_parts, range. rewrite length_map, range_from_length by lia.
  f_equal. lia.
Qed.

(** The [k]-th part is the slice of [step] characters at [k * step]. *)
Lemma split_parts_nth (text : str) k :
  k < ceil_div (length text) step ->
  nth k (split_parts step text) [] = slice text (k * step) step.
Proof.
  intros Hk. unfold split_parts.
  assert (Hlen : length (range (length text) step) = ceil_div (length text) step).
  { unfold range. rewrite range_from_length by lia. f_equal; lia. }
  rewrite (nth_indep _ [] (slice text 0 step)) by (rewrite length_map; lia).
  rewrite (map_nth (fun i => slice text i step) _ 0 k).
  unfold range. rewrite range_from_nth by (fold (range (length text) step); lia).
  reflexivity.
Qed.

(** The parts are consecutive: put back together they are the text. *)
Lemma split_parts_concat (text : str) : concat (split_parts step text) = text.
Proof.
  unfold split_parts, range. rewrite range_from_concat by lia. reflexivity.
Qed.

End Slices.

Lemma payloads_from_length total : forall parts i,
  length (payloads_from total i parts) = length parts.
Proof. induction parts as [|p parts IH]; intros i; simpl; [|rewrite IH]; reflexivity. Qed.

Lemma payloads_from_nth total : forall parts i k,
  k < length parts ->
  nth k (payloads_from total i parts) []
  = if 0 <? i + k then continuation (i + k) total ++ nth k parts [] else nth k parts [].
Proof.
  induction parts as [|p parts IH]; intros i k Hk; simpl in *; [lia|].
  destruct k as [|k].
  - rewrite Nat.add_0_r. reflexivity.
  - rewrite IH by lia. replace (S i + k) with (i + S k) by lia. reflexivity.
Qed.

Lemma Forall_firstn (A : Type) (P : A -> Prop) : forall n (l : list A),
  Forall P l -> Forall P (firstn n l).
Proof.
  induction n as [|n IH]; intros l H; simpl; [constructor|].
  destruct H; constructor; auto.
Qed.

Section Send.

Variable w : World.
Variable chat_id : Z.

(** When every call is accepted the loop sends every part and returns
    [True]. *)
Lemma send_parts_all total : forall parts i st,
  all_accepted w (history st)
    (map (sendMessage chat_id) (payloads_from total i parts)) = true ->
  send_parts w chat_id total i parts st
  = (Val true, add_calls st (map (sendMessage chat_id) (payloads_from total i parts))).
Proof.
  induction parts as [|p parts IH]; intros i st Hall; simpl in *.
  - rewrite add_calls_nil. reflexivity.
  - apply andb_prop in Hall. destruct Hall as [Ha Hall].
    rewrite guarded_post. rewrite Ha.
    rewrite IH by exact Hall. rewrite add_calls_cons. reflexivity.
Qed.

(** When the calls before the [k]-th are accepted and the [k]-th is not,
    the loop stops after the [k]-th and returns [False]. *)
Lemma send_parts_stop total : forall parts i st k,
  k < length parts ->
  let calls := map (sendMessage chat_id) (payloads_from total i parts) in
  all_accepted w (history st) (firstn k calls) = true ->
  accepted w (history st ++ firstn k calls) (nth k calls (sendChatAction 0)) = false ->
  send_parts w chat_id total i parts st
  = (Val false, add_calls st (firstn (S k) calls)).
Proof.
  induction parts as [|p parts IH]; intros i st k Hk; simpl in *; [lia|].
  intros Hall Hfail. rewrite guarded_post.
  destruct k as [|k]; simpl in *.
  - rewrite app_nil_r in Hfail. rewrite Hfail. reflexivity.
  - apply andb_prop in Hall. destruct Hall as [Ha Hall]. rewrite Ha.
    rewrite (IH (S i) (add_call st _) k); try lia.
    + rewrite add_calls_cons. reflexivity.
    + exact Hall.
    + simpl. rewrite <- app_assoc. exact Hfail.
Qed.

End Send.

(** A text within the limit goes out in one call. *)
Lemma send_short w chat_id text st :
  length text <= max_message_length ->
  send_telegram_message w chat_id text st
  = (Val (accepted w (history st) (sendMessage chat_id text)),
     add_call st (sendMessage chat_id text)).
Proof.
  intros Hle. unfold send_telegram_message.
  destruct (Nat.ltb_spec max_message_length (length text)) as [Hlt | _]; [lia|].
  rewrite guarded_post. destruct (accepted _ _ _); reflexivity.
Qed.

Lemma send_parts_prefix w chat_id total : forall parts i st,
  exists b n,
    send_parts w chat_id total i parts st
    = (Val b, add_calls st (map (sendMessage chat_id)
                              (firstn n (payloads_from total i parts))))
    /\ (parts <> [] -> 0 < n).
Proof.
  induction parts as [|p parts IH]; intros i st; simpl.
  - exists true, 0. rewrite add_calls_nil. split; [reflexivity|congruence].
  - rewrite guarded_post. destruct (accepted _ _ _).
    + match goal with
      | |- context [send_parts _ _ _ _ _ ?s] =>
          destruct (IH (S i) s) as [b [n [E _]]]
      end.
      exists b, (S n). rewrite E, add_calls_cons. split; [reflexivity|lia].
    + exists false, 1. split; [reflexivity|lia].
Qed.

(** Whatever the world answers, the calls of a send are a non-empty prefix
    of the deliveries of its text. *)
Lemma send_telegram_message_prefix w chat_id text st :
  exists b n,
    0 < n
    /\ send_telegram_message w chat_id text st
       = (Val b, add_calls st (map (sendMessage chat_id) (firstn n (deliveries text)))).
Proof.
  unfold deliveries.
  destruct (Nat.ltb_spec max_message_length (length text)) as [Hlt | Hle].
  - unfold send_telegram_message.
    destruct (Nat.ltb_spec max_message_length (length text)) as [_ | Hge]; [|lia].
    destruct (send_parts_prefix w chat_id
                (length (split_parts max_message_length text)) 
                (split_parts max_message_length text) 0 st) as [b [n [E Hn]]].
    exists b, n. split; [|exact E]. apply Hn. intros Hnil.
    assert (Hpos : 0 < max_message_length) by (unfold max_message_length; lia).
    pose proof (split_parts_length Hpos text) as Hlen.
    rewrite (ceil_div_step Hpos (a := length text)) in Hlen by lia.
    rewrite Hnil in Hlen. discriminate.
  - rewrite send_short by exact Hle. exists (accepted w (history st) (sendMessage chat_id text)), 1.
    split; [lia|reflexivity].
Qed.

(** C4, as the code has it.  A text of at most [max_message_length]
    characters goes out in exactly one transport call carrying the text.  A
    longer text of [L] characters is cut into [N = ceil(L / max_message_length)]
    consecutive slices of [max_message_length] characters; the call for the
    first slice carries that slice, the call for the slice of 1-based index
    [i > 1] carries the marker ["(продолжение i/N)\n\n"] followed by the
    slice; and when the transport accepts every call, exactly these [N] calls
    are issued, in order, and the result is [True]. *)
Theorem send_telegram_message_calls w chat_id text st :
  (length text <= max_message_length ->
   snd (send_telegram_message w chat_id text st)
   = add_calls st [sendMessage chat_id text])
  /\
  (max_message_length < length text ->
   let N := ceil_div (length text) max_message_length in
   length (payloads text) = N
   /\ concat (split_parts max_message_length text) = text
   /\ (forall i, i < N ->
         nth i (payloads text) []
         = if i =? 0 then slice text 0 max_message_length
           else lit "(продолжение " ++ str_of_nat (i + 1) ++ lit "/" ++ str_of_nat N
                  ++ lit ")" ++ [newline; newline]
                  ++ slice text (i * max_message_length) max_message_length)
   /\ (all_accepted w (history st) (map (sendMessage chat_id) (payloads text)) = true ->
       send_telegram_message w chat_id text st
       = (Val true, add_calls st (map (sendMessage chat_id) (payloads text))))).
Proof.
  assert (Hpos : 0 < max_message_length) by (unfold max_message_length; lia).
  split.
  - intros Hle. rewrite send_short by exact Hle. reflexivity.
  - intros Hlt N.
    assert (Hlen : length (payloads text) = N).
    { unfold payloads. rewrite payloads_from_length.
      apply split_parts_length; exact Hpos. }
    split; [exact Hlen|]. split; [apply split_parts_concat; exact Hpos|]. split.
    + intros i Hi. unfold payloads.
      rewrite payloads_from_nth by (rewrite split_parts_length by exact Hpos; exact Hi).
      rewrite split_parts_nth by (try exact Hpos; exact Hi).
      rewrite split_parts_length by exact Hpos. fold N. simpl (0 + i).
      destruct i as [|i]; [reflexivity|].
      change (0 <? S i) with true. cbv iota. unfold continuation.
      change (S i =? 0) with false. cbv iota.
      rewrite <- !app_assoc. reflexivity.
    + intros Hall. unfold send_telegram_message.
      destruct (Nat.ltb_spec max_message_length (length text)) as [_ | Hge]; [|lia].
      apply send_parts_all. exact Hall.
Qed.

Lemma send_telegram_message_calls_witness :
  send_telegram_message (world_ok []) 5 long_text st0
  = (Val true, add_calls st0 (map (sendMessage 5) (payloads long_text))).
Proof.
  apply (proj2 (send_telegram_message_calls (world_ok []) 5 long_text st0)).
  - apply Nat.ltb_lt. vm_compute. reflexivity.
  - vm_compute. reflexivity.
Defined.

(** C4 as it is worded does not hold.  On a text of 4001 characters that the
    transport accepts, the second call does not begin with
    ["(continuation 2/2)\n\n"]: the code's marker is in Russian.  And when the
    transport refuses the first call, one call is issued, not
    [ceil(4001 / 4000) = 2]. *)
Lemma send_telegram_message_marker_counterexample :
  (exists p1 p2,
     history (snd (send_telegram_message (world_ok []) 5 long_text st0))
     = [sendMessage 5 p1; sendMessage 5 p2]
     /\ startswith p2 (continuation_en 2 2) = false)
  /\ ceil_div (length long_text) max_message_length = 2
  /\ length (history (snd (send_telegram_message world_not_ok 5 long_text st0))) = 1.
Proof.
  split; [|split].
  - exists (nth 0 (payloads long_text) []), (nth 1 (payloads long_text) []).
    split; vm_compute; reflexivity.
  - vm_compute. reflexivity.
  - vm_compute. reflexivity.
Qed.

(** C6.  During a chunked send, when the calls before the [k]-th are
    accepted and the [k]-th fails (a body that is not ok, a body that does
    not parse, or a raised exception), the send returns [False] having
    issued the first [k + 1] calls and nothing else: no further slice is
    sent and nothing is deleted or edited. *)
Theorem send_telegram_message_aborts w chat_id text st k :
  max_message_length < length text ->
  k < length (payloads text) ->
  let calls := map (sendMessage chat_id) (payloads text) in
  all_accepted w (history st) (firstn k calls) = true ->
  accepted w (history st ++ firstn k calls) (nth k calls (sendChatAction 0)) = false ->
  send_telegram_message w chat_id text st
  = (Val false, add_calls st (firstn (S k) calls))
  /\ Forall (fun c => exists p, c = sendMessage chat_id p) (firstn (S k) calls).
Proof.
  intros Hlt Hk calls Hall Hfail. split.
  - unfold send_telegram_message.
    destruct (Nat.ltb_spec max_message_length (length text)) as [_ | Hge]; [|lia].
    apply send_parts_stop.
    + unfold payloads in Hk. rewrite payloads_from_length in Hk. exact Hk.
    + exact Hall.
    + exact Hfail.
  - apply Forall_firstn. apply Forall_forall. intros c Hc.
    apply in_map_iff in Hc. destruct Hc as [p [Hp _]].
    exists p. symmetry. exact Hp.
Qed.

Lemma send_telegram_message_aborts_witness :
  send_telegram_message (world_flaky 1) 5 longer_text st0
  = (Val false,
     add_calls st0 (firstn 2 (map (sendMessage 5) (payloads longer_text)))).
Proof.
  apply (proj1 (send_telegram_message_aborts (world_flaky 1) 5 longer_text st0 (k := 1)
                  ltac:(apply Nat.ltb_lt; vm_compute; reflexivity)
                  ltac:(apply Nat.ltb_lt; vm_compute; reflexivity)
                  ltac:(vm_compute; reflexivity) ltac:(vm_compute; reflexivity))).
Defined.

(* ================================================================== *)
(** * Which methods raise, and what they touch *)

Lemma never_raises_only_calls (A : Type) (c : M A) : never_raises c -> only_calls c.
Proof. intros H st. destruct (H st) as [a [l E]]. exists (Val a), l. exact E. Qed.

Lemma add_calls_app st l1 l2 : add_calls (add_calls st l1) l2 = add_calls st (l1 ++ l2).
Proof. unfold add_calls; simpl. rewrite <- app_assoc. reflexivity. Qed.

Lemma only_calls_ret (A : Type) (a : A) : only_calls (ret a).
Proof. intros st. exists (Val a), []. rewrite add_calls_nil. reflexivity. Qed.

Lemma only_calls_raise (A : Type) (e : exn) : only_calls (raise e : M A).
Proof. intros st. exists (Exc e), []. rewrite add_calls_nil. reflexivity. Qed.

Lemma only_calls_bind (A B : Type) (c : M A) (k : A -> M B) :
  only_calls c -> (forall a, only_calls (k a)) -> only_calls (bind c k).
Proof.
  intros Hc Hk st. unfold bind. destruct (Hc st) as [r [l E]]. rewrite E.
  destruct r as [a | e].
  - destruct (Hk a (add_calls st l)) as [r' [l' E']]. rewrite E'.
    exists r', (l ++ l'). rewrite add_calls_app. reflexivity.
  - exists (Exc e), l. reflexivity.
Qed.

Lemma only_calls_lookup (A : Type) (o : option A) : only_calls (lookup o).
Proof. destruct o; [apply only_calls_ret | apply only_calls_raise]. Qed.

Lemma only_calls_json (A : Type) (o : option A) : only_calls (json o).
Proof. destruct o; [apply only_calls_ret | apply only_calls_raise]. Qed.

Lemma only_calls_requests_post w c : only_calls (requests_post w c).
Proof.
  intros st. rewrite requests_post_eq. eexists; exists [c]. reflexivity.
Qed.

Lemma never_raises_ret (A : Type) (a : A) : never_raises (ret a).
Proof. intros st. exists a, []. rewrite add_calls_nil. reflexivity. Qed.

Lemma never_raises_bind (A B : Type) (c : M A) (k : A -> M B) :
  never_raises c -> (forall a, never_raises (k a)) -> never_raises (bind c k).
Proof.
  intros Hc Hk st. unfold bind. destruct (Hc st) as [a [l E]]. rewrite E.
  destruct (Hk a (add_calls st l)) as [b [l' E']]. rewrite E'.
  exists b, (l ++ l'). rewrite add_calls_app. reflexivity.
Qed.

Lemma never_raises_attempt (A : Type) (c : M A) :
  only_calls c -> never_raises (attempt c).
Proof.
  intros Hc st. unfold attempt. destruct (Hc st) as [r [l E]]. rewrite E.
  exists r, l. reflexivity.
Qed.

Create HintDb calls.
#[local] Hint Resolve only_calls_ret only_calls_raise only_calls_lookup
  only_calls_json only_calls_requests_post never_raises_ret
  never_raises_attempt never_raises_only_calls : calls.
#[local] Hint Extern 2 (only_calls (bind _ _)) =>
  apply only_calls_bind; [|intros ?] : calls.
#[local] Hint Extern 2 (never_raises (bind _ _)) =>
  apply never_raises_bind; [|intros ?] : calls.
#[local] Hint Extern 3 (never_raises (match ?r with _ => _ end)) => destruct r : calls.
#[local] Hint Extern 3 (only_calls (match ?r with _ => _ end)) => destruct r : calls.
#[local] Hint Extern 3 (never_raises (if ?b then _ else _)) => destruct b : calls.
#[local] Hint Extern 3 (only_calls (if ?b then _ else _)) => destruct b : calls.

Section Totality.

Variable w : World.
Variable T : Templates.

Lemma send_parts_never_raises chat_id total : forall parts i,
  never_raises (send_parts w chat_id total i parts).
Proof.
  induction parts as [|p parts IH]; intros i; simpl.
  - auto with calls.
  - apply never_raises_bind; [auto 8 with calls|].
    intros [[|]|e]; auto with calls.
Qed.

Lemma send_telegram_message_never_raises chat_id text :
  never_raises (send_telegram_message w chat_id text).
Proof.
  unfold send_telegram_message.
  destruct (max_message_length <? length text).
  - apply send_parts_never_raises.
  - apply never_raises_bind; [auto 8 with calls|].
    intros [[|]|e]; auto with calls.
Qed.

Lemma thinking_loop_never_raises chat_id : forall msgs message_id,
  never_raises (thinking_loop w chat_id msgs message_id).
Proof.
  induction msgs as [|msg rest IH]; intros message_id; simpl.
  - auto with calls.
  - apply never_raises_bind.
    + apply never_raises_attempt. destruct message_id; auto 10 with calls.
    + intros [m|e]; auto with calls.
Qed.

(** The outcome of [get_yandex_response] from the two answers of the
    world. *)
Lemma get_yandex_response_eq question st :
  get_yandex_response w T question st
  = match pdf_reply w (history st) with
    | None => (Val SYSTEM_PROMPTS_error, add_calls st [get_curriculum_text])
    | Some t =>
        let system_text := SYSTEM_PROMPTS_main T t in
        let st' := add_calls st [get_curriculum_text;
                                 completions_run system_text question] in
        match sdk_reply w (history st ++ [get_curriculum_text]) system_text question with
        | None => (Val SYSTEM_PROMPTS_error, st')
        | Some [] => (Val SYSTEM_PROMPTS_no_response, st')
        | Some (response_text :: _) => (Val (fix_telegram_formatting response_text), st')
        end
    end.
Proof.
  unfold get_yandex_response, get_system_prompt, pdf_get_curriculum_text,
    completions, get_history, record, attempt, bind, ret, raise.
  simpl. destruct (pdf_reply w (history st)) as [t|]; [|reflexivity].
  simpl. destruct (sdk_reply w (history st ++ [get_curriculum_text])
                     (SYSTEM_PROMPTS_main T t) question) as [[|a l]|];
    unfold add_call, add_calls; simpl; rewrite <- app_assoc; reflexivity.
Qed.

Lemma get_yandex_response_never_raises question :
  never_raises (get_yandex_response w T question).
Proof.
  intros st. rewrite get_yandex_response_eq.
  destruct (pdf_reply w (history st)) as [t|]; [|eexists; eexists; reflexivity].
  cbv zeta.
  destruct (sdk_reply w (history st ++ [get_curriculum_text])
              (SYSTEM_PROMPTS_main T t) question) as [[|a l]|];
    eexists; eexists; reflexivity.
Qed.

Lemma delete_thinking_never_raises chat_id thinking_message_id :
  never_raises (delete_thinking w chat_id thinking_message_id).
Proof.
  unfold delete_thinking. destruct (id_truthy thinking_message_id); [|auto with calls].
  destruct thinking_message_id as [i|]; auto 8 with calls.
Qed.

Lemma handle_question_except_never_raises chat_id thinking_message_id :
  never_raises (handle_question_except w chat_id thinking_message_id).
Proof.
  unfold handle_question_except.
  apply never_raises_bind; [apply delete_thinking_never_raises|intros _].
  apply never_raises_bind; [apply send_telegram_message_never_raises|intros _].
  auto with calls.
Qed.

(** [handle_question] returns normally whatever the world does. *)
Lemma handle_question_never_raises chat_id question :
  never_raises (handle_question w T chat_id question).
Proof.
  unfold handle_question. apply never_raises_bind.
  - apply never_raises_attempt. apply only_calls_bind; [auto with calls|intros _].
    apply never_raises_only_calls, thinking_loop_never_raises.
  - intros [tm|e]; [|apply handle_question_except_never_raises].
    apply never_raises_bind.
    + apply never_raises_attempt.
      apply only_calls_bind;
        [apply never_raises_only_calls, get_yandex_response_never_raises|intros resp].
      apply only_calls_bind;
        [apply never_raises_only_calls, delete_thinking_never_raises|intros _].
      apply only_calls_bind;
        [apply never_raises_only_calls, send_telegram_message_never_raises|intros _].
      auto with calls.
    + intros [u|e]; [auto with calls|apply handle_question_except_never_raises].
Qed.

(** [process_message] returns normally whatever the message and the world. *)
Lemma process_message_never_raises m : never_raises (process_message w T m).
Proof.
  unfold process_message. apply never_raises_bind.
  - apply never_raises_attempt.
    apply only_calls_bind; [auto with calls|intros c].
    apply only_calls_bind; [auto with calls|intros u].
    destruct (negb (str_truthy (strip (get_text m)))); [auto with calls|].
    destruct (startswith _ _).
    { apply only_calls_bind;
        [apply never_raises_only_calls, send_telegram_message_never_raises|intros _].
      auto with calls. }
    destruct (startswith _ _); [|auto with calls].
    apply only_calls_bind;
      [apply never_raises_only_calls, send_telegram_message_never_raises|intros _].
    auto with calls.
  - intros [q|e]; auto with calls.
Qed.

(** The body of the loop over the batch raises exactly when the update has a
    message without a chat id: the lookup of [run] is the one place not
    inside a [try]. *)
Lemma run_update_only_calls u : only_calls (run_update w T u).
Proof.
  unfold run_update. destruct (message u) as [m|]; [|auto with calls].
  apply only_calls_bind; [auto with calls|intros c].
  apply only_calls_bind;
    [apply never_raises_only_calls, process_message_never_raises|intros q].
  destruct (is_question q); [|auto with calls].
  destruct q; [|auto with calls].
  apply never_raises_only_calls, handle_question_never_raises.
Qed.

Lemma run_update_never_raises u :
  (forall m, message u = Some m -> msg_chat_id m <> None) ->
  never_raises (run_update w T u).
Proof.
  intros H. unfold run_update. destruct (message u) as [m|]; [|auto with calls].
  specialize (H m eq_refl). destruct (msg_chat_id m) as [c|]; [|congruence].
  apply never_raises_bind; [apply never_raises_ret|intros c'].
  apply never_raises_bind; [apply process_message_never_raises|intros q].
  destruct (is_question q); [|auto with calls].
  destruct q; [|auto with calls].
  apply handle_question_never_raises.
Qed.

Lemma run_update_raises u m st :
  message u = Some m -> msg_chat_id m = None ->
  run_update w T u st = (Exc KeyError, st).
Proof.
  intros Hm Hc. unfold run_update. rewrite Hm. unfold bind, lookup. rewrite Hc.
  reflexivity.
Qed.

Lemma for_each_only_calls (A : Type) (body : A -> M unit) :
  (forall x, only_calls (body x)) -> forall l, only_calls (for_each l body).
Proof.
  intros H. induction l as [|x l IH]; simpl; auto with calls.
Qed.

(** When every message of the batch carries its chat id, the loop handles
    every update of the batch, one after the other, and returns normally. *)
Lemma for_each_run_update_never_raises updates :
  (forall u m, In u updates -> message u = Some m -> msg_chat_id m <> None) ->
  never_raises (for_each updates (run_update w T)).
Proof.
  induction updates as [|u updates IH]; intros H; simpl.
  - auto with calls.
  - apply never_raises_bind.
    + apply run_update_never_raises. intros m Hm. apply (H u m); simpl; auto.
    + intros _. apply IH. intros u' m' Hin. apply H. simpl; auto.
Qed.

End Totality.

(* ================================================================== *)
(** * The update cursor *)

Lemma get_telegram_updates_eq w st :
  get_telegram_updates w st
  = let st1 := add_call st (getUpdates (update_offset st)) in
    match poll_reply w (history st) (update_offset st) with
    | PollResponseOf (Some (true, (_ :: _) as updates)) =>
        match last_update_id updates with
        | Some i => (Val updates, {| update_offset := i + 1; history := history st1 |})
        | None => (Val [], st1)
        end
    | _ => (Val [], st1)
    end.
Proof.
  unfold get_telegram_updates, requests_get_updates. unfold_m. simpl.
  destruct (poll_reply w (history st) (update_offset st)) as [|[[[|] [|u l]]|]];
    simpl; try reflexivity.
  destruct (last_update_id (u :: l)); reflexivity.
Qed.

Lemma fold_left_max_greatest (i : Z) : forall l a,
  (forall x, In x (a :: l) -> (x <= i)%Z) -> In i (a :: l) ->
  fold_left Z.max l a = i.
Proof.
  induction l as [|b l IH]; intros a Hle Hin; simpl in *.
  - destruct Hin as [H|[]]. exact H.
  - apply IH.
    + intros x [Hx|Hx]; [|apply Hle; auto].
      subst x. apply Z.max_lub; apply Hle; auto.
    + destruct Hin as [H|[H|H]]; auto.
      * left. subst a. apply Z.max_l. apply Hle; auto.
      * left. subst b. apply Z.max_r. apply Hle; auto.
Qed.

Lemma ascending_last_greatest (i : Z) : forall l,
  ascending (l ++ [i]) = true -> forall x, In x (l ++ [i]) -> (x <= i)%Z.
Proof.
  induction l as [|a l IH]; intros Hasc x Hin.
  - destruct Hin as [H|[]]. subst. lia.
  - assert (Htail : ascending (l ++ [i]) = true).
    { simpl in Hasc. destruct (l ++ [i]); [reflexivity|].
      apply andb_prop in Hasc. apply Hasc. }
    destruct Hin as [H|H]; [|apply IH; assumption].
    subst x. simpl in Hasc.
    destruct l as [|b l]; simpl in *.
    + apply andb_prop in Hasc. destruct Hasc as [H _]. apply Z.leb_le in H. exact H.
    + apply andb_prop in Hasc. destruct Hasc as [H _]. apply Z.leb_le in H.
      specialize (IH Htail b (or_introl eq_refl)). lia.
Qed.

Lemma update_ids_app l1 l2 : update_ids (l1 ++ l2) = update_ids l1 ++ update_ids l2.
Proof. unfold update_ids. apply flat_map_app. Qed.

(** In a batch whose ids ascend, the id of the last update is the greatest. *)
Lemma last_update_id_greatest updates i :
  last_update_id updates = Some i ->
  ascending (update_ids updates) = true ->
  max_update_id updates = Some i.
Proof.
  unfold last_update_id. intros Hlast Hasc.
  destruct (rev updates) as [|u r] eqn:Hrev; [discriminate|].
  assert (Hu : updates = rev r ++ [u]).
  { rewrite <- (rev_involutive updates), Hrev. reflexivity. }
  subst updates. rewrite update_ids_app in *. unfold update_ids at 2 in Hasc.
  unfold max_update_id. rewrite update_ids_app. unfold update_ids at 2.
  simpl in *. rewrite Hlast in *. simpl in *.
  pose proof (ascending_last_greatest _ _ Hasc) as Hle.
  destruct (update_ids (rev r) ++ [i]) as [|a l] eqn:E.
  - destruct (update_ids (rev r)); discriminate.
  - f_equal. apply fold_left_max_greatest; [exact Hle|].
    rewrite <- E. apply in_or_app. right. left. reflexivity.
Qed.

Lemma only_calls_offset (A : Type) (c : M A) st :
  only_calls c -> update_offset (snd (c st)) = update_offset st.
Proof. intros H. destruct (H st) as [r [l E]]. rewrite E. reflexivity. Qed.

(** The handling of the batch, raising or not, leaves the cursor where the
    poll has put it. *)
Lemma run_once_offset w T st :
  update_offset (snd (run_once w T st))
  = update_offset (snd (get_telegram_updates w st)).
Proof.
  unfold run_once, run_body, attempt, bind.
  destruct (get_telegram_updates w st) as [[updates|e] st1]; simpl; [|reflexivity].
  pose proof (@only_calls_offset _ (for_each updates (run_update w T)) st1
                (@for_each_only_calls _ _ (run_update_only_calls w T) updates)) as H.
  destruct (for_each updates (run_update w T) st1) as [[u|e] st2]; simpl in *; exact H.
Qed.

(** C1.  The poll returns normally with a batch.  After the turn of the
    loop, whether or not the handling of the batch raises, the cursor is
    unchanged when the batch is empty, and is the greatest [update_id] of the
    batch plus 1 when it is not: the poll puts the cursor after the last
    update of the batch, whose id is the greatest because the transport
    hands out the updates with ascending ids, and the handling of the batch
    does not move the cursor. *)
Theorem update_offset_after_batch w T st :
  exists updates st1,
    get_telegram_updates w st = (Val updates, st1)
    /\ (updates = [] -> update_offset (snd (run_once w T st)) = update_offset st)
    /\ (updates <> [] -> ascending (update_ids updates) = true ->
        exists i, max_update_id updates = Some i
          /\ update_offset (snd (run_once w T st)) = (i + 1)%Z).
Proof.
  pose proof (run_once_offset w T st) as Hrun.
  rewrite get_telegram_updates_eq in *. cbv zeta in *.
  destruct (poll_reply w (history st) (update_offset st)) as [|[[[|] [|u l]]|]];
    try (eexists; eexists; split; [reflexivity|];
         split; [intros _; exact Hrun|congruence]).
  destruct (last_update_id (u :: l)) as [i|] eqn:Hlast.
  - eexists; eexists; split; [reflexivity|]. split; [discriminate|].
    intros _ Hasc. exists i. split; [|exact Hrun].
    apply last_update_id_greatest; assumption.
  - eexists; eexists; split; [reflexivity|].
    split; [intros _; exact Hrun|congruence].
Qed.

Lemma update_offset_after_batch_witness :
  max_update_id batch_ascending = Some 7%Z
  /\ update_offset (snd (run_once (world_batch batch_ascending) templates0 st0)) = 8%Z.
Proof.
  destruct (update_offset_after_batch (world_batch batch_ascending) templates0 st0)
    as [updates [st1 [Hpoll [_ Hmax]]]].
  vm_compute in Hpoll. injection Hpoll as Hu Hs. subst updates.
  destruct (Hmax ltac:(discriminate) ltac:(reflexivity)) as [i [Hgreatest Hoff]].
  assert (Hi : i = 7%Z).
  { vm_compute in Hgreatest. injection Hgreatest as Hi. symmetry. exact Hi. }
  subst i. split; [reflexivity|exact Hoff].
Defined.

(* ================================================================== *)
(** * Isolation of one update's failure *)

Lemma for_each_run_update w T : forall updates st,
  (forall u m, In u updates -> message u = Some m -> msg_chat_id m <> None) ->
  for_each updates (run_update w T) st
  = (Val tt, fold_left (fun s u => snd (run_update w T u s)) updates st).
Proof.
  induction updates as [|u updates IH]; intros st H; [reflexivity|].
  cbn [for_each fold_left]. unfold bind.
  destruct (run_update_never_raises w T u
              (fun m Hm => H u m (or_introl eq_refl) Hm) st) as [[] [l E]].
  rewrite E. cbn [snd]. apply IH. intros u' m' Hin. apply H. right. exact Hin.
Qed.

(** C3.  In a batch whose messages carry their chat id, as every message
    of the transport does, no update makes the loop over the batch raise,
    whatever the world answers and whatever raises inside: the handling of
    an update only makes calls and returns normally, its exceptions being
    caught inside [process_message] and [handle_question]; the turn of the
    loop handles every update of the batch, each from the state the one
    before has left, and returns normally. *)
Theorem update_failure_does_not_abort_batch w T st updates st1 :
  get_telegram_updates w st = (Val updates, st1) ->
  (forall u m, In u updates -> message u = Some m -> msg_chat_id m <> None) ->
  (forall u s, In u updates -> exists l, run_update w T u s = (Val tt, add_calls s l))
  /\ run_once w T st
     = (Val tt, fold_left (fun s u => snd (run_update w T u s)) updates st1).
Proof.
  intros Hpoll Hchat. split.
  - intros u s Hin.
    destruct (run_update_never_raises w T u (fun m Hm => Hchat u m Hin Hm) s)
      as [[] [l E]].
    exists l. exact E.
  - unfold run_once, run_body, attempt. unfold bind at 1. unfold bind at 1.
    rewrite Hpoll. rewrite (for_each_run_update w T updates st1 Hchat). reflexivity.
Qed.

(** Every post and the completion raise while the question of the first
    update is handled; the command of the second update is handled all the
    same. *)
Lemma update_failure_does_not_abort_batch_witness :
  run_once (world_posts_raise batch_question_then_start) templates0 st0
  = (Val tt,
     {| update_offset := 8;
        history := [getUpdates 0; sendChatAction 1;
                    sendMessage 1 SYSTEM_PROMPTS_error;
                    sendMessage 2 (lit "welcome")] |}).
Proof.
  rewrite (proj2 (@update_failure_does_not_abort_batch
                    (world_posts_raise batch_question_then_start) templates0 st0
                    batch_question_then_start
                    {| update_offset := 8; history := [getUpdates 0] |}
                    ltac:(vm_compute; reflexivity)
                    ltac:(intros u m [<-|[<-|[]]] Hm; injection Hm as <-;
                          discriminate))).
  vm_compute. reflexivity.
Defined.

(* ================================================================== *)
(** * The thinking indicator: [show_thinking_animation] *)

Section Thinking.

Variable w : World.
Variable chat_id : Z.

(** Once the message exists every status string is an edit of it; the
    answers to the edits are not looked at. *)
Lemma thinking_loop_edits i : forall msgs st,
  none_raises w (history st) (map (editMessageText chat_id i) msgs) = true ->
  thinking_loop w chat_id msgs (Some i) st
  = (Val (Some i), add_calls st (map (editMessageText chat_id i) msgs)).
Proof.
  induction msgs as [|msg rest IH]; intros st Hnone; simpl in *.
  - rewrite add_calls_nil. reflexivity.
  - apply andb_prop in Hnone. destruct Hnone as [Hfirst Hnone].
    unfold post_raises in Hfirst.
    unfold bind at 1. unfold attempt. unfold bind at 1. rewrite requests_post_eq.
    destruct (post_reply w (history st) (editMessageText chat_id i msg));
      [discriminate|].
    unfold ret. rewrite IH by exact Hnone. rewrite add_calls_cons. reflexivity.
Qed.

(** The first edit that raises ends the sequence. *)
Lemma thinking_loop_edits_stop i : forall msgs st k,
  k < length msgs ->
  let edits := map (editMessageText chat_id i) msgs in
  none_raises w (history st) (firstn k edits) = true ->
  post_raises w (history st ++ firstn k edits) (nth k edits (sendChatAction 0)) = true ->
  thinking_loop w chat_id msgs (Some i) st
  = (Val (Some i), add_calls st (firstn (S k) edits)).
Proof.
  induction msgs as [|msg rest IH]; intros st k Hk; simpl in *; [lia|].
  intros Hnone Hraise.
  unfold bind at 1. unfold attempt. unfold bind at 1. rewrite requests_post_eq.
  destruct k as [|k]; simpl in *.
  - rewrite app_nil_r in Hraise. unfold post_raises in Hraise.
    destruct (post_reply w (history st) (editMessageText chat_id i msg));
      [reflexivity|discriminate].
  - apply andb_prop in Hnone. destruct Hnone as [Hfirst Hnone].
    unfold post_raises in Hfirst.
    destruct (post_reply w (history st) (editMessageText chat_id i msg));
      [discriminate|].
    unfold ret. rewrite (IH (add_call st (editMessageText chat_id i msg)) k); try lia.
    + rewrite add_calls_cons. reflexivity.
    + exact Hnone.
    + simpl. rewrite <- app_assoc. exact Hraise.
Qed.

(** The step that sends a status string as a new message. *)
Lemma thinking_loop_send msg rest st :
  thinking_loop w chat_id (msg :: rest) None st
  = let st1 := add_call st (sendMessage chat_id msg) in
    match post_reply w (history st) (sendMessage chat_id msg) with
    | Response (Some j) =>
        if ok j then
          match result_message_id j with
          | Some i => thinking_loop w chat_id rest (Some i) st1
          | None => (Val None, st1)
          end
        else thinking_loop w chat_id rest None st1
    | _ => (Val None, st1)
    end.
Proof.
  simpl. unfold bind at 1. unfold attempt. unfold bind at 1.
  rewrite requests_post_eq.
  destruct (post_reply w (history st) (sendMessage chat_id msg)) as [|[j|]];
    try reflexivity.
  unfold_m. simpl. destruct (ok j); [|reflexivity].
  destruct (result_message_id j); reflexivity.
Qed.

Lemma thinking_messages_eq :
  thinking_messages = thinking_first :: thinking_second :: thinking_later.
Proof. vm_compute. reflexivity. Qed.

(** C8, as the code has it.  The sequence never raises, so the question is
    handled whatever happens to the indicator.  A step that raises, at any
    point of the sequence, ends it: no later status string is sent or
    edited.  When the first status string
    is sent and answered ok with a message id, every later status string is
    an edit of that one message; an edit that raises ends the sequence there,
    and the answers to the edits are otherwise not inspected.  When the first
    send raises (connection error, a body that does not parse, an ok body
    without message id), nothing more is sent.  When the first send is
    answered with a body that is not ok, the sequence is not aborted: the
    second status string is sent as a new message. *)
Theorem thinking_animation_behaviour st :
  let first := sendMessage chat_id thinking_first in
  let st1 := add_call st first in
  never_raises (show_thinking_animation w chat_id)
  /\ (forall msg rest message_id st',
        step_raises w (history st') message_id (step_call chat_id msg message_id) = true ->
        thinking_loop w chat_id (msg :: rest) message_id st'
        = (Val message_id, add_call st' (step_call chat_id msg message_id)))
  /\ (forall j i,
        post_reply w (history st) first = Response (Some j) ->
        ok j = true -> result_message_id j = Some i ->
        let edits :=
          map (editMessageText chat_id i) (thinking_second :: thinking_later) in
        (none_raises w (history st1) edits = true ->
         show_thinking_animation w chat_id st
         = (Val (Some i), add_calls st (first :: edits)))
        /\ (forall k, k < length edits ->
              none_raises w (history st1) (firstn k edits) = true ->
              post_raises w (history st1 ++ firstn k edits)
                (nth k edits (sendChatAction 0)) = true ->
              show_thinking_animation w chat_id st
              = (Val (Some i), add_calls st (first :: firstn (S k) edits))))
  /\ (post_reply w (history st) first = ConnectionError
      \/ post_reply w (history st) first = Response None
      \/ (exists j, post_reply w (history st) first = Response (Some j)
                    /\ ok j = true /\ result_message_id j = None) ->
      show_thinking_animation w chat_id st = (Val None, st1))
  /\ (forall j,
        post_reply w (history st) first = Response (Some j) -> ok j = false ->
        exists message_id l,
          show_thinking_animation w chat_id st
          = (Val message_id,
             add_calls st (first :: sendMessage chat_id thinking_second :: l))).
Proof.
  intros first st1. split; [|split; [|split; [|split]]].
  - apply thinking_loop_never_raises.
  - intros msg rest message_id st' Hraise. unfold step_raises, step_call in *.
    destruct message_id as [i|].
    + cbn [thinking_loop]. unfold bind at 1. unfold attempt. unfold bind at 1.
      rewrite requests_post_eq.
      destruct (post_reply w (history st') (editMessageText chat_id i msg))
        as [|[j|]]; [reflexivity|discriminate|discriminate].
    + rewrite thinking_loop_send. cbv zeta.
      destruct (post_reply w (history st') (sendMessage chat_id msg)) as [|[j|]];
        try reflexivity.
      destruct (ok j); [|discriminate].
      destruct (result_message_id j); [discriminate|reflexivity].
  - intros j i Hreply Hok Hid edits. unfold show_thinking_animation.
    rewrite thinking_messages_eq, thinking_loop_send. cbv zeta. fold first.
    rewrite Hreply, Hok, Hid. fold st1. split.
    + intros Hnone. rewrite thinking_loop_edits by exact Hnone.
      unfold st1. rewrite add_calls_cons. reflexivity.
    + intros k Hk Hnone Hraise.
      rewrite (thinking_loop_edits_stop i (thinking_second :: thinking_later) st1
                 (k := k)).
      * unfold st1. rewrite add_calls_cons. reflexivity.
      * unfold edits in Hk. rewrite length_map in Hk. exact Hk.
      * exact Hnone.
      * exact Hraise.
  - intros Hreply. unfold show_thinking_animation.
    rewrite thinking_messages_eq, thinking_loop_send. cbv zeta. fold first.
    destruct Hreply as [H | [H | [j [H [Hok Hid]]]]]; rewrite H; try reflexivity.
    rewrite Hok, Hid. reflexivity.
  - intros j Hreply Hok. unfold show_thinking_animation.
    rewrite thinking_messages_eq, thinking_loop_send. cbv zeta. fold first.
    rewrite Hreply, Hok.
    rewrite thinking_loop_send. cbv zeta.
    set (second := sendMessage chat_id thinking_second).
    assert (Hrest : forall message_id,
              exists r l,
                thinking_loop w chat_id thinking_later message_id
                  (add_call (add_call st first) second)
                = (Val r, add_calls st (first :: second :: l))).
    { intros message_id.
      destruct (thinking_loop_never_raises w chat_id thinking_later
                  message_id (add_call (add_call st first) second)) as [r [l E]].
      exists r, l. rewrite E.
      rewrite add_calls_cons, add_calls_cons. reflexivity. }
    destruct (post_reply w (history (add_call st first)) second) as [|[j2|]].
    + exists None, []. rewrite add_call_twice. reflexivity.
    + destruct (ok j2).
      * destruct (result_message_id j2) as [i|].
        -- apply Hrest.
        -- exists None, []. rewrite add_call_twice. reflexivity.
      * apply Hrest.
    + exists None, []. rewrite add_call_twice. reflexivity.
Qed.

End Thinking.

Lemma thinking_animation_behaviour_witness :
  show_thinking_animation (world_ok []) 5 st0
  = (Val (Some 77%Z),
     add_calls st0 (sendMessage 5 thinking_first
                      :: map (editMessageText 5 77) (thinking_second :: thinking_later))).
Proof.
  apply (proj1 (proj1 (proj2 (proj2 (thinking_animation_behaviour (world_ok []) 5 st0)))
                  (ok_json 77) 77%Z eq_refl eq_refl eq_refl)).
  vm_compute. reflexivity.
Defined.

(** C8 as it is worded does not hold.  When every post is answered with a
    body that is not ok, the four status strings are sent as four new
    messages: the failure of the first does not end the sequence and nothing
    is applied by editing.  When only the edits are refused, all three edits
    are still issued. *)
Lemma thinking_animation_counterexample :
  show_thinking_animation world_not_ok 5 st0
  = (Val None, add_calls st0 (map (sendMessage 5) thinking_messages))
  /\ accepted world_not_ok [] (sendMessage 5 thinking_first) = false
  /\ show_thinking_animation world_edit_refused 5 st0
     = (Val (Some 77%Z),
        add_calls st0 (sendMessage 5 thinking_first
                         :: map (editMessageText 5 77)
                              (thinking_second :: thinking_later)))
  /\ accepted world_edit_refused [sendMessage 5 thinking_first]
       (editMessageText 5 77 thinking_second) = false.
Proof. split; [|split; [|split]]; vm_compute; reflexivity. Qed.

(* ================================================================== *)
(** * One question: [handle_question] *)

Section Question.

Variable w : World.
Variable T : Templates.
Variable chat_id : Z.

Lemma delete_thinking_eq i st :
  i <> 0%Z ->
  delete_thinking w chat_id (Some i) st
  = (Val tt, add_call st (deleteMessage chat_id i)).
Proof.
  intros Hi. unfold delete_thinking, id_truthy.
  destruct (Z.eqb_spec i 0) as [H|_]; [contradiction|]. simpl.
  unfold bind, attempt, ret. rewrite requests_post_eq. reflexivity.
Qed.

(** The handler of [handle_question]: the guarded deletion, then the
    apology, in one call. *)
Lemma handle_question_except_eq thinking_message_id st :
  handle_question_except w chat_id thinking_message_id st
  = (Val tt,
     add_call (snd (delete_thinking w chat_id thinking_message_id st))
       (sendMessage chat_id error_message)).
Proof.
  unfold handle_question_except. unfold bind at 1.
  destruct (delete_thinking_never_raises w chat_id thinking_message_id st)
    as [[] [l E]].
  rewrite E. simpl. unfold bind at 1.
  rewrite send_short by (vm_compute; lia). reflexivity.
Qed.

(** When the typing signal raises, nothing else is tried but the apology. *)
Lemma handle_question_typing_raises question st :
  post_raises w (history st) (sendChatAction chat_id) = true ->
  handle_question w T chat_id question st
  = (Val tt, add_calls st [sendChatAction chat_id;
                           sendMessage chat_id error_message]).
Proof.
  intros Hraise. unfold handle_question. unfold bind at 1. unfold attempt.
  unfold bind at 1. rewrite requests_post_eq. unfold post_raises in Hraise.
  destruct (post_reply w (history st) (sendChatAction chat_id)); [|discriminate].
  rewrite handle_question_except_eq. simpl. rewrite add_call_twice. reflexivity.
Qed.

(** The path on which the typing signal does not raise: the animation, the
    completion, the guarded deletion, the send of the response. *)
Lemma handle_question_eq question st thinking_message_id st1 response st2 :
  post_raises w (history st) (sendChatAction chat_id) = false ->
  show_thinking_animation w chat_id (add_call st (sendChatAction chat_id))
  = (Val thinking_message_id, st1) ->
  get_yandex_response w T question st1 = (Val response, st2) ->
  handle_question w T chat_id question st
  = (Val tt,
     snd (send_telegram_message w chat_id response
            (snd (delete_thinking w chat_id thinking_message_id st2)))).
Proof.
  intros Htyping Hanim Hresp. unfold handle_question.
  unfold bind at 1. unfold attempt at 1. unfold bind at 1.
  rewrite requests_post_eq. unfold post_raises in Htyping.
  destruct (post_reply w (history st) (sendChatAction chat_id)); [discriminate|].
  rewrite Hanim. unfold bind at 1. unfold attempt at 1. unfold bind at 1.
  rewrite Hresp. unfold bind at 1.
  destruct (delete_thinking_never_raises w chat_id thinking_message_id st2)
    as [[] [l E]].
  rewrite E. simpl snd. unfold bind at 1.
  destruct (send_telegram_message_never_raises w chat_id response (add_calls st2 l))
    as [b [l' E']].
  rewrite E'. reflexivity.
Qed.

(** C5.  When the completion call raises, [get_yandex_response] returns
    [SYSTEM_PROMPTS['error']]; when it returns an empty result, it returns
    [SYSTEM_PROMPTS['no_response']]; neither raises.  In [handle_question]
    the fallback is then what is sent to the chat, in one call, the last of
    the handling, which returns normally. *)
Theorem completion_failure_gives_fallback question st1 t fallback :
  pdf_reply w (history st1) = Some t ->
  let system_text := SYSTEM_PROMPTS_main T t in
  let st2 := add_calls st1 [get_curriculum_text;
                            completions_run system_text question] in
  (sdk_reply w (history st1 ++ [get_curriculum_text]) system_text question = None
   /\ fallback = SYSTEM_PROMPTS_error)
  \/ (sdk_reply w (history st1 ++ [get_curriculum_text]) system_text question = Some []
      /\ fallback = SYSTEM_PROMPTS_no_response) ->
  get_yandex_response w T question st1 = (Val fallback, st2)
  /\ (forall st thinking_message_id,
        post_raises w (history st) (sendChatAction chat_id) = false ->
        show_thinking_animation w chat_id (add_call st (sendChatAction chat_id))
        = (Val thinking_message_id, st1) ->
        handle_question w T chat_id question st
        = (Val tt,
           add_call (snd (delete_thinking w chat_id thinking_message_id st2))
             (sendMessage chat_id fallback))).
Proof.
  intros Hpdf system_text st2 Hsdk.
  assert (Hresp : get_yandex_response w T question st1 = (Val fallback, st2)).
  { rewrite get_yandex_response_eq, Hpdf. cbv zeta. fold system_text.
    destruct Hsdk as [[H ->] | [H ->]]; rewrite H; reflexivity. }
  split; [exact Hresp|].
  intros st thinking_message_id Htyping Hanim.
  rewrite (handle_question_eq question st Htyping Hanim Hresp).
  rewrite send_short; [reflexivity|].
  destruct Hsdk as [[_ ->] | [_ ->]]; vm_compute; lia.
Qed.

(** C9.  When the animation has left a thinking message (an id that the
    code's test [if thinking_message_id] takes as present: Telegram's message
    ids are not zero), its deletion is attempted after the completion and
    before the final text, whose calls are all that follows; whatever the
    world answers to the deletion, the final send is made.  The handler of
    the error path does the same before the apology; on the one error path
    that is taken, a typing signal that raises, no thinking message exists
    yet and the apology is all that is sent.  The handling returns normally
    in every case. *)
Theorem thinking_message_deleted_before_final_send question st :
  (forall i st1,
     post_raises w (history st) (sendChatAction chat_id) = false ->
     show_thinking_animation w chat_id (add_call st (sendChatAction chat_id))
     = (Val (Some i), st1) ->
     i <> 0%Z ->
     exists response l n,
       get_yandex_response w T question st1 = (Val response, add_calls st1 l)
       /\ 0 < n
       /\ handle_question w T chat_id question st
          = (Val tt,
             add_calls st1
               (l ++ deleteMessage chat_id i
                  :: map (sendMessage chat_id) (firstn n (deliveries response)))))
  /\ (forall i st', i <> 0%Z ->
        handle_question_except w chat_id (Some i) st'
        = (Val tt, add_calls st' [deleteMessage chat_id i;
                                  sendMessage chat_id error_message]))
  /\ (post_raises w (history st) (sendChatAction chat_id) = true ->
      handle_question w T chat_id question st
      = (Val tt, add_calls st [sendChatAction chat_id;
                               sendMessage chat_id error_message]))
  /\ never_raises (handle_question w T chat_id question).
Proof.
  split; [|split; [|split]].
  - intros i st1 Htyping Hanim Hi.
    destruct (get_yandex_response_never_raises w T question st1) as [response [l Hresp]].
    destruct (send_telegram_message_prefix w chat_id response
                (add_call (add_calls st1 l) (deleteMessage chat_id i)))
      as [b [n [Hn Hsend]]].
    exists response, l, n. split; [exact Hresp|]. split; [exact Hn|].
    rewrite (handle_question_eq question st Htyping Hanim Hresp).
    rewrite delete_thinking_eq by exact Hi. simpl snd. rewrite Hsend. simpl snd.
    rewrite add_calls_cons, add_calls_app. reflexivity.
  - intros i st' Hi. rewrite handle_question_except_eq.
    rewrite delete_thinking_eq by exact Hi. simpl snd.
    rewrite add_call_twice. reflexivity.
  - apply handle_question_typing_raises.
  - apply handle_question_never_raises.
Qed.

End Question.

Lemma completion_failure_gives_fallback_witness :
  handle_question world_sdk_raises templates0 5 (lit "Сколько кредитов?") st0
  = (Val tt,
     add_calls st0
       (sendChatAction 5 :: sendMessage 5 thinking_first
          :: map (editMessageText 5 77) (thinking_second :: thinking_later)
          ++ [get_curriculum_text;
              completions_run (lit "system: plan") (lit "Сколько кредитов?");
              deleteMessage 5 77;
              sendMessage 5 SYSTEM_PROMPTS_error])).
Proof.
  pose proof (completion_failure_gives_fallback world_sdk_raises templates0 5
                (lit "Сколько кредитов?")
                (snd (show_thinking_animation world_sdk_raises 5
                        (add_call st0 (sendChatAction 5))))
                (t := lit "plan") (fallback := SYSTEM_PROMPTS_error)
                eq_refl (or_introl (conj eq_refl eq_refl))) as [_ H].
  rewrite (H st0 (Some 77%Z) eq_refl ltac:(vm_compute; reflexivity)).
  vm_compute. reflexivity.
Defined.

Lemma thinking_message_deleted_before_final_send_witness :
  exists response l n,
    0 < n
    /\ handle_question world_delete_raises templates0 5 (lit "Сколько кредитов?") st0
       = (Val tt,
          add_calls
            (snd (show_thinking_animation world_delete_raises 5
                    (add_call st0 (sendChatAction 5))))
            (l ++ deleteMessage 5 77
               :: map (sendMessage 5) (firstn n (deliveries response)))).
Proof.
  destruct (proj1 (thinking_message_deleted_before_final_send world_delete_raises
                     templates0 5 (lit "Сколько кредитов?") st0)
              77%Z
              (snd (show_thinking_animation world_delete_raises 5
                      (add_call st0 (sendChatAction 5))))
              eq_refl ltac:(vm_compute; reflexivity) ltac:(discriminate))
    as [response [l [n [_ [Hn H]]]]].
  exists response, l, n. split; [exact Hn | exact H].
Defined.

(* ================================================================== *)
(** * The formatter is idempotent on recognized inputs *)

(** Each pass is a scan that replaces delimiters by tags ([refines]).  The
    output of the four passes is shown to be left as it is by each pass in
    turn:
    - a pass leaves no match of its own pattern ([scan_delim_no_match],
      [scan_italic_no_match]);
    - a text without match of the first, second or third pattern has none
      after the later passes, which only put tags in the place of delimiters
      ([refines_no_match], [refines_no_match_italic]);
    - for the fourth pattern this is not so in general (see
      [stray_backticks]); but when the backticks of the input are paired
      the third pass leaves instances of the fourth pattern only
      ([scan_block_paired]) and the fourth pass leaves no backtick
      ([scan_code_single]). *)

Unset Implicit Arguments.

Section Scan.

Variable m : matcher.
Variables opening closing : str.
Variable last : char.
Variables d1 d2 : str.
Hypothesis m_sound : sound m d1 d2.
Hypothesis d1_nonempty : d1 <> [].

Lemma match_consumes prev s g rest :
  m prev s = Some (g, rest) -> length rest < length s.
Proof.
  intros H. apply m_sound in H. subst s. rewrite !length_app.
  destruct d1; [congruence|]. simpl. lia.
Qed.

Lemma re_sub_from_fuel : forall fuel1 fuel2 s prev,
  length s <= fuel1 -> length s <= fuel2 ->
  re_sub_from m opening closing last fuel1 prev s
  = re_sub_from m opening closing last fuel2 prev s.
Proof.
  induction fuel1 as [|fuel1 IH]; intros fuel2 s prev H1 H2.
  - destruct s; [|simpl in H1; lia]. destruct fuel2; reflexivity.
  - destruct fuel2 as [|fuel2].
    + destruct s; [reflexivity|simpl in H2; lia].
    + simpl. destruct s as [|c s]; [reflexivity|].
      destruct (m prev (c :: s)) as [[g rest]|] eqn:E.
      * apply match_consumes in E. simpl in *.
        rewrite (IH fuel2) by lia. reflexivity.
      * simpl in *. rewrite (IH fuel2) by lia. reflexivity.
Qed.

Lemma scan_match prev s g rest :
  m prev s = Some (g, rest) ->
  scan m opening closing last prev s = opening ++ g ++ closing ++ scan m opening closing last (Some last) rest.
Proof.
  intros E. unfold scan. destruct s as [|c s].
  - apply match_consumes in E. simpl in E. lia.
  - simpl. rewrite E. pose proof (match_consumes _ _ _ _ E) as Hlen. simpl in Hlen.
    rewrite (re_sub_from_fuel (length s) (length rest)) by lia. reflexivity.
Qed.

Lemma scan_skip prev c s :
  m prev (c :: s) = None -> scan m opening closing last prev (c :: s) = c :: scan m opening closing last (Some c) s.
Proof. intros E. unfold scan. simpl. rewrite E. reflexivity. Qed.

(** A text in which the pattern matches nowhere is left as it is. *)
Lemma scan_fixed : forall s prev, no_match m prev s -> scan m opening closing last prev s = s.
Proof.
  induction s as [|c s IH]; intros prev H; [reflexivity|].
  destruct H as [H1 H2]. rewrite scan_skip by exact H1. rewrite IH by exact H2.
  reflexivity.
Qed.

(** Induction on the scan. *)
Lemma scan_ind (Q : option char -> str -> Prop) :
  (forall prev, Q prev []) ->
  (forall prev s g rest,
     m prev s = Some (g, rest) -> Q (Some last) rest -> Q prev s) ->
  (forall prev c s, m prev (c :: s) = None -> Q (Some c) s -> Q prev (c :: s)) ->
  forall s prev, Q prev s.
Proof.
  intros Hnil Hmatch Hskip s.
  induction s as [s IH] using (induction_ltof1 _ (@length char)).
  intros prev. destruct s as [|c s]; [apply Hnil|].
  destruct (m prev (c :: s)) as [[g rest]|] eqn:E.
  - apply (Hmatch _ _ _ _ E). apply IH. unfold ltof.
    apply (match_consumes _ _ _ _ E).
  - apply Hskip; [exact E|]. apply IH. unfold ltof. simpl. lia.
Qed.

End Scan.

(* ------------------------------------------------------------------ *)
(** ** Refinement *)

Section Refines.

Variable P : char -> bool.

Lemma refines_keep_app g : forall s s',
  refines P s s' -> refines P (g ++ s) (g ++ s').
Proof. induction g as [|c g IH]; intros; simpl; [|constructor]; auto. Qed.

(** A delimiter replaced by a tag at least as long. *)
Lemma refines_delim : forall d t s s',
  d <> [] -> forallb P d = true -> forallb neutral t = true ->
  length d <= length t ->
  refines P s s' -> refines P (d ++ s) (t ++ s').
Proof.
  induction d as [|c d IH]; intros t s s' Hd HP Ht Hlen H; [congruence|].
  simpl in HP. apply andb_prop in HP. destruct HP as [Hc HP].
  destruct d as [|c' d].
  - simpl. apply refines_tag; auto. destruct t; [simpl in Hlen; lia|congruence].
  - destruct t as [|x t]; [simpl in Hlen; lia|].
    simpl in Ht. apply andb_prop in Ht. destruct Ht as [Hx Ht].
    change ((c :: c' :: d) ++ s) with (c :: (c' :: d) ++ s).
    change ((x :: t) ++ s') with ([x] ++ t ++ s').
    apply refines_tag; auto.
    + congruence.
    + simpl. rewrite Hx. reflexivity.
    + apply IH; auto; [congruence|simpl in *; lia].
Qed.

End Refines.

Section ScanRefines.

Variable m : matcher.
Variables opening closing : str.
Variable last : char.
Variables d1 d2 : str.
Variable P : char -> bool.
Hypothesis m_sound : sound m d1 d2.
Hypothesis d1_nonempty : d1 <> [].
Hypothesis d2_nonempty : d2 <> [].
Hypothesis d1_P : forallb P d1 = true.
Hypothesis d2_P : forallb P d2 = true.
Hypothesis opening_neutral : forallb neutral opening = true.
Hypothesis closing_neutral : forallb neutral closing = true.
Hypothesis opening_long : length d1 <= length opening.
Hypothesis closing_long : length d2 <= length closing.

(** The output of a pass is its input with delimiters replaced by tags. *)
Lemma scan_refines : forall s prev,
  refines P s (scan m opening closing last prev s).
Proof.
  apply (scan_ind m last d1 d2 m_sound d1_nonempty).
  - intros prev. constructor.
  - intros prev s g rest E IH.
    rewrite (scan_match m opening closing last d1 d2 m_sound d1_nonempty _ _ _ _ E).
    rewrite (m_sound _ _ _ _ E) at 1.
    apply refines_delim; auto. apply refines_keep_app. apply refines_delim; auto.
  - intros prev c s E IH. rewrite scan_skip by exact E. constructor. exact IH.
Qed.

End ScanRefines.

(* ------------------------------------------------------------------ *)
(** ** The four patterns *)

Lemma strip_prefix_sound : forall p s r, strip_prefix p s = Some r -> s = p ++ r.
Proof.
  induction p as [|x p IH]; intros s r H; simpl in *.
  - congruence.
  - destruct s as [|y s]; [discriminate|].
    destruct (N.eqb_spec x y) as [->|]; [|discriminate].
    f_equal. apply IH. exact H.
Qed.

Lemma strip_prefix_app : forall p r, strip_prefix p (p ++ r) = Some r.
Proof.
  induction p as [|x p IH]; intros r; simpl; [reflexivity|].
  rewrite N.eqb_refl. apply IH.
Qed.

Lemma lazy_until_sound dotall d : forall s g rest,
  lazy_until dotall d s = Some (g, rest) -> s = g ++ d ++ rest.
Proof.
  induction s as [|c s IH]; intros g rest H.
  - simpl in H. destruct (strip_prefix d []) eqn:E; [|discriminate].
    injection H as <- <-. apply strip_prefix_sound in E. exact E.
  - simpl in H. destruct (strip_prefix d (c :: s)) eqn:E.
    + injection H as <- <-. apply strip_prefix_sound in E. exact E.
    + destruct (negb dotall && (c =? newline)%N); [discriminate|].
      destruct (lazy_until dotall d s) as [[g' rest']|] eqn:E'; [|discriminate].
      injection H as <- <-. simpl. f_equal. apply IH. reflexivity.
Qed.

Lemma until_char_sound d : forall s g rest,
  until_char d s = Some (g, rest) ->
  s = g ++ d :: rest /\ forallb (fun c => negb (c =? d)%N) g = true.
Proof.
  induction s as [|c s IH]; intros g rest H; simpl in H; [discriminate|].
  destruct (N.eqb_spec c d) as [->|Hne].
  - injection H as <- <-. split; reflexivity.
  - destruct (until_char d s) as [[g' rest']|] eqn:E; [|discriminate].
    injection H as <- <-. destruct (IH _ _ eq_refl) as [-> Hg].
    split; [reflexivity|]. simpl. rewrite Hg.
    destruct (N.eqb_spec c d); [contradiction|reflexivity].
Qed.

Lemma nonempty_until_sound d s g rest :
  nonempty_until d s = Some (g, rest) ->
  s = g ++ d :: rest /\ g <> [] /\ forallb (fun c => negb (c =? d)%N) g = true.
Proof.
  unfold nonempty_until. intros H.
  destruct (until_char d s) as [[g' rest']|] eqn:E; [|discriminate].
  destruct g' as [|c g']; [discriminate|]. injection H as <- <-.
  apply until_char_sound in E. destruct E as [-> Hg].
  split; [reflexivity|]. split; [discriminate|exact Hg].
Qed.

Lemma match_bold_sound : sound match_bold [star; star] [star; star].
Proof.
  intros prev s g rest H. unfold match_bold in H.
  destruct (strip_prefix [star; star] s) as [r|] eqn:E; [|discriminate].
  apply strip_prefix_sound in E. apply lazy_until_sound in H. subst. reflexivity.
Qed.

Lemma match_block_sound :
  sound match_block [backtick; backtick; backtick] [backtick; backtick; backtick].
Proof.
  intros prev s g rest H. unfold match_block in H.
  destruct (strip_prefix [backtick; backtick; backtick] s) as [r|] eqn:E;
    [|discriminate].
  apply strip_prefix_sound in E. apply lazy_until_sound in H. subst. reflexivity.
Qed.

Lemma match_italic_sound : sound match_italic [star] [star].
Proof.
  intros prev s g rest H. unfold match_italic in H.
  destruct s as [|c r]; [discriminate|].
  destruct (N.eqb_spec c star) as [->|]; [|discriminate].
  destruct (negb _); [|discriminate]. simpl in H.
  destruct (nonempty_until star r) as [[g' rest']|] eqn:E; [|discriminate].
  destruct (startswith rest' [star]); [discriminate|]. injection H as <- <-.
  apply nonempty_until_sound in E. destruct E as [-> _]. reflexivity.
Qed.

Lemma match_code_sound : sound match_code [backtick] [backtick].
Proof.
  intros prev s g rest H. unfold match_code in H.
  destruct s as [|c r]; [discriminate|].
  destruct (N.eqb_spec c backtick) as [->|]; [|discriminate].
  apply nonempty_until_sound in H. destruct H as [-> _]. reflexivity.
Qed.

Lemma one_nonempty (c : char) : [c] <> [].
Proof. discriminate. Qed.
Lemma two_nonempty (c : char) : [c; c] <> [].
Proof. discriminate. Qed.
Lemma three_nonempty (c : char) : [c; c; c] <> [].
Proof. discriminate. Qed.

Lemma scan_bold_refines s prev : refines is_star s (scan_bold prev s).
Proof.
  apply (scan_refines match_bold _ _ star _ _ is_star match_bold_sound
           (two_nonempty star) (two_nonempty star));
    try (vm_compute; reflexivity); vm_compute; lia.
Qed.

Lemma scan_italic_refines s prev : refines is_star s (scan_italic prev s).
Proof.
  apply (scan_refines match_italic _ _ star _ _ is_star match_italic_sound
           (one_nonempty star) (one_nonempty star));
    try (vm_compute; reflexivity); vm_compute; lia.
Qed.

Lemma scan_block_refines s prev : refines is_backtick s (scan_block prev s).
Proof.
  apply (scan_refines match_block _ _ backtick _ _ is_backtick match_block_sound
           (three_nonempty backtick) (three_nonempty backtick));
    try (vm_compute; reflexivity); vm_compute; lia.
Qed.

Lemma scan_code_refines s prev : refines is_backtick s (scan_code prev s).
Proof.
  apply (scan_refines match_code _ _ backtick _ _ is_backtick match_code_sound
           (one_nonempty backtick) (one_nonempty backtick));
    try (vm_compute; reflexivity); vm_compute; lia.
Qed.

(* ------------------------------------------------------------------ *)
(** ** Patterns with a delimiter on both sides *)

Lemma neutral_head_app (q : char) t s c r :
  neutral q = false -> t <> [] -> forallb neutral t = true ->
  t ++ s = c :: r -> c <> q.
Proof.
  intros Hq Ht Hn E. destruct t as [|x t]; [congruence|].
  simpl in *. injection E as -> _. apply andb_prop in Hn. destruct Hn as [Hx _].
  intros ->. congruence.
Qed.

Section Delim.

Variable q : char.
Variable n0 : nat.
Variable dotall : bool.
Variables opening closing : str.
Hypothesis q_markup : neutral q = false.
Hypothesis opening_nonempty : opening <> [].
Hypothesis closing_nonempty : closing <> [].
Hypothesis opening_neutral : forallb neutral opening = true.
Hypothesis closing_neutral : forallb neutral closing = true.

Variable d : str.
Hypothesis d_eq : d = repeat q (S n0).

Lemma lazy_until_cons c s :
  lazy_until dotall d (c :: s)
  = match strip_prefix d (c :: s) with
    | Some rest => Some ([], rest)
    | None =>
        if negb dotall && (c =? newline)%N then None
        else match lazy_until dotall d s with
             | Some (body, rest) => Some (c :: body, rest)
             | None => None
             end
    end.
Proof. reflexivity. Qed.

Lemma match_delim_sound : sound (match_delim dotall d) d d.
Proof.
  intros prev s g rest H. unfold match_delim in H.
  destruct (strip_prefix d s) as [r|] eqn:E; [|discriminate].
  apply strip_prefix_sound in E. apply lazy_until_sound in H. subst. reflexivity.
Qed.

Lemma delim_nonempty : d <> [].
Proof. rewrite d_eq. simpl. discriminate. Qed.

Lemma scan_delim_prev : forall s prev prev',
  scan (match_delim dotall d) opening closing q prev s = scan (match_delim dotall d) opening closing q prev' s.
Proof.
  intros s prev. revert s prev.
  apply (scan_ind (match_delim dotall d) q d d match_delim_sound delim_nonempty
           (fun prev s => forall prev',
              scan (match_delim dotall d) opening closing q prev s = scan (match_delim dotall d) opening closing q prev' s)).
  - reflexivity.
  - intros prev s g rest E IH prev'.
    rewrite (scan_match (match_delim dotall d) opening closing q d d match_delim_sound delim_nonempty _ _ _ _ E).
    assert (E' : (match_delim dotall d) prev' s = Some (g, rest)) by exact E.
    rewrite (scan_match (match_delim dotall d) opening closing q d d match_delim_sound delim_nonempty _ _ _ _ E').
    reflexivity.
  - intros prev c s E IH prev'. rewrite scan_skip by exact E.
    assert (E' : (match_delim dotall d) prev' (c :: s) = None) by exact E.
    rewrite scan_skip by exact E'. reflexivity.
Qed.

Lemma scan_delim_nil : (scan_delim dotall d opening closing q) [] = [].
Proof. reflexivity. Qed.

Lemma scan_delim_match s g rest prev :
  (match_delim dotall d) prev s = Some (g, rest) -> (scan_delim dotall d opening closing q) s = opening ++ g ++ closing ++ (scan_delim dotall d opening closing q) rest.
Proof.
  intros E. unfold scan_delim.
  rewrite (scan_match (match_delim dotall d) opening closing q d d match_delim_sound delim_nonempty
             None s g rest E).
  rewrite (scan_delim_prev rest (Some q) None). reflexivity.
Qed.

Lemma scan_delim_skip c s prev : (match_delim dotall d) prev (c :: s) = None -> (scan_delim dotall d opening closing q) (c :: s) = c :: (scan_delim dotall d opening closing q) s.
Proof.
  intros E. unfold scan_delim. rewrite scan_skip by exact E.
  rewrite (scan_delim_prev s (Some c) None). reflexivity.
Qed.

Lemma scan_delim_ind (Q : str -> Prop) :
  Q [] ->
  (forall s g rest, (match_delim dotall d) None s = Some (g, rest) -> Q rest -> Q s) ->
  (forall c s, (match_delim dotall d) None (c :: s) = None -> Q s -> Q (c :: s)) ->
  forall s, Q s.
Proof.
  intros Hnil Hmatch Hskip s.
  apply (scan_ind (match_delim dotall d) q d d match_delim_sound delim_nonempty (fun _ s => Q s)) with (prev := None).
  - intros _. exact Hnil.
  - intros prev s' g rest E. apply (Hmatch s' g rest). exact E.
  - intros prev c s' E. apply Hskip. exact E.
Qed.

(** A text that does not begin with [q] does not begin with the delimiter. *)
Lemma strip_prefix_head c s : c <> q -> strip_prefix d (c :: s) = None.
Proof.
  intros Hc. rewrite d_eq. simpl. destruct (N.eqb_spec q c); [congruence|reflexivity].
Qed.

Lemma match_delim_head prev c s : c <> q -> (match_delim dotall d) prev (c :: s) = None.
Proof. intros Hc. unfold match_delim. rewrite strip_prefix_head by exact Hc. reflexivity. Qed.

Lemma match_delim_none prev s : strip_prefix d s = None -> (match_delim dotall d) prev s = None.
Proof. intros H. unfold match_delim. rewrite H. reflexivity. Qed.

(** The scan does not bring delimiter characters to the front of a text. *)
Lemma scan_delim_lead : forall k x z,
  strip_prefix (repeat q k) ((scan_delim dotall d opening closing q) x) = Some z ->
  exists y, strip_prefix (repeat q k) x = Some y /\ z = (scan_delim dotall d opening closing q) y.
Proof.
  induction k as [|k IH]; intros x z H; simpl in *.
  - injection H as <-. exists x. split; reflexivity.
  - destruct x as [|c s]; [rewrite scan_delim_nil in H; discriminate|].
    destruct ((match_delim dotall d) None (c :: s)) as [[g rest]|] eqn:E.
    + rewrite (scan_delim_match _ _ _ _ E) in H.
      destruct (opening ++ g ++ closing ++ (scan_delim dotall d opening closing q) rest) as [|c0 r] eqn:Eo; [discriminate|].
      pose proof (neutral_head_app q _ _ _ _ q_markup opening_nonempty
                    opening_neutral Eo) as Hc0.
      destruct (N.eqb_spec q c0); [congruence|discriminate].
    + rewrite (scan_delim_skip _ _ _ E) in H.
      destruct (N.eqb_spec q c) as [<-|]; [|discriminate].
      apply IH. exact H.
Qed.

(** The scan does not create a closing delimiter. *)
Lemma scan_delim_no_close : forall y,
  lazy_until dotall d y = None -> lazy_until dotall d ((scan_delim dotall d opening closing q) y) = None.
Proof.
  induction y as [|c y IH]; intros H.
  - rewrite scan_delim_nil. exact H.
  - rewrite lazy_until_cons in H. destruct (strip_prefix d (c :: y)) eqn:E; [discriminate|].
    rewrite (scan_delim_skip c y None (match_delim_none None _ E)).
    rewrite lazy_until_cons. destruct (strip_prefix d (c :: (scan_delim dotall d opening closing q) y)) as [z|] eqn:E'.
    + rewrite <- (scan_delim_skip c y None (match_delim_none None _ E)) in E'.
      rewrite d_eq in E' at 1. rewrite d_eq in E.
      apply scan_delim_lead in E'. destruct E' as [y' [E' _]]. congruence.
    + destruct (negb dotall && (c =? newline)%N); [reflexivity|].
      destruct (lazy_until dotall d y) as [[g r]|]; [discriminate|].
      rewrite IH by reflexivity. reflexivity.
Qed.

(** When the delimiter is a prefix of [g ++ t] and [t] does not begin with
    [q], it is a prefix of [g] alone. *)
Lemma strip_prefix_within : forall k g t u,
  (forall c r, t = c :: r -> c <> q) ->
  strip_prefix (repeat q k) (g ++ t) <> None ->
  strip_prefix (repeat q k) (g ++ u) <> None.
Proof.
  induction k as [|k IH]; intros g t u Ht H; simpl in *; [discriminate|].
  destruct g as [|c g]; simpl in *.
  - destruct t as [|c r]; [congruence|].
    destruct (N.eqb_spec q c) as [<-|]; [|congruence].
    exfalso. apply (Ht q r); reflexivity.
  - destruct (N.eqb_spec q c); [|congruence]. apply (IH g t u Ht H).
Qed.

(** Inside a lazy group no delimiter begins. *)
Lemma lazy_group_free : forall r g rest,
  lazy_until dotall d r = Some (g, rest) ->
  forall g1 g2 t, g = g1 ++ g2 -> g2 <> [] ->
    (forall c r', t = c :: r' -> c <> q) ->
    strip_prefix d (g2 ++ t) = None.
Proof.
  induction r as [|c r IH]; intros g rest H g1 g2 t Hg Hg2 Ht.
  - simpl in H. destruct (strip_prefix d []); [|discriminate].
    injection H as <- <-. destruct g1; destruct g2; simpl in *; congruence.
  - rewrite lazy_until_cons in H. destruct (strip_prefix d (c :: r)) as [z|] eqn:E.
    + injection H as <- <-. destruct g1; destruct g2; simpl in *; congruence.
    + destruct (negb dotall && (c =? newline)%N); [discriminate|].
      destruct (lazy_until dotall d r) as [[g' rest']|] eqn:E'; [|discriminate].
      injection H as <- <-.
      destruct g1 as [|c1 g1].
      * simpl in Hg. subst g2.
        destruct (strip_prefix d ((c :: g') ++ t)) eqn:E2; [|reflexivity].
        exfalso. apply lazy_until_sound in E'. subst r.
        assert (Hne : strip_prefix d ((c :: g') ++ t) <> None) by congruence.
        rewrite d_eq in Hne.
        apply (strip_prefix_within (S n0) (c :: g') t (d ++ rest') Ht) in Hne.
        rewrite <- d_eq in Hne. simpl app in Hne, E. congruence.
      * simpl in Hg. injection Hg as _ Hg.
        apply (IH g' rest' eq_refl g1 g2 t Hg Hg2 Ht).
Qed.

(** No match begins inside a run of neutral characters. *)
Lemma no_match_neutral : forall t s prev,
  forallb neutral t = true ->
  (forall prev', no_match (match_delim dotall d) prev' s) -> no_match (match_delim dotall d) prev (t ++ s).
Proof.
  induction t as [|c t IH]; intros s prev Hn Hs; simpl.
  - apply Hs.
  - simpl in Hn. apply andb_prop in Hn. destruct Hn as [Hc Hn].
    split; [|apply IH; assumption].
    apply match_delim_head. intros ->. congruence.
Qed.

Lemma no_match_group : forall g t prev,
  (forall g1 g2, g = g1 ++ g2 -> g2 <> [] -> strip_prefix d (g2 ++ t) = None) ->
  (forall prev', no_match (match_delim dotall d) prev' t) -> no_match (match_delim dotall d) prev (g ++ t).
Proof.
  induction g as [|c g IH]; intros t prev Hfree Ht; simpl.
  - apply Ht.
  - split.
    + apply match_delim_none. apply (Hfree [] (c :: g)); [reflexivity|discriminate].
    + apply IH; [|exact Ht]. intros g1 g2 Hg Hg2.
      apply (Hfree (c :: g1) g2); [simpl; congruence|exact Hg2].
Qed.

(** The output of the pass has no match left. *)
Lemma scan_delim_no_match : forall x prev, no_match (match_delim dotall d) prev ((scan_delim dotall d opening closing q) x).
Proof.
  intros x. pattern x. apply scan_delim_ind; clear x.
  - intros prev. exact I.
  - intros s g rest E IH prev. rewrite (scan_delim_match _ _ _ _ E).
    apply no_match_neutral; [exact opening_neutral|]. intros prev1.
    unfold match_delim in E.
    destruct (strip_prefix d s) as [r|] eqn:Es; [|discriminate].
    apply no_match_group.
    + intros g1 g2 Hg Hg2.
      apply (lazy_group_free r g rest E g1 g2 _ Hg Hg2).
      intros c r' Ec.
      apply (neutral_head_app q _ _ _ _ q_markup closing_nonempty closing_neutral Ec).
    + intros prev2. apply no_match_neutral; [exact closing_neutral|exact IH].
  - intros c s E IH prev. rewrite (scan_delim_skip _ _ _ E). simpl. split; [|apply IH].
    unfold match_delim.
    destruct (strip_prefix d (c :: (scan_delim dotall d opening closing q) s)) as [z|] eqn:E'; [|reflexivity].
    rewrite <- (scan_delim_skip _ _ _ E) in E'. rewrite d_eq in E' at 1. apply scan_delim_lead in E'.
    destruct E' as [y [Ey ->]]. apply scan_delim_no_close.
    unfold match_delim in E. rewrite <- d_eq in Ey. rewrite Ey in E. exact E.
Qed.

(* ---- under refinement ---- *)

Variable P : char -> bool.
Hypothesis P_newline : dotall = false -> forall c, P c = true -> c <> newline.

Lemma refines_lead : forall k s s' z,
  refines P s s' ->
  strip_prefix (repeat q k) s' = Some z ->
  exists z0, strip_prefix (repeat q k) s = Some z0 /\ refines P z0 z.
Proof.
  induction k as [|k IH]; intros s s' z H E; simpl in *.
  - injection E as <-. exists s. split; [reflexivity|exact H].
  - destruct s' as [|c' r']; [discriminate|].
    destruct (N.eqb_spec q c') as [<-|]; [|discriminate].
    inversion H as [|c s0 s0' H0 | c t s0 s0' Hc Ht Hn H0 E1 E2]; subst.
    + rewrite N.eqb_refl. apply (IH _ _ _ H0 E).
    + exfalso.
      apply (neutral_head_app q _ _ _ _ q_markup Ht Hn E2). reflexivity.
Qed.

Lemma lazy_until_neutral : forall t z,
  forallb neutral t = true ->
  lazy_until dotall d z = None -> lazy_until dotall d (t ++ z) = None.
Proof.
  induction t as [|c t IH]; intros z Hn Hz; simpl app; [exact Hz|].
  simpl in Hn. apply andb_prop in Hn. destruct Hn as [Hc Hn].
  rewrite lazy_until_cons, strip_prefix_head by (intros ->; congruence).
  destruct (negb dotall && (c =? newline)%N); [reflexivity|].
  rewrite IH by assumption. reflexivity.
Qed.

Lemma refines_no_close : forall z0 z,
  refines P z0 z ->
  lazy_until dotall d z0 = None -> lazy_until dotall d z = None.
Proof.
  intros z0 z H. induction H as [|c s s' H IH|c t s s' Hc Ht Hn H IH]; intros Hz.
  - exact Hz.
  - rewrite lazy_until_cons in Hz.
    destruct (strip_prefix d (c :: s)) eqn:E; [discriminate|].
    rewrite lazy_until_cons. destruct (strip_prefix d (c :: s')) as [z|] eqn:E'.
    + exfalso. rewrite d_eq in E', E.
      destruct (refines_lead (S n0) (c :: s) (c :: s') z
                  (@refines_keep P c s s' H) E') as [z0 [E0 _]].
      congruence.
    + destruct (negb dotall && (c =? newline)%N); [reflexivity|].
      destruct (lazy_until dotall d s) as [[g r]|]; [discriminate|].
      rewrite IH by reflexivity. reflexivity.
  - rewrite lazy_until_cons in Hz.
    destruct (strip_prefix d (c :: s)) eqn:E; [discriminate|].
    assert (Hs : lazy_until dotall d s = None).
    { destruct dotall eqn:Ed; simpl in Hz.
      - destruct (lazy_until true d s) as [[g r]|]; [discriminate|reflexivity].
      - destruct (N.eqb_spec c newline) as [->|_].
        + exfalso. apply (P_newline eq_refl newline Hc). reflexivity.
        + destruct (lazy_until false d s) as [[g r]|]; [discriminate|reflexivity]. }
    apply lazy_until_neutral; [exact Hn|]. apply IH. exact Hs.
Qed.

(** A text without match has none after refinement. *)
Lemma refines_no_match : forall y y',
  refines P y y' ->
  forall prev prev', no_match (match_delim dotall d) prev y -> no_match (match_delim dotall d) prev' y'.
Proof.
  intros y y' H. induction H as [|c s s' H IH|c t s s' Hc Ht Hn H IH];
    intros prev prev' Hy.
  - exact I.
  - destruct Hy as [Hm Hy]. split; [|apply (IH (Some c)); exact Hy].
    unfold match_delim in *.
    destruct (strip_prefix d (c :: s')) as [z|] eqn:E'; [|reflexivity].
    rewrite d_eq in E'.
    destruct (refines_lead (S n0) (c :: s) (c :: s') z
                (@refines_keep P c s s' H) E') as [z0 [E0 Hz]].
    rewrite <- d_eq in E0. rewrite E0 in Hm.
    apply (refines_no_close z0 z Hz Hm).
  - destruct Hy as [_ Hy]. apply no_match_neutral; [exact Hn|].
    intros prev1. apply (IH (Some c)). exact Hy.
Qed.

End Delim.

(* ------------------------------------------------------------------ *)
(** ** The second pattern *)

Lemma neutral_not_star c : neutral c = true -> is_star c = false.
Proof.
  unfold neutral, is_star. intros H.
  destruct (c =? star)%N; [discriminate|reflexivity].
Qed.

Lemma neutral_not_backtick c : neutral c = true -> is_backtick c = false.
Proof.
  unfold neutral, is_backtick. intros H.
  destruct (c =? backtick)%N; [|reflexivity].
  destruct (c =? star)%N; discriminate.
Qed.

Lemma neutral_no_star t : forallb neutral t = true -> no_star t = true.
Proof.
  induction t as [|c t IH]; intros H; [reflexivity|].
  simpl in *. apply andb_prop in H. destruct H as [Hc H].
  rewrite (neutral_not_star c Hc), IH by exact H. reflexivity.
Qed.

Lemma neutral_no_backtick t : forallb neutral t = true -> no_backtick t = true.
Proof.
  induction t as [|c t IH]; intros H; [reflexivity|].
  simpl in *. apply andb_prop in H. destruct H as [Hc H].
  rewrite (neutral_not_backtick c Hc), IH by exact H. reflexivity.
Qed.

Lemma is_star_eq c : is_star c = true -> c = star.
Proof. unfold is_star. intros H. apply N.eqb_eq. exact H. Qed.

Lemma is_backtick_eq c : is_backtick c = true -> c = backtick.
Proof. unfold is_backtick. intros H. apply N.eqb_eq. exact H. Qed.

Lemma until_char_cons d c s :
  until_char d (c :: s)
  = if (c =? d)%N then Some ([], s)
    else match until_char d s with
         | Some (body, rest) => Some (c :: body, rest)
         | None => None
         end.
Proof. reflexivity. Qed.

(** Over a text without [d] the search for [d] goes on behind it. *)
Lemma until_char_app d : forall g z,
  forallb (fun c => negb (c =? d)%N) g = true ->
  until_char d (g ++ z)
  = match until_char d z with
    | Some (body, rest) => Some (g ++ body, rest)
    | None => None
    end.
Proof.
  induction g as [|c g IH]; intros z H; simpl app.
  - destruct (until_char d z) as [[b r]|]; reflexivity.
  - simpl in H. apply andb_prop in H. destruct H as [Hc H].
    rewrite until_char_cons. destruct (c =? d)%N; [discriminate|].
    rewrite IH by exact H. destruct (until_char d z) as [[b r]|]; reflexivity.
Qed.

(** When [d] is not found the text has no [d]. *)
Lemma until_char_none_inv d : forall s,
  until_char d s = None -> forallb (fun c => negb (c =? d)%N) s = true.
Proof.
  induction s as [|c s IH]; intros H; [reflexivity|].
  rewrite until_char_cons in H. simpl.
  destruct (c =? d)%N; [discriminate|].
  destruct (until_char d s) as [[b r]|]; [discriminate|].
  apply IH. reflexivity.
Qed.

Lemma italic_head prev c s : is_star c = false -> match_italic prev (c :: s) = None.
Proof. unfold is_star. intros H. unfold match_italic. rewrite H. reflexivity. Qed.

Lemma italic_after_star prev s : after_star prev = true -> match_italic prev s = None.
Proof.
  intros H. unfold match_italic. destruct s as [|c s]; [reflexivity|].
  destruct prev as [p|]; [|discriminate]. unfold after_star, is_star in H.
  rewrite H. rewrite andb_false_r. reflexivity.
Qed.

Lemma italic_star prev s :
  after_star prev = false ->
  match_italic prev (star :: s)
  = match nonempty_until star s with
    | Some (body, rest) => if startswith rest [star] then None else Some (body, rest)
    | None => None
    end.
Proof.
  intros H. unfold match_italic.
  replace (match prev with Some p => (p =? star)%N | None => false end)
    with (after_star prev) by reflexivity.
  rewrite H. reflexivity.
Qed.

Lemma scan_italic_skip prev c s :
  match_italic prev (c :: s) = None ->
  scan_italic prev (c :: s) = c :: scan_italic (Some c) s.
Proof. intros E. unfold scan_italic. apply scan_skip. exact E. Qed.

Lemma scan_italic_match prev s g rest :
  match_italic prev s = Some (g, rest) ->
  scan_italic prev s = lit "<i>" ++ g ++ lit "</i>" ++ scan_italic (Some star) rest.
Proof.
  intros E. unfold scan_italic.
  apply (scan_match match_italic _ _ star [star] [star] match_italic_sound
           (one_nonempty star) _ _ _ _ E).
Qed.

Lemma prev_after_no_star : forall g prev,
  no_star g = true -> g <> [] -> after_star (prev_after prev g) = false.
Proof.
  induction g as [|c g IH]; intros prev H Hg; [congruence|].
  simpl in *. apply andb_prop in H. destruct H as [Hc H].
  destruct g as [|c' g].
  - simpl. destruct (is_star c); [discriminate|reflexivity].
  - apply IH; [exact H|discriminate].
Qed.

(** Text without asterisks passes through the scan. *)
Lemma scan_italic_no_star : forall g t prev,
  no_star g = true ->
  scan_italic prev (g ++ t) = g ++ scan_italic (prev_after prev g) t.
Proof.
  induction g as [|c g IH]; intros t prev H; [reflexivity|].
  simpl in H. apply andb_prop in H. destruct H as [Hc H].
  simpl app. rewrite scan_italic_skip.
  - rewrite IH by exact H. reflexivity.
  - apply italic_head. destruct (is_star c); [discriminate|reflexivity].
Qed.

(** No match begins in text without asterisks. *)
Lemma no_match_italic_app : forall t s prev,
  no_star t = true ->
  no_match match_italic (prev_after prev t) s ->
  no_match match_italic prev (t ++ s).
Proof.
  induction t as [|c t IH]; intros s prev H Hs; [exact Hs|].
  simpl in H. apply andb_prop in H. destruct H as [Hc H].
  simpl app. cbn [no_match]. split.
  - apply italic_head. destruct (is_star c); [discriminate|reflexivity].
  - apply IH; assumption.
Qed.

Lemma startswith_star_cons c s :
  startswith (c :: s) [star] = is_star c.
Proof.
  unfold startswith, is_star.
  change (strip_prefix [star] (c :: s)) with (if (star =? c)%N then Some s else None).
  rewrite (N.eqb_sym star c). destruct (c =? star)%N; reflexivity.
Qed.

(** The search for the closing asterisk fails after the scan as before. *)
Lemma scan_italic_no_close s :
  nonempty_until star s = None ->
  nonempty_until star (scan_italic (Some star) s) = None.
Proof.
  unfold nonempty_until. intros H.
  destruct (until_char star s) as [[g rest]|] eqn:E.
  - destruct g as [|c g]; [|discriminate].
    apply until_char_sound in E. destruct E as [-> _]. simpl app.
    rewrite scan_italic_skip by (apply italic_after_star; reflexivity).
    rewrite until_char_cons, N.eqb_refl. reflexivity.
  - apply until_char_none_inv in E.
    rewrite <- (app_nil_r s). rewrite scan_italic_no_star by exact E.
    rewrite until_char_app by exact E. reflexivity.
Qed.

Lemma scan_italic_lookahead s g rest :
  nonempty_until star s = Some (g, rest) -> startswith rest [star] = true ->
  exists rest',
    nonempty_until star (scan_italic (Some star) s) = Some (g, rest')
    /\ startswith rest' [star] = true.
Proof.
  intros H Hs. apply nonempty_until_sound in H. destruct H as [-> [Hg Hns]].
  destruct rest as [|c rest]; [discriminate|].
  rewrite startswith_star_cons in Hs. apply is_star_eq in Hs. subst c.
  rewrite scan_italic_no_star by exact Hns.
  assert (Hp : after_star (prev_after (Some star) g) = false)
    by (apply prev_after_no_star; assumption).
  rewrite scan_italic_skip.
  2:{ rewrite italic_star by exact Hp. unfold nonempty_until.
      rewrite until_char_cons, N.eqb_refl. reflexivity. }
  rewrite scan_italic_skip by (apply italic_after_star; reflexivity).
  exists (star :: scan_italic (Some star) rest). split.
  - unfold nonempty_until. rewrite until_char_app by exact Hns.
    rewrite until_char_cons, N.eqb_refl. rewrite app_nil_r.
    destruct g; [congruence|reflexivity].
  - rewrite startswith_star_cons. reflexivity.
Qed.

(** The output of the second pass has no match left. *)
Lemma scan_italic_no_match : forall x prev prev',
  after_star prev = after_star prev' \/ startswith x [star] = false ->
  no_match match_italic prev' (scan_italic prev x).
Proof.
  intros x prev. revert x prev.
  apply (scan_ind match_italic star [star] [star] match_italic_sound (one_nonempty star)
           (fun prev x => forall prev',
              after_star prev = after_star prev' \/ startswith x [star] = false ->
              no_match match_italic prev' (scan_italic prev x))).
  - intros prev prev' _. exact I.
  - intros prev s g rest E IH prev' _.
    rewrite (scan_italic_match _ _ _ _ E).
    assert (Hrest : startswith rest [star] = false /\ no_star g = true).
    { unfold match_italic in E. destruct s as [|c r]; [discriminate|].
      destruct ((c =? star)%N && _); [|discriminate].
      destruct (nonempty_until star r) as [[g' rest']|] eqn:E'; [|discriminate].
      destruct (startswith rest' [star]) eqn:Es; [discriminate|].
      injection E as <- <-. apply nonempty_until_sound in E'.
      destruct E' as [_ [_ Hg]]. split; [exact Es|exact Hg]. }
    destruct Hrest as [Hrest Hg].
    apply no_match_italic_app; [vm_compute; reflexivity|].
    apply no_match_italic_app; [exact Hg|].
    apply no_match_italic_app; [vm_compute; reflexivity|].
    apply IH. right. exact Hrest.
  - intros prev c s E IH prev' Hctx.
    rewrite scan_italic_skip by exact E. cbn [no_match]. split.
    2:{ apply IH. left. reflexivity. }
    destruct (is_star c) eqn:Hc; [|apply italic_head; exact Hc].
    apply is_star_eq in Hc. subst c.
    destruct Hctx as [Hctx | Hctx];
      [|rewrite startswith_star_cons in Hctx; discriminate].
    destruct (after_star prev') eqn:Hp'; [apply italic_after_star; exact Hp'|].
    rewrite italic_star in E by exact Hctx. rewrite italic_star by exact Hp'.
    destruct (nonempty_until star s) as [[g rest]|] eqn:En.
    + destruct (startswith rest [star]) eqn:Es; [|discriminate].
      destruct (scan_italic_lookahead s g rest En Es) as [rest' [E1 E2]].
      rewrite E1, E2. reflexivity.
    + rewrite scan_italic_no_close by exact En. reflexivity.
Qed.

(* ---- under refinement ---- *)

Section ItalicRefines.

Variable P : char -> bool.
Hypothesis P_not_star : forall c, P c = true -> is_star c = false.

Lemma refines_nil_inv s' : refines P [] s' -> s' = [].
Proof. intros H. inversion H. reflexivity. Qed.

Lemma refines_until : forall s s',
  refines P s s' ->
  forall g' rest',
    until_char star s' = Some (g', rest') ->
    exists g rest,
      until_char star s = Some (g, rest) /\ refines P g g' /\ refines P rest rest'.
Proof.
  intros s s' H. induction H as [|c s s' H IH|c t s s' Hc Ht Hn H IH];
    intros g' rest' E.
  - discriminate.
  - rewrite until_char_cons in *. destruct (c =? star)%N.
    + injection E as <- <-. exists [], s. split; [reflexivity|].
      split; [constructor|exact H].
    + destruct (until_char star s') as [[b r]|] eqn:E'; [|discriminate].
      injection E as <- <-. destruct (IH _ _ eq_refl) as [g [rest [E1 [H1 H2]]]].
      rewrite E1. exists (c :: g), rest. split; [reflexivity|].
      split; [constructor; exact H1|exact H2].
  - rewrite until_char_app in E by (apply neutral_no_star; exact Hn).
    destruct (until_char star s') as [[b r]|] eqn:E'; [|discriminate].
    injection E as <- <-. destruct (IH _ _ eq_refl) as [g [rest [E1 [H1 H2]]]].
    rewrite until_char_cons. pose proof (P_not_star c Hc) as Hcs.
    unfold is_star in Hcs. rewrite Hcs, E1.
    exists (c :: g), rest. split; [reflexivity|].
    split; [apply refines_tag; assumption|exact H2].
Qed.

Lemma refines_head_star rest rest' :
  refines P rest rest' -> startswith rest [star] = true ->
  startswith rest' [star] = true.
Proof.
  intros H Hs. destruct rest as [|c rest]; [discriminate|].
  rewrite startswith_star_cons in Hs.
  inversion H as [|c0 s0 s0' H0 | c0 t s0 s0' Hc Ht Hn H0]; subst.
  - rewrite startswith_star_cons. exact Hs.
  - rewrite (P_not_star c Hc) in Hs. discriminate.
Qed.

Lemma refines_italic_none s s' prev prev' :
  refines P s s' -> after_star prev = after_star prev' ->
  match_italic prev s = None -> match_italic prev' s' = None.
Proof.
  intros H Hp E.
  inversion H as [|c s0 s0' H0 | c t s0 s0' Hc Ht Hn H0]; subst.
  - reflexivity.
  - destruct (is_star c) eqn:Hcs; [|apply italic_head; exact Hcs].
    apply is_star_eq in Hcs. subst c.
    destruct (after_star prev') eqn:Hp'; [apply italic_after_star; exact Hp'|].
    rewrite italic_star in E by exact Hp. rewrite italic_star by exact Hp'.
    unfold nonempty_until in *.
    destruct (until_char star s0') as [[g' rest']|] eqn:E'; [|reflexivity].
    destruct (refines_until _ _ H0 _ _ E') as [g [rest [E1 [H1 H2]]]].
    rewrite E1 in E.
    destruct g' as [|c' g']; [reflexivity|].
    destruct g as [|c g]; [apply refines_nil_inv in H1; discriminate|].
    destruct (startswith rest [star]) eqn:Es; [|discriminate].
    rewrite (refines_head_star _ _ H2 Es). reflexivity.
  - destruct t as [|x t]; [congruence|]. simpl in Hn.
    apply andb_prop in Hn. destruct Hn as [Hx _].
    apply italic_head. apply neutral_not_star. exact Hx.
Qed.

(** A text without match of the second pattern has none after a refinement
    that leaves the asterisks alone. *)
Lemma refines_no_match_italic : forall y y',
  refines P y y' ->
  forall prev prev', after_star prev = after_star prev' ->
    no_match match_italic prev y -> no_match match_italic prev' y'.
Proof.
  intros y y' H. induction H as [|c s s' H IH|c t s s' Hc Ht Hn H IH];
    intros prev prev' Hp Hy.
  - exact I.
  - destruct Hy as [Hm Hy]. split.
    + apply (refines_italic_none (c :: s) (c :: s') prev prev'
               (@refines_keep P c s s' H) Hp Hm).
    + apply (IH (Some c) (Some c) eq_refl Hy).
  - destruct Hy as [_ Hy].
    apply no_match_italic_app; [apply neutral_no_star; exact Hn|].
    apply (IH (Some c)); [|exact Hy].
    simpl. rewrite (P_not_star c Hc).
    symmetry. apply prev_after_no_star; [apply neutral_no_star; exact Hn|exact Ht].
Qed.

End ItalicRefines.

(* ------------------------------------------------------------------ *)
(** ** Backticks *)

Lemma no_backtick_app a b : no_backtick (a ++ b) = no_backtick a && no_backtick b.
Proof. unfold no_backtick. apply forallb_app. Qed.

Lemma paired_app_no_backtick : forall t s,
  no_backtick t = true -> backticks_paired s -> backticks_paired (t ++ s).
Proof.
  induction t as [|c t IH]; intros s H Hs; [exact Hs|].
  simpl in H. apply andb_prop in H. destruct H as [Hc H].
  simpl. constructor; [|apply IH; assumption].
  destruct (is_backtick c); [discriminate|reflexivity].
Qed.

Lemma single_app_no_backtick : forall t s,
  no_backtick t = true -> single_paired s -> single_paired (t ++ s).
Proof.
  induction t as [|c t IH]; intros s H Hs; [exact Hs|].
  simpl in H. apply andb_prop in H. destruct H as [Hc H].
  simpl. constructor; [|apply IH; assumption].
  destruct (is_backtick c); [discriminate|reflexivity].
Qed.

Section BacktickRefines.

Variable P : char -> bool.
Hypothesis P_not_backtick : forall c, P c = true -> is_backtick c = false.

Lemma refines_app_inv : forall a b y',
  refines P (a ++ b) y' ->
  exists a' b', y' = a' ++ b' /\ refines P a a' /\ refines P b b'.
Proof.
  induction a as [|c a IH]; intros b y' H.
  - exists [], y'. split; [reflexivity|]. split; [constructor|exact H].
  - simpl in H.
    inversion H as [|c0 s0 s0' H0 | c0 t s0 s0' Hc Ht Hn H0]; subst.
    + destruct (IH _ _ H0) as [a' [b' [-> [Ha Hb]]]].
      exists (c :: a'), b'. split; [reflexivity|].
      split; [constructor; exact Ha|exact Hb].
    + destruct (IH _ _ H0) as [a' [b' [-> [Ha Hb]]]].
      exists (t ++ a'), b'. split; [rewrite app_assoc; reflexivity|].
      split; [apply refines_tag; assumption|exact Hb].
Qed.

Lemma refines_backtick_inv s y' :
  refines P (backtick :: s) y' ->
  exists s', y' = backtick :: s' /\ refines P s s'.
Proof.
  intros H. inversion H as [|c0 s0 s0' H0 | c0 t s0 s0' Hc Ht Hn H0]; subst.
  - exists s0'. split; [reflexivity|exact H0].
  - apply P_not_backtick in Hc. discriminate.
Qed.

Lemma refines_no_backtick : forall g g',
  refines P g g' -> no_backtick g = true -> no_backtick g' = true.
Proof.
  intros g g' H. induction H as [|c s s' H IH|c t s s' Hc Ht Hn H IH]; intros Hg.
  - reflexivity.
  - simpl in *. apply andb_prop in Hg. destruct Hg as [Hc Hg].
    rewrite Hc, IH by exact Hg. reflexivity.
  - simpl in Hg. apply andb_prop in Hg. destruct Hg as [_ Hg].
    rewrite no_backtick_app, (neutral_no_backtick t Hn), IH by exact Hg. reflexivity.
Qed.

Lemma refines_nonempty_fwd g g' : refines P g g' -> g <> [] -> g' <> [].
Proof.
  intros H Hg. inversion H as [|c s s' H0 | c t s s' Hc Ht Hn H0]; subst.
  - congruence.
  - discriminate.
  - destruct t; [congruence|discriminate].
Qed.

(** Pairing of the backticks survives a refinement that leaves the backticks
    alone. *)
Lemma refines_paired : forall y,
  backticks_paired y -> forall y', refines P y y' -> backticks_paired y'.
Proof.
  intros y Hy. induction Hy as [|c s Hc Hs IH|body s Hb Hnb Hs IH|body s Hnb Hs IH];
    intros y' H.
  - inversion H. constructor.
  - inversion H as [|c0 s0 s0' H0 | c0 t s0 s0' Hc0 Ht Hn H0]; subst.
    + constructor; [exact Hc|apply IH; exact H0].
    + apply paired_app_no_backtick; [apply neutral_no_backtick; exact Hn|].
      apply IH. exact H0.
  - simpl in H. apply refines_backtick_inv in H. destruct H as [y1 [-> H]].
    apply refines_app_inv in H. destruct H as [body' [y2 [-> [Hbody H]]]].
    simpl in H. apply refines_backtick_inv in H. destruct H as [s' [-> H]].
    apply (@paired_code body' s').
    + apply (refines_nonempty_fwd _ _ Hbody Hb).
    + apply (refines_no_backtick _ _ Hbody Hnb).
    + apply IH. exact H.
  - simpl in H. apply refines_backtick_inv in H. destruct H as [y1 [-> H]].
    apply refines_backtick_inv in H. destruct H as [y2 [-> H]].
    apply refines_backtick_inv in H. destruct H as [y3 [-> H]].
    apply refines_app_inv in H. destruct H as [body' [y4 [-> [Hbody H]]]].
    simpl in H. apply refines_backtick_inv in H. destruct H as [y5 [-> H]].
    apply refines_backtick_inv in H. destruct H as [y6 [-> H]].
    apply refines_backtick_inv in H. destruct H as [s' [-> H]].
    apply (@paired_block body' s').
    + apply (refines_no_backtick _ _ Hbody Hnb).
    + apply IH. exact H.
Qed.

End BacktickRefines.

(* ---- the third pass on paired backticks ---- *)

Lemma backtick_markup : neutral backtick = false.
Proof. reflexivity. Qed.

Lemma star_markup : neutral star = false.
Proof. reflexivity. Qed.

Lemma code_open_nonempty : lit "<code>" <> [].
Proof. vm_compute. discriminate. Qed.

Lemma code_close_nonempty : lit "</code>" <> [].
Proof. vm_compute. discriminate. Qed.

Lemma code_open_neutral : forallb neutral (lit "<code>") = true.
Proof. vm_compute. reflexivity. Qed.

Lemma code_close_neutral : forallb neutral (lit "</code>") = true.
Proof. vm_compute. reflexivity. Qed.

Lemma scan_block_prev s prev prev' : scan_block prev s = scan_block prev' s.
Proof.
  exact (scan_delim_prev backtick 2 true _ _ bt3 eq_refl s prev prev').
Qed.

Lemma scan_block_skip c s :
  match_block None (c :: s) = None -> scan_block None (c :: s) = c :: scan_block None s.
Proof.
  intros E. unfold scan_block. rewrite scan_skip by exact E.
  apply f_equal. apply scan_block_prev.
Qed.

Lemma scan_block_match s g rest :
  match_block None s = Some (g, rest) ->
  scan_block None s = lit "<code>" ++ g ++ lit "</code>" ++ scan_block None rest.
Proof.
  intros E. unfold scan_block.
  rewrite (scan_match match_block _ _ backtick bt3 bt3 match_block_sound
             (three_nonempty backtick) _ _ _ _ E).
  do 3 apply f_equal. apply scan_block_prev.
Qed.

Lemma strip_bt3_cons c s :
  strip_prefix bt3 (c :: s)
  = if (backtick =? c)%N then strip_prefix [backtick; backtick] s else None.
Proof. reflexivity. Qed.

Lemma strip_bt2_cons c s :
  strip_prefix [backtick; backtick] (c :: s)
  = if (backtick =? c)%N then strip_prefix [backtick] s else None.
Proof. reflexivity. Qed.

Lemma strip_bt1_cons c s :
  strip_prefix [backtick] (c :: s)
  = if (backtick =? c)%N then Some s else None.
Proof. reflexivity. Qed.

Lemma not_backtick_eqb c : is_backtick c = false -> (backtick =? c)%N = false.
Proof. unfold is_backtick. rewrite N.eqb_sym. trivial. Qed.

Lemma match_block_eq s :
  match_block None s
  = match strip_prefix bt3 s with
    | Some r => lazy_until true bt3 r
    | None => None
    end.
Proof. reflexivity. Qed.

Lemma lazy_until_bt3_cons c s :
  lazy_until true bt3 (c :: s)
  = match strip_prefix bt3 (c :: s) with
    | Some rest => Some ([], rest)
    | None =>
        match lazy_until true bt3 s with
        | Some (body, rest) => Some (c :: body, rest)
        | None => None
        end
    end.
Proof. reflexivity. Qed.

Lemma scan_block_char c s :
  is_backtick c = false -> scan_block None (c :: s) = c :: scan_block None s.
Proof.
  intros Hc. apply scan_block_skip. rewrite match_block_eq, strip_bt3_cons.
  rewrite (not_backtick_eqb c Hc). reflexivity.
Qed.

Lemma scan_block_no_backtick : forall g s,
  no_backtick g = true -> scan_block None (g ++ s) = g ++ scan_block None s.
Proof.
  induction g as [|c g IH]; intros s H; [reflexivity|].
  simpl in H. apply andb_prop in H. destruct H as [Hc H].
  cbn [app]. rewrite scan_block_char, IH; auto.
  destruct (is_backtick c); [discriminate|reflexivity].
Qed.

Lemma lazy_until_found dotall d s rest :
  strip_prefix d s = Some rest -> lazy_until dotall d s = Some ([], rest).
Proof. intros H. destruct s; simpl; rewrite H; reflexivity. Qed.

(** The lazy group ends at the first closing delimiter. *)
Lemma lazy_until_body : forall body s,
  no_backtick body = true ->
  lazy_until true bt3 (body ++ bt3 ++ s) = Some (body, s).
Proof.
  induction body as [|c body IH]; intros s H.
  - change ([] ++ bt3 ++ s) with (bt3 ++ s).
    apply lazy_until_found. apply strip_prefix_app.
  - simpl in H. apply andb_prop in H. destruct H as [Hc H].
    cbn [app]. rewrite lazy_until_bt3_cons, strip_bt3_cons.
    rewrite not_backtick_eqb by (destruct (is_backtick c); [discriminate|reflexivity]).
    rewrite IH by exact H. reflexivity.
Qed.

Lemma scan_block_block body s :
  no_backtick body = true ->
  scan_block None (bt3 ++ body ++ bt3 ++ s)
  = lit "<code>" ++ body ++ lit "</code>" ++ scan_block None s.
Proof.
  intros H. apply scan_block_match. rewrite match_block_eq.
  rewrite strip_prefix_app. apply lazy_until_body. exact H.
Qed.

Lemma single_paired_code body pre v :
  body <> [] -> no_backtick body = true -> no_backtick pre = true ->
  single_paired v ->
  single_paired (backtick :: body ++ pre ++ backtick :: v).
Proof.
  intros Hb Hnb Hpre Hv.
  change (single_paired ([backtick] ++ body ++ pre ++ [backtick] ++ v)).
  rewrite (app_assoc body pre). apply single_code.
  - destruct body; [congruence|discriminate].
  - rewrite no_backtick_app, Hnb, Hpre. reflexivity.
  - exact Hv.
Qed.

(** The third pass turns paired backticks into instances of the fourth
    pattern; after one more backtick in front, into such instances behind a
    closing backtick. *)
Lemma scan_block_paired : forall t,
  backticks_paired t ->
  single_paired (scan_block None t)
  /\ exists pre v,
       no_backtick pre = true
       /\ scan_block None (backtick :: t) = pre ++ backtick :: v
       /\ single_paired v.
Proof.
  intros t Ht.
  induction Ht as [|c s Hc Hs [IH1 IH2]|body s Hb Hnb Hs [IH1 IH2]|body s Hnb Hs [IH1 IH2]].
  - split; [constructor|]. exists [], []. split; [reflexivity|].
    split; [reflexivity|constructor].
  - assert (H1 : single_paired (scan_block None (c :: s))).
    { rewrite scan_block_char by exact Hc. constructor; assumption. }
    split; [exact H1|]. exists [], (scan_block None (c :: s)).
    split; [reflexivity|]. split; [|exact H1].
    apply scan_block_skip. rewrite match_block_eq, strip_bt3_cons, N.eqb_refl.
    rewrite strip_bt2_cons, (not_backtick_eqb c Hc). reflexivity.
  - destruct body as [|b0 body]; [congruence|].
    simpl in Hnb. apply andb_prop in Hnb. destruct Hnb as [Hb0 Hnb].
    assert (Hb0' : is_backtick b0 = false)
      by (destruct (is_backtick b0); [discriminate|reflexivity]).
    destruct IH2 as [pre [v [Hpre [E Hv]]]].
    assert (H1 : single_paired
                   (scan_block None ([backtick] ++ (b0 :: body) ++ [backtick] ++ s))).
    { cbn [app]. rewrite scan_block_skip.
      2:{ rewrite match_block_eq, strip_bt3_cons, N.eqb_refl.
          rewrite strip_bt2_cons, (not_backtick_eqb b0 Hb0'). reflexivity. }
      rewrite scan_block_char by exact Hb0'.
      rewrite scan_block_no_backtick by exact Hnb. rewrite E.
      apply (single_paired_code (b0 :: body) pre v); auto.
      simpl. rewrite Hb0, Hnb. reflexivity. }
    split; [exact H1|].
    exists [], (scan_block None ([backtick] ++ (b0 :: body) ++ [backtick] ++ s)).
    split; [reflexivity|]. split; [|exact H1].
    apply scan_block_skip. cbn [app].
    rewrite match_block_eq, strip_bt3_cons, N.eqb_refl.
    rewrite strip_bt2_cons, N.eqb_refl, strip_bt1_cons.
    rewrite (not_backtick_eqb b0 Hb0'). reflexivity.
  - split.
    + fold bt3. rewrite scan_block_block by exact Hnb.
      apply single_app_no_backtick; [apply neutral_no_backtick, code_open_neutral|].
      apply single_app_no_backtick; [exact Hnb|].
      apply single_app_no_backtick; [apply neutral_no_backtick, code_close_neutral|].
      exact IH1.
    + destruct body as [|b0 body].
      * destruct IH2 as [pre [v [Hpre [E Hv]]]].
        exists (lit "<code>" ++ lit "</code>" ++ pre), v.
        split.
        { rewrite !no_backtick_app, Hpre.
          rewrite (neutral_no_backtick _ code_open_neutral).
          rewrite (neutral_no_backtick _ code_close_neutral). reflexivity. }
        split; [|exact Hv].
        change (backtick :: [backtick; backtick; backtick] ++ []
                  ++ [backtick; backtick; backtick] ++ s)
          with (bt3 ++ [] ++ bt3 ++ (backtick :: s)).
        rewrite scan_block_block by reflexivity. rewrite E.
        cbn [app]. rewrite <- !app_assoc. reflexivity.
      * simpl in Hnb. apply andb_prop in Hnb. destruct Hnb as [Hb0 Hnb].
        assert (Hb0' : is_backtick b0 = false)
          by (destruct (is_backtick b0); [discriminate|reflexivity]).
        exists (lit "<code>"),
               ((b0 :: body) ++ lit "</code>" ++ scan_block None s).
        split; [apply neutral_no_backtick, code_open_neutral|]. split.
        { change (backtick :: [backtick; backtick; backtick] ++ (b0 :: body)
                    ++ [backtick; backtick; backtick] ++ s)
            with (bt3 ++ (backtick :: (b0 :: body) ++ bt3 ++ s)).
          rewrite (scan_block_match _ (backtick :: b0 :: body) s).
          - reflexivity.
          - rewrite match_block_eq, strip_prefix_app.
            rewrite lazy_until_bt3_cons, strip_bt3_cons, N.eqb_refl.
            cbn [app]. rewrite strip_bt2_cons, (not_backtick_eqb b0 Hb0').
            change (b0 :: body ++ bt3 ++ s) with ((b0 :: body) ++ bt3 ++ s).
            rewrite lazy_until_body; [reflexivity|].
            simpl. rewrite Hb0, Hnb. reflexivity. }
        apply single_app_no_backtick; [simpl; rewrite Hb0, Hnb; reflexivity|].
        apply single_app_no_backtick; [apply neutral_no_backtick, code_close_neutral|].
        exact IH1.
Qed.

(* ---- the fourth pass ---- *)

Lemma match_code_char prev c s : is_backtick c = false -> match_code prev (c :: s) = None.
Proof. unfold is_backtick, match_code. intros ->. reflexivity. Qed.

Lemma scan_code_char prev c s :
  is_backtick c = false -> scan_code prev (c :: s) = c :: scan_code (Some c) s.
Proof.
  intros Hc. unfold scan_code. apply scan_skip. apply match_code_char. exact Hc.
Qed.

Lemma scan_code_code prev body s :
  body <> [] -> no_backtick body = true ->
  scan_code prev ([backtick] ++ body ++ [backtick] ++ s)
  = lit "<code>" ++ body ++ lit "</code>" ++ scan_code (Some backtick) s.
Proof.
  intros Hb Hnb. unfold scan_code.
  apply (scan_match match_code _ _ backtick [backtick] [backtick] match_code_sound
           (one_nonempty backtick)).
  cbn [app]. unfold match_code. rewrite N.eqb_refl. unfold nonempty_until.
  change (body ++ backtick :: s) with (body ++ [backtick] ++ s).
  rewrite until_char_app by exact Hnb. cbn [app].
  rewrite until_char_cons, N.eqb_refl. rewrite app_nil_r.
  destruct body; [congruence|reflexivity].
Qed.

(** The fourth pass leaves no backtick of paired instances. *)
Lemma scan_code_single : forall v,
  single_paired v -> forall prev, no_backtick (scan_code prev v) = true.
Proof.
  intros v Hv. induction Hv as [|c s Hc Hs IH|body s Hb Hnb Hs IH]; intros prev.
  - reflexivity.
  - rewrite scan_code_char by exact Hc. simpl. rewrite Hc, IH. reflexivity.
  - rewrite scan_code_code by assumption.
    rewrite !no_backtick_app, Hnb, IH.
    rewrite (neutral_no_backtick _ code_open_neutral).
    rewrite (neutral_no_backtick _ code_close_neutral). reflexivity.
Qed.

Lemma no_backtick_no_match : forall z prev,
  no_backtick z = true -> no_match match_code prev z.
Proof.
  induction z as [|c z IH]; intros prev H; [exact I|].
  simpl in H. apply andb_prop in H. destruct H as [Hc H].
  cbn [no_match]. split; [|apply IH; exact H].
  apply match_code_char. destruct (is_backtick c); [discriminate|reflexivity].
Qed.

(* ------------------------------------------------------------------ *)
(** ** Idempotence *)

Lemma fix_telegram_formatting_eq text :
  fix_telegram_formatting text
  = scan_code None (scan_block None (scan_italic None (scan_bold None text))).
Proof. reflexivity. Qed.

Lemma is_star_not_newline c : is_star c = true -> c <> newline.
Proof. intros H ->. discriminate. Qed.

Lemma is_backtick_not_newline c : is_backtick c = true -> c <> newline.
Proof. intros H ->. discriminate. Qed.

Lemma is_star_not_backtick c : is_star c = true -> is_backtick c = false.
Proof. intros H. apply is_star_eq in H. subst c. reflexivity. Qed.

Lemma is_backtick_not_star c : is_backtick c = true -> is_star c = false.
Proof. intros H. apply is_backtick_eq in H. subst c. reflexivity. Qed.

Lemma bold_open_nonempty : lit "<b>" <> [].
Proof. vm_compute. discriminate. Qed.

Lemma bold_close_nonempty : lit "</b>" <> [].
Proof. vm_compute. discriminate. Qed.

Lemma bold_open_neutral : forallb neutral (lit "<b>") = true.
Proof. vm_compute. reflexivity. Qed.

Lemma bold_close_neutral : forallb neutral (lit "</b>") = true.
Proof. vm_compute. reflexivity. Qed.

(** After the first pass no match of the first pattern is left. *)
Lemma scan_bold_no_match x prev : no_match match_bold prev (scan_bold None x).
Proof.
  exact (scan_delim_no_match star 1 false _ _ star_markup bold_open_nonempty
           bold_close_nonempty bold_open_neutral bold_close_neutral
           [star; star] eq_refl x prev).
Qed.

Lemma scan_block_no_match x prev : no_match match_block prev (scan_block None x).
Proof.
  exact (scan_delim_no_match backtick 2 true _ _ backtick_markup code_open_nonempty
           code_close_nonempty code_open_neutral code_close_neutral
           bt3 eq_refl x prev).
Qed.

Lemma refines_no_match_bold P y y' prev prev' :
  (forall c, P c = true -> c <> newline) ->
  refines P y y' -> no_match match_bold prev y -> no_match match_bold prev' y'.
Proof.
  intros HP H Hy.
  exact (refines_no_match star 1 false _ _ star_markup bold_open_neutral
           bold_close_neutral [star; star] eq_refl P
           (fun _ => HP) y y' H prev prev' Hy).
Qed.

Lemma refines_no_match_block P y y' prev prev' :
  refines P y y' -> no_match match_block prev y -> no_match match_block prev' y'.
Proof.
  intros H Hy.
  refine (refines_no_match backtick 2 true _ _ backtick_markup code_open_neutral
            code_close_neutral bt3 eq_refl P
            _ y y' H prev prev' Hy).
  discriminate.
Qed.

(** The formatter leaves its own output as it is, for every text whose
    backticks are paired. *)
Lemma fix_telegram_formatting_fixed x :
  backticks_paired x ->
  fix_telegram_formatting (fix_telegram_formatting x) = fix_telegram_formatting x.
Proof.
  intros Hx. rewrite (fix_telegram_formatting_eq x).
  set (y1 := scan_bold None x). set (y2 := scan_italic None y1).
  set (y3 := scan_block None y2). set (z := scan_code None y3).
  assert (R2 : refines is_star y1 y2) by apply scan_italic_refines.
  assert (R3 : refines is_backtick y2 y3) by apply scan_block_refines.
  assert (R4 : refines is_backtick y3 z) by apply scan_code_refines.
  assert (Hbold : no_match match_bold None z).
  { apply (refines_no_match_bold is_backtick y3 z None None is_backtick_not_newline R4).
    apply (refines_no_match_bold is_backtick y2 y3 None None is_backtick_not_newline R3).
    apply (refines_no_match_bold is_star y1 y2 None None is_star_not_newline R2).
    apply scan_bold_no_match. }
  assert (Hitalic : no_match match_italic None z).
  { apply (refines_no_match_italic is_backtick is_backtick_not_star y3 z R4 None None eq_refl).
    apply (refines_no_match_italic is_backtick is_backtick_not_star y2 y3 R3 None None eq_refl).
    apply scan_italic_no_match. left. reflexivity. }
  assert (Hblock : no_match match_block None z).
  { apply (refines_no_match_block is_backtick y3 z None None R4).
    apply scan_block_no_match. }
  assert (Hcode : no_match match_code None z).
  { apply no_backtick_no_match. apply scan_code_single.
    apply scan_block_paired.
    apply (refines_paired is_star is_star_not_backtick y1);
      [|exact R2].
    apply (refines_paired is_star is_star_not_backtick x);
      [exact Hx|apply scan_bold_refines]. }
  rewrite fix_telegram_formatting_eq.
  unfold scan_bold at 1.
  rewrite (scan_fixed match_bold _ _ star z None Hbold).
  unfold scan_italic at 1.
  rewrite (scan_fixed match_italic _ _ star z None Hitalic).
  unfold scan_block at 1.
  rewrite (scan_fixed match_block _ _ backtick z None Hblock).
  unfold scan_code at 1.
  rewrite (scan_fixed match_code _ _ backtick z None Hcode).
  reflexivity.
Qed.

Lemma plain_no_backtick s : plain s = true -> no_backtick s = true.
Proof.
  induction s as [|c s IH]; intros H; [reflexivity|].
  simpl in *. apply andb_prop in H. destruct H as [Hc H].
  unfold plain_char in Hc. apply andb_prop in Hc. destruct Hc as [_ Hc].
  unfold is_backtick. rewrite Hc, IH by exact H. reflexivity.
Qed.

(** The backticks of a recognized input are paired. *)
Lemma recognized_paired : forall ps,
  recognized ps = true -> backticks_paired (render ps).
Proof.
  induction ps as [|p ps IH]; intros H; [constructor|].
  simpl in H. apply andb_prop in H. destruct H as [Hp H].
  specialize (IH H). unfold render. simpl. fold (render ps).
  destruct p as [s|s|s|s|s]; simpl in Hp; cbn [render_piece].
  - apply paired_app_no_backtick; [apply plain_no_backtick; exact Hp|exact IH].
  - rewrite <- !app_assoc. 
    apply (paired_app_no_backtick [star; star]); [reflexivity|].
    apply paired_app_no_backtick; [apply plain_no_backtick; exact Hp|].
    apply (paired_app_no_backtick [star; star]); [reflexivity|exact IH].
  - apply andb_prop in Hp. destruct Hp as [Hp _]. rewrite <- !app_assoc.
    apply (paired_app_no_backtick [star]); [reflexivity|].
    apply paired_app_no_backtick; [apply plain_no_backtick; exact Hp|].
    apply (paired_app_no_backtick [star]); [reflexivity|exact IH].
  - rewrite <- !app_assoc.
    apply paired_block; [apply plain_no_backtick; exact Hp|exact IH].
  - apply andb_prop in Hp. destruct Hp as [Hp Hs]. rewrite <- !app_assoc.
    apply paired_code; [|apply plain_no_backtick; exact Hp|exact IH].
    destruct s; [discriminate|discriminate].
Qed.

(** C7.  On every input that consists of plain text and instances of the
    four recognized patterns around plain text, applying the formatter to
    its own output gives that output again. *)
Theorem fix_telegram_formatting_idempotent ps :
  recognized ps = true ->
  fix_telegram_formatting (fix_telegram_formatting (render ps))
  = fix_telegram_formatting (render ps).
Proof.
  intros H. apply fix_telegram_formatting_fixed. apply recognized_paired. exact H.
Qed.

(** The formatter on the examples of the specification, and on a stray pair
    of backticks, where a second application wraps the first one's output
    again: the restriction to recognized inputs is needed. *)
Example fix_telegram_formatting_examples :
  fix_telegram_formatting (lit "**bold**") = lit "<b>bold</b>"
  /\ fix_telegram_formatting (lit "*it*") = lit "<i>it</i>"
  /\ fix_telegram_formatting (lit "`c`") = lit "<code>c</code>"
  /\ fix_telegram_formatting (lit "no markup") = lit "no markup"
  /\ fix_telegram_formatting (lit "**Курс X**: *5* кредитов")
     = lit "<b>Курс X</b>: <i>5</i> кредитов".
Proof. split; [|split; [|split; [|split]]]; vm_compute; reflexivity. Qed.

Example fix_telegram_formatting_stray_backticks :
  fix_telegram_formatting stray_backticks = lit "`<code>a</code>`"
  /\ fix_telegram_formatting (fix_telegram_formatting stray_backticks)
     = lit "<code><code>a</code></code>".
Proof. split; vm_compute; reflexivity. Qed.

Lemma fix_telegram_formatting_idempotent_witness :
  fix_telegram_formatting (fix_telegram_formatting (render pieces_example))
  = fix_telegram_formatting (render pieces_example).
Proof.
  apply fix_telegram_formatting_idempotent. vm_compute. reflexivity.
Defined.

(* ================================================================== *)
(** * Dispatch of one message *)

Section Dispatch.

Variable w : World.
Variable T : Templates.

Lemma startswith_nonempty s p :
  p <> [] -> startswith s p = true -> str_truthy s = true.
Proof.
  intros Hp H. destruct s; [|reflexivity].
  destruct p; [congruence|discriminate].
Qed.

(** What [process_message] does on a message that has its chat id and its
    sender id, by the trimmed text. *)
Lemma process_message_eq (m : Message) (c f : Z) st :
  msg_chat_id m = Some c -> msg_from_id m = Some f ->
  process_message w T m st
  = let text := strip (get_text m) in
    if negb (str_truthy text) then (Val None, st)
    else if startswith text (lit "/start") then
      (Val (Some start_command_processed),
       snd (send_telegram_message w c (SYSTEM_PROMPTS_welcome T) st))
    else if startswith text (lit "/help") then
      (Val (Some help_command_processed),
       snd (send_telegram_message w c (SYSTEM_PROMPTS_help T) st))
    else (Val (Some text), st).
Proof.
  intros Hc Hf. unfold process_message. rewrite Hc, Hf. cbv zeta.
  unfold bind at 1. unfold attempt. unfold lookup, ret. unfold bind at 1.
  unfold bind at 1.
  destruct (negb (str_truthy (strip (get_text m)))); [reflexivity|].
  destruct (startswith (strip (get_text m)) (lit "/start")).
  { unfold bind at 1.
    destruct (send_telegram_message_never_raises w c (SYSTEM_PROMPTS_welcome T) st)
      as [b [l E]]. rewrite E. reflexivity. }
  destruct (startswith (strip (get_text m)) (lit "/help")); [|reflexivity].
  unfold bind at 1.
  destruct (send_telegram_message_never_raises w c (SYSTEM_PROMPTS_help T) st)
    as [b [l E]]. rewrite E. reflexivity.
Qed.

Lemma run_update_eq (u : Update) (m : Message) (c : Z) st :
  message u = Some m -> msg_chat_id m = Some c ->
  run_update w T u st
  = match process_message w T m st with
    | (Val question, st') =>
        if is_question question then
          match question with
          | Some q => handle_question w T c q st'
          | None => (Val tt, st')
          end
        else (Val tt, st')
    | (Exc e, st') => (Exc e, st')
    end.
Proof.
  intros Hm Hc. unfold run_update. rewrite Hm, Hc. unfold lookup.
  unfold bind at 1. unfold ret at 1. unfold bind at 1.
  destruct (process_message w T m st) as [[q|e] st']; [|reflexivity].
  destruct (is_question q); [|reflexivity]. destruct q; reflexivity.
Qed.

(** X1.  A message whose trimmed text begins with [/start] is answered with the
    welcome text and nothing else: the only calls are the [sendMessage]
    calls that deliver the welcome text to the chat of the message, whatever
    follows the command and whatever the transport answers.  The same holds
    for [/help] and the help text.  No completion is requested. *)
Theorem commands_answered_without_completion (u : Update) (m : Message) (c f : Z) st :
  message u = Some m -> msg_chat_id m = Some c -> msg_from_id m = Some f ->
  let text := strip (get_text m) in
  (startswith text (lit "/start") = true ->
   exists n, 0 < n
     /\ run_update w T u st
        = (Val tt, add_calls st (map (sendMessage c)
                                    (firstn n (deliveries (SYSTEM_PROMPTS_welcome T))))))
  /\ (startswith text (lit "/start") = false ->
      startswith text (lit "/help") = true ->
      exists n, 0 < n
        /\ run_update w T u st
           = (Val tt, add_calls st (map (sendMessage c)
                                       (firstn n (deliveries (SYSTEM_PROMPTS_help T)))))).
Proof.
  intros Hm Hc Hf text. split.
  - intros Hs.
    assert (Ht : str_truthy text = true)
      by (apply (startswith_nonempty text (lit "/start")); [discriminate|exact Hs]).
    rewrite (run_update_eq u m c st Hm Hc), (process_message_eq m c f st Hc Hf).
    cbv zeta. fold text. rewrite Ht, Hs. cbn [negb].
    destruct (send_telegram_message_prefix w c (SYSTEM_PROMPTS_welcome T) st)
      as [b [n [Hn E]]].
    exists n. split; [exact Hn|]. rewrite E. reflexivity.
  - intros Hs Hh.
    assert (Ht : str_truthy text = true)
      by (apply (startswith_nonempty text (lit "/help")); [discriminate|exact Hh]).
    rewrite (run_update_eq u m c st Hm Hc), (process_message_eq m c f st Hc Hf).
    cbv zeta. fold text. rewrite Ht, Hs, Hh. cbn [negb].
    destruct (send_telegram_message_prefix w c (SYSTEM_PROMPTS_help T) st)
      as [b [n [Hn E]]].
    exists n. split; [exact Hn|]. rewrite E. reflexivity.
Qed.

(** X2.  A message with a chat id is passed over in silence, without any call
    and without an exception, when its text is absent, empty or only
    whitespace, and also when it has no sender id (the [KeyError] is caught
    inside [process_message]). *)
Theorem blank_or_anonymous_message_ignored (u : Update) (m : Message) (c : Z) st :
  message u = Some m -> msg_chat_id m = Some c ->
  str_truthy (strip (get_text m)) = false \/ msg_from_id m = None ->
  process_message w T m st = (Val None, st)
  /\ run_update w T u st = (Val tt, st).
Proof.
  intros Hm Hc H.
  assert (Hp : process_message w T m st = (Val None, st)).
  { destruct (msg_from_id m) as [f|] eqn:Hf.
    - destruct H as [H|H]; [|discriminate].
      rewrite (process_message_eq m c f st Hc Hf). cbv zeta. rewrite H. reflexivity.
    - unfold process_message. rewrite Hc, Hf. reflexivity. }
  split; [exact Hp|].
  rewrite (run_update_eq u m c st Hm Hc), Hp. reflexivity.
Qed.

(** X3.  Every other message is a question: when the trimmed text is not empty,
    begins with neither [/start] nor [/help] and is not one of the two
    sentinels, the update is handled by [handle_question] on the chat of the
    message and the trimmed text.  This includes any other text that begins
    with a slash. *)
Theorem other_text_is_a_question (u : Update) (m : Message) (c f : Z) st :
  message u = Some m -> msg_chat_id m = Some c -> msg_from_id m = Some f ->
  let text := strip (get_text m) in
  startswith text (lit "/start") = false ->
  startswith text (lit "/help") = false ->
  is_question (Some text) = true ->
  run_update w T u st = handle_question w T c text st.
Proof.
  intros Hm Hc Hf text Hs Hh Hq.
  assert (Ht : str_truthy text = true).
  { unfold is_question in Hq. apply andb_prop in Hq. apply Hq. }
  rewrite (run_update_eq u m c st Hm Hc), (process_message_eq m c f st Hc Hf).
  cbv zeta. fold text. rewrite Ht, Hs, Hh. cbn [negb]. rewrite Hq. reflexivity.
Qed.

End Dispatch.

Lemma commands_answered_without_completion_witness :
  exists n, 0 < n
    /\ run_update (world_ok []) templates0
         (update_of 5 (text_message 1 (lit " /start now "))) st0
       = (Val tt, add_calls st0 (map (sendMessage 1)
                                   (firstn n (deliveries (lit "welcome"))))).
Proof.
  exact (proj1 (commands_answered_without_completion (world_ok []) templates0
                  (update_of 5 (text_message 1 (lit " /start now ")))
                  (text_message 1 (lit " /start now ")) 1%Z 1%Z st0
                  eq_refl eq_refl eq_refl) eq_refl).
Defined.

Lemma blank_or_anonymous_message_ignored_witness :
  run_update (world_ok []) templates0
    (update_of 5 {| msg_chat_id := Some 1%Z; msg_from_id := None;
                    msg_text := Some (lit "hello") |}) st0
  = (Val tt, st0).
Proof.
  exact (proj2 (blank_or_anonymous_message_ignored (world_ok []) templates0
                  (update_of 5 {| msg_chat_id := Some 1%Z; msg_from_id := None;
                                  msg_text := Some (lit "hello") |})
                  {| msg_chat_id := Some 1%Z; msg_from_id := None;
                     msg_text := Some (lit "hello") |} 1%Z st0
                  eq_refl eq_refl (or_intror eq_refl))).
Defined.

Lemma other_text_is_a_question_witness :
  run_update (world_ok [lit "answer"]) templates0
    (update_of 5 (text_message 1 (lit " /stop "))) st0
  = handle_question (world_ok [lit "answer"]) templates0 1 (lit "/stop") st0.
Proof.
  exact (other_text_is_a_question (world_ok [lit "answer"]) templates0
           (update_of 5 (text_message 1 (lit " /stop ")))
           (text_message 1 (lit " /stop ")) 1%Z 1%Z st0
           eq_refl eq_refl eq_refl eq_refl eq_refl eq_refl).
Defined.

(* ================================================================== *)
(** * The poll and the loop *)

Lemma get_telegram_updates_returns w st :
  exists updates st',
    get_telegram_updates w st = (Val updates, st')
    /\ history st' = history st ++ [getUpdates (update_offset st)].
Proof.
  rewrite get_telegram_updates_eq. cbv zeta.
  destruct (poll_reply w (history st) (update_offset st)) as [|[[[|] result]|]];
    try (eexists; eexists; split; reflexivity).
  destruct result as [|u l]; [eexists; eexists; split; reflexivity|].
  destruct (last_update_id (u :: l)); eexists; eexists; split; reflexivity.
Qed.

(** X4.  The poll never raises and makes exactly one call, [getUpdates] with the
    current cursor.  When the transport raises, the body does not parse, is
    not ok, has an empty result, or the last update of the result has no
    [update_id], the batch is empty and the cursor stays; otherwise the
    batch is the whole result, in its order. *)
Theorem get_telegram_updates_outcome w st :
  exists updates st',
    get_telegram_updates w st = (Val updates, st')
    /\ history st' = history st ++ [getUpdates (update_offset st)]
    /\ (poll_reply w (history st) (update_offset st) = PollConnectionError
        \/ poll_reply w (history st) (update_offset st) = PollResponseOf None
        \/ (exists result,
              poll_reply w (history st) (update_offset st)
              = PollResponseOf (Some (false, result)))
        \/ (exists result,
              poll_reply w (history st) (update_offset st)
              = PollResponseOf (Some (true, result))
              /\ last_update_id result = None) ->
        updates = [] /\ update_offset st' = update_offset st)
    /\ (forall result i,
          poll_reply w (history st) (update_offset st)
          = PollResponseOf (Some (true, result)) ->
          last_update_id result = Some i ->
          updates = result).
Proof.
  rewrite get_telegram_updates_eq. cbv zeta.
  destruct (poll_reply w (history st) (update_offset st)) as [|[[[|] [|u l]]|]] eqn:E.
  all: try solve [eexists; eexists; split; [reflexivity|]; split; [reflexivity|];
                  split; [intros _; split; reflexivity|];
                  intros result i Hr Hl;
                  first [discriminate Hr | injection Hr as <-; discriminate Hl]].
  destruct (last_update_id (u :: l)) as [i|] eqn:Hlast.
  - eexists; eexists; split; [reflexivity|]. split; [reflexivity|]. split.
    + intros [H|[H|[[r H]|[r [H H']]]]]; try discriminate.
      injection H as <-. congruence.
    + intros result j Hr _. injection Hr as <-. reflexivity.
  - eexists; eexists; split; [reflexivity|]. split; [reflexivity|]. split.
    + intros _. split; reflexivity.
    + intros result j Hr Hl. injection Hr as <-. congruence.
Qed.

Lemma get_telegram_updates_outcome_witness :
  exists updates st',
    get_telegram_updates (world_batch batch_ascending) st0 = (Val updates, st')
    /\ updates = batch_ascending.
Proof.
  destruct (get_telegram_updates_outcome (world_batch batch_ascending) st0)
    as [updates [st' [E [_ [_ H]]]]].
  exists updates, st'. split; [exact E|].
  apply (H batch_ascending 7%Z); vm_compute; reflexivity.
Defined.

Section Loop.

Variable w : World.
Variable T : Templates.

Lemma run_once_outcome st :
  exists st' l,
    run_once w T st = (Val tt, st')
    /\ history st' = history st ++ getUpdates (update_offset st) :: l.
Proof.
  destruct (get_telegram_updates_returns w st) as [updates [st1 [E Hh]]].
  unfold run_once, run_body, attempt. unfold bind at 1. unfold bind at 1.
  rewrite E.
  destruct (for_each_only_calls (run_update w T) (run_update_only_calls w T)
              updates st1) as [r [l El]].
  rewrite El. exists (add_calls st1 l), l. split.
  - destruct r; reflexivity.
  - simpl. rewrite Hh, <- app_assoc. reflexivity.
Qed.

(** X5.  The loop does not stop on an exception: every turn returns normally,
    whatever the world answers and whatever the updates are, and begins with
    a poll at the cursor the turn before has left. *)
Theorem run_survives : forall n st,
  exists st' l,
    run w T n st = (Val tt, st')
    /\ history st' = history st ++ l
    /\ (0 < n -> exists l', l = getUpdates (update_offset st) :: l').
Proof.
  induction n as [|n IH]; intros st.
  - exists st, []. split; [reflexivity|]. split; [rewrite app_nil_r; reflexivity|].
    intros H. inversion H.
  - destruct (run_once_outcome st) as [st1 [l1 [E1 H1]]].
    destruct (IH st1) as [st2 [l2 [E2 [H2 _]]]].
    exists st2, (getUpdates (update_offset st) :: l1 ++ l2).
    split; [|split].
    + cbn [run]. unfold bind. rewrite E1. exact E2.
    + rewrite H2, H1, <- app_assoc. reflexivity.
    + intros _. exists (l1 ++ l2). reflexivity.
Qed.

End Loop.

Lemma run_survives_witness :
  exists st' l',
    run (world_batch batch_unordered) templates0 2 st0 = (Val tt, st')
    /\ history st' = history st0 ++ getUpdates 0 :: l'.
Proof.
  destruct (run_survives (world_batch batch_unordered) templates0 2 st0)
    as [st' [l [E [Hh Hl]]]].
  destruct (Hl ltac:(lia)) as [l' ->].
  exists st', l'. split; [exact E|exact Hh].
Defined.

(* ================================================================== *)
(** * More on chunked delivery *)

Lemma send_parts_result w chat_id total : forall parts i st,
  fst (send_parts w chat_id total i parts st)
  = Val (all_accepted w (history st)
           (map (sendMessage chat_id) (payloads_from total i parts))).
Proof.
  induction parts as [|p parts IH]; intros i st; [reflexivity|].
  cbn [send_parts payloads_from map all_accepted]. rewrite guarded_post.
  destruct (accepted w (history st) _); [|reflexivity].
  rewrite IH. reflexivity.
Qed.

(** X6.  The result of a send can be relied on: it is [True] exactly when every
    call that delivers the text is accepted by the transport. *)
Theorem send_telegram_message_result w chat_id text st :
  fst (send_telegram_message w chat_id text st)
  = Val (all_accepted w (history st) (map (sendMessage chat_id) (deliveries text))).
Proof.
  unfold deliveries.
  destruct (Nat.ltb_spec max_message_length (length text)) as [Hlt|Hle].
  - unfold send_telegram_message.
    destruct (Nat.ltb_spec max_message_length (length text)) as [_|Hge]; [|lia].
    apply send_parts_result.
  - rewrite send_short by exact Hle. cbn [fst map all_accepted].
    rewrite andb_true_r. reflexivity.
Qed.

Section SliceLengths.

Variable step : nat.
Hypothesis step_pos : 0 < step.

Lemma ceil_div_index (L k : nat) : k < ceil_div L step -> k * step < L.
Proof.
  unfold ceil_div. intros Hk.
  assert (H : S k * step <= L + step - 1).
  { apply Nat.le_trans with (step * ((L + step - 1) / step)).
    - rewrite (Nat.mul_comm step). apply Nat.mul_le_mono_r. lia.
    - apply Nat.Div0.mul_div_le. }
  simpl in H. lia.
Qed.

(** Every part has between one and [step] characters, and every part but
    the last has exactly [step]. *)
Lemma split_parts_part_length (text : str) (k : nat) :
  k < length (split_parts step text) ->
  1 <= length (nth k (split_parts step text) []) <= step
  /\ (S k < length (split_parts step text) ->
      length (nth k (split_parts step text) []) = step).
Proof.
  rewrite (split_parts_length step_pos text). intros Hk.
  rewrite (@split_parts_nth step step_pos text k Hk).
  unfold slice. rewrite length_firstn, length_skipn.
  pose proof (ceil_div_index (length text) k Hk) as H1.
  split; [lia|].
  intros Hk'. pose proof (ceil_div_index (length text) (S k) Hk') as H2.
  simpl in H2. lia.
Qed.

End SliceLengths.

(** X7.  The parts of a long text have at most [max_message_length] characters
    each, none is empty, and all but the last have exactly
    [max_message_length]; a continuation call, which carries the marker
    before its part, is therefore longer than [max_message_length] whenever
    its part is not the last. *)
Theorem split_parts_lengths (text : str) :
  let parts := split_parts max_message_length text in
  Forall (fun p => 1 <= length p <= max_message_length) parts
  /\ (forall k, S k < length parts ->
        length (nth k parts []) = max_message_length)
  /\ (forall k, 0 < k -> S k < length parts ->
        max_message_length < length (nth k (payloads text) [])).
Proof.
  assert (Hpos : 0 < max_message_length) by (unfold max_message_length; lia).
  intros parts. split; [|split].
  - apply Forall_nth. intros k d Hk.
    rewrite (nth_indep _ d [] Hk).
    apply (split_parts_part_length max_message_length Hpos text k Hk).
  - intros k Hk.
    apply (split_parts_part_length max_message_length Hpos text k);
      [unfold parts in Hk; lia|exact Hk].
  - intros k Hk0 Hk. unfold parts in *. clear parts. unfold payloads.
    rewrite payloads_from_nth by lia. simpl (0 + k).
    destruct (Nat.ltb_spec 0 k) as [_|H]; [|lia].
    rewrite length_app.
    assert (Hk' : k < length (split_parts max_message_length text)) by lia.
    rewrite (proj2 (split_parts_part_length max_message_length Hpos text k Hk') Hk).
    unfold continuation. rewrite length_app. vm_compute (length (lit "(продолжение ")).
    lia.
Qed.

Lemma split_parts_lengths_witness :
  max_message_length < length (nth 1 (payloads longer_text) []).
Proof.
  apply (proj2 (proj2 (split_parts_lengths longer_text)) 1); [lia|].
  apply Nat.ltb_lt. vm_compute. reflexivity.
Defined.

(* ================================================================== *)
(** * The answer to a question *)

Section Answer.

Variable w : World.
Variable T : Templates.
Variable chat_id : Z.

(** X8.  When the typing signal does not raise, the knowledge text is read and
    the completion returns alternatives, the system message is the main
    template filled with the knowledge text, the user message is the question
    as it is, and what is delivered to the chat, after the guarded deletion
    of the thinking message, is the formatted text of the first alternative
    and of no other. *)
Theorem question_answered_with_first_alternative
    question st thinking_message_id st1 t a others :
  post_raises w (history st) (sendChatAction chat_id) = false ->
  show_thinking_animation w chat_id (add_call st (sendChatAction chat_id))
  = (Val thinking_message_id, st1) ->
  pdf_reply w (history st1) = Some t ->
  sdk_reply w (history st1 ++ [get_curriculum_text]) (SYSTEM_PROMPTS_main T t) question
  = Some (a :: others) ->
  let st2 := add_calls st1 [get_curriculum_text;
                            completions_run (SYSTEM_PROMPTS_main T t) question] in
  exists n, 0 < n
    /\ handle_question w T chat_id question st
       = (Val tt,
          add_calls (snd (delete_thinking w chat_id thinking_message_id st2))
            (map (sendMessage chat_id)
               (firstn n (deliveries (fix_telegram_formatting a))))).
Proof.
  intros Htyping Hanim Hpdf Hsdk st2.
  assert (Hresp : get_yandex_response w T question st1
                  = (Val (fix_telegram_formatting a), st2)).
  { rewrite get_yandex_response_eq, Hpdf. cbv zeta. rewrite Hsdk. reflexivity. }
  rewrite (handle_question_eq w T chat_id question st Htyping Hanim Hresp).
  destruct (send_telegram_message_prefix w chat_id (fix_telegram_formatting a)
              (snd (delete_thinking w chat_id thinking_message_id st2)))
    as [b [n [Hn E]]].
  exists n. split; [exact Hn|]. rewrite E. reflexivity.
Qed.

(** X9.  When reading the knowledge text raises, the completion is not called:
    the response is the error text, and it is what the chat receives. *)
Theorem knowledge_failure_gives_error question st1 :
  pdf_reply w (history st1) = None ->
  get_yandex_response w T question st1
  = (Val SYSTEM_PROMPTS_error, add_call st1 get_curriculum_text)
  /\ (forall st thinking_message_id,
        post_raises w (history st) (sendChatAction chat_id) = false ->
        show_thinking_animation w chat_id (add_call st (sendChatAction chat_id))
        = (Val thinking_message_id, st1) ->
        handle_question w T chat_id question st
        = (Val tt,
           add_call (snd (delete_thinking w chat_id thinking_message_id
                            (add_call st1 get_curriculum_text)))
             (sendMessage chat_id SYSTEM_PROMPTS_error))).
Proof.
  intros Hpdf.
  assert (Hresp : get_yandex_response w T question st1
                  = (Val SYSTEM_PROMPTS_error, add_call st1 get_curriculum_text)).
  { rewrite get_yandex_response_eq, Hpdf. reflexivity. }
  split; [exact Hresp|]. intros st thinking_message_id Htyping Hanim.
  rewrite (handle_question_eq w T chat_id question st Htyping Hanim Hresp).
  rewrite send_short; [reflexivity|]. vm_compute. lia.
Qed.

End Answer.

Lemma question_answered_with_first_alternative_witness :
  exists n, 0 < n
    /\ handle_question (world_ok [lit "**a**"; lit "second"]) templates0 5
         (lit "Сколько кредитов?") st0
       = (Val tt,
          add_calls
            (snd (delete_thinking (world_ok [lit "**a**"; lit "second"]) 5 (Some 77%Z)
                    (add_calls
                       (snd (show_thinking_animation
                               (world_ok [lit "**a**"; lit "second"]) 5
                               (add_call st0 (sendChatAction 5))))
                       [get_curriculum_text;
                        completions_run (lit "system: plan") (lit "Сколько кредитов?")])))
            (map (sendMessage 5)
               (firstn n (deliveries (fix_telegram_formatting (lit "**a**")))))).
Proof.
  apply (question_answered_with_first_alternative
           (world_ok [lit "**a**"; lit "second"]) templates0 5
           (lit "Сколько кредитов?") st0 (Some 77%Z)
           (snd (show_thinking_animation (world_ok [lit "**a**"; lit "second"]) 5
                   (add_call st0 (sendChatAction 5))))
           (lit "plan") (lit "**a**") [lit "second"]);
    vm_compute; reflexivity.
Defined.

Lemma knowledge_failure_gives_error_witness :
  get_yandex_response world_pdf_raises templates0 (lit "Сколько кредитов?") st0
  = (Val SYSTEM_PROMPTS_error, add_call st0 get_curriculum_text).
Proof.
  apply (knowledge_failure_gives_error world_pdf_raises templates0 5
           (lit "Сколько кредитов?") st0).
  reflexivity.
Defined.

(* ================================================================== *)
(** * More on the configuration *)

Lemma issues_eq (e : Environment) :
  issues (validate_config e)
  = (if token_rejected e then [lit "Telegram bot token not configured"] else [])
    ++ (if folder_id_rejected e then [lit "YandexGPT folder_id not configured"] else [])
    ++ (if auth_token_rejected e then [lit "YandexGPT auth_token not configured"] else []).
Proof.
  unfold validate_config, token_rejected, folder_id_rejected, auth_token_rejected.
  cbv zeta. cbn [issues].
  destruct (negb (str_truthy (TELEGRAM_CONFIG_token e))
            || str_eqb (TELEGRAM_CONFIG_token e) (lit "YOUR_TELEGRAM_TOKEN"));
  destruct (negb (str_truthy (YANDEX_CONFIG_folder_id e))
            || str_eqb (YANDEX_CONFIG_folder_id e) (lit "YOUR_FOLDER_ID"));
  destruct (negb (str_truthy (YANDEX_CONFIG_auth_token e))
            || str_eqb (YANDEX_CONFIG_auth_token e) (lit "YOUR_AUTH_TOKEN"));
  reflexivity.
Qed.

Lemma valid_eq (e : Environment) :
  valid (validate_config e)
  = negb (token_rejected e || folder_id_rejected e || auth_token_rejected e).
Proof.
  change (valid (validate_config e))
    with (Nat.eqb (length (issues (validate_config e))) 0).
  rewrite issues_eq.
  destruct (token_rejected e), (folder_id_rejected e), (auth_token_rejected e);
    reflexivity.
Qed.

Lemma str_eqb_eq : forall a b, str_eqb a b = true -> a = b.
Proof.
  induction a as [|x a IH]; intros [|y b] H; try discriminate; [reflexivity|].
  simpl in H. apply andb_prop in H. destruct H as [Hx H].
  apply N.eqb_eq in Hx. subst y. f_equal. apply IH. exact H.
Qed.

Lemma accepted_value v placeholder :
  v <> [] -> v <> placeholder -> negb (str_truthy v) || str_eqb v placeholder = false.
Proof.
  intros Hne Hp. destruct v as [|c v]; [congruence|]. cbn [str_truthy negb orb].
  destruct (str_eqb (c :: v) placeholder) eqn:E; [|reflexivity].
  apply str_eqb_eq in E. congruence.
Qed.

(** X10.  When the three variables of the environment are set to values
    that are not empty and are not the placeholders of the validation, the
    secrets module plays no part: the configuration is valid with no issue,
    and the constructor builds the PDF processor and then the SDK with the
    folder id and the auth token of the variables; an exception of either
    constructor leaves [__init__], and otherwise the bot starts with the
    cursor at [0]. *)
Theorem environment_credentials_are_used (k : Collaborators) (e : Environment)
    (t f a : str) :
  env_TELEGRAM_BOT_TOKEN e = Some t ->
  env_YANDEX_FOLDER_ID e = Some f ->
  env_YANDEX_AUTH_TOKEN e = Some a ->
  t <> [] -> f <> [] -> a <> [] ->
  t <> lit "YOUR_TELEGRAM_TOKEN" -> f <> lit "YOUR_FOLDER_ID" ->
  a <> lit "YOUR_AUTH_TOKEN" ->
  validate_config e = {| valid := true; issues := [] |}
  /\ init k e = construct k f a.
Proof.
  intros Ht Hf Ha Ht0 Hf0 Ha0 Ht1 Hf1 Ha1.
  assert (Hv : validate_config e = {| valid := true; issues := [] |}).
  { unfold validate_config, TELEGRAM_CONFIG_token, YANDEX_CONFIG_folder_id,
      YANDEX_CONFIG_auth_token. rewrite Ht, Hf, Ha. cbn [getenv].
    rewrite (accepted_value t _ Ht0 Ht1), (accepted_value f _ Hf0 Hf1),
      (accepted_value a _ Ha0 Ha1). reflexivity. }
  split; [exact Hv|].
  unfold init, construct. rewrite Hv. cbn [valid negb].
  unfold YANDEX_CONFIG_folder_id, YANDEX_CONFIG_auth_token. rewrite Hf, Ha.
  reflexivity.
Qed.

Lemma environment_credentials_are_used_witness :
  validate_config env_variables_set = {| valid := true; issues := [] |}
  /\ init collaborators_ok env_variables_set
     = construct collaborators_ok (lit "folder") (lit "key").
Proof.
  apply (environment_credentials_are_used collaborators_ok env_variables_set
           (lit "123:abc") (lit "folder") (lit "key"));
    try reflexivity; vm_compute; discriminate.
Defined.

(** X11.  A variable of the environment takes precedence over the secrets
    module: when [TELEGRAM_BOT_TOKEN] is set to the empty string the token
    is reported as not configured and the constructor raises, before any
    collaborator is constructed, whatever the secrets module provides. *)
Theorem empty_variable_overrides_secrets (k : Collaborators) (e : Environment) :
  env_TELEGRAM_BOT_TOKEN e = Some [] ->
  In (lit "Telegram bot token not configured") (issues (validate_config e))
  /\ init k e = Exc ValueError.
Proof.
  intros H.
  assert (Hr : token_rejected e = true).
  { unfold token_rejected, TELEGRAM_CONFIG_token. rewrite H. reflexivity. }
  split.
  - rewrite issues_eq, Hr. left. reflexivity.
  - unfold init. cbv zeta. rewrite valid_eq, Hr. reflexivity.
Qed.

Lemma empty_variable_overrides_secrets_witness :
  In (lit "Telegram bot token not configured")
    (issues (validate_config env_empty_variable))
  /\ init collaborators_ok env_empty_variable = Exc ValueError.
Proof.
  apply (empty_variable_overrides_secrets collaborators_ok env_empty_variable).
  reflexivity.
Defined.

(* ================================================================== *)
(** * What the formatter converts *)

Lemma refines_length P : forall s s', refines P s s' -> length s <= length s'.
Proof.
  intros s s' H. induction H as [|c s s' H IH|c t s s' Hc Ht Hn H IH]; simpl.
  - lia.
  - lia.
  - rewrite length_app. destruct t; [congruence|simpl; lia].
Qed.

(** X14.  The formatter never shortens a text: it only puts tags, which are longer,
    in the place of delimiters. *)
Theorem fix_telegram_formatting_never_shortens (text : str) :
  length text <= length (fix_telegram_formatting text).
Proof.
  rewrite fix_telegram_formatting_eq.
  pose proof (refines_length _ _ _ (scan_bold_refines text None)) as H1.
  pose proof (refines_length _ _ _ (scan_italic_refines (scan_bold None text) None)) as H2.
  pose proof (refines_length _ _ _
                (scan_block_refines (scan_italic None (scan_bold None text)) None)) as H3.
  pose proof (refines_length _ _ _
                (scan_code_refines
                   (scan_block None (scan_italic None (scan_bold None text))) None)) as H4.
  lia.
Qed.

(** X13.  When the backticks of the input are paired, none is left in the
    output. *)
Theorem fix_telegram_formatting_no_backtick (text : str) :
  backticks_paired text -> no_backtick (fix_telegram_formatting text) = true.
Proof.
  intros H. rewrite fix_telegram_formatting_eq.
  apply scan_code_single. apply scan_block_paired.
  apply (refines_paired is_star is_star_not_backtick (scan_bold None text));
    [|apply scan_italic_refines].
  apply (refines_paired is_star is_star_not_backtick text);
    [exact H|apply scan_bold_refines].
Qed.

(* ------------------------------------------------------------------ *)
(** ** Pieces that stand apart are converted in place *)

Lemma render_cons p ps : render (p :: ps) = render_piece p ++ render ps.
Proof. reflexivity. Qed.

Lemma plain_no_star s : plain s = true -> no_star s = true.
Proof.
  induction s as [|c s IH]; intros H; [reflexivity|].
  simpl in *. apply andb_prop in H. destruct H as [Hc H].
  unfold plain_char in Hc. apply andb_prop in Hc. destruct Hc as [Hc _].
  unfold is_star. rewrite Hc, IH by exact H. reflexivity.
Qed.

Lemma plain_app a b : plain (a ++ b) = plain a && plain b.
Proof. unfold plain. apply forallb_app. Qed.

Lemma no_star_app a b : no_star (a ++ b) = no_star a && no_star b.
Proof. unfold no_star. apply forallb_app. Qed.

(** The head of what follows an instance of a pattern. *)
Lemma starts_text_head ps :
  recognized ps = true -> starts_text ps = true ->
  render ps = [] \/ exists c r, render ps = c :: r /\ plain_char c = true.
Proof.
  intros Hr Hs. destruct ps as [|p ps]; [left; reflexivity|].
  destruct p as [s|s|s|s|s]; try discriminate. right.
  simpl in Hs. destruct s as [|c s]; [discriminate|].
  simpl in Hr. apply andb_prop in Hr. destruct Hr as [Hp _].
  apply andb_prop in Hp. destruct Hp as [Hc _].
  exists c, (s ++ render ps). split; [reflexivity|exact Hc].
Qed.

Lemma plain_char_not_star c : plain_char c = true -> is_star c = false.
Proof.
  unfold plain_char, is_star. intros H. apply andb_prop in H.
  destruct H as [H _]. destruct (c =? star)%N; [discriminate|reflexivity].
Qed.

Lemma plain_char_not_backtick c : plain_char c = true -> is_backtick c = false.
Proof.
  unfold plain_char, is_backtick. intros H. apply andb_prop in H.
  destruct H as [_ H]. destruct (c =? backtick)%N; [discriminate|reflexivity].
Qed.

(* ---- first pass ---- *)

Lemma match_bold_eq prev s :
  match_bold prev s
  = match strip_prefix [star; star] s with
    | Some r => lazy_until false [star; star] r
    | None => None
    end.
Proof. reflexivity. Qed.

Lemma strip_star2_cons c s :
  strip_prefix [star; star] (c :: s)
  = if (star =? c)%N then strip_prefix [star] s else None.
Proof. reflexivity. Qed.

Lemma strip_star1_cons c s :
  strip_prefix [star] (c :: s) = if (star =? c)%N then Some s else None.
Proof. reflexivity. Qed.

Lemma not_star_eqb c : is_star c = false -> (star =? c)%N = false.
Proof. unfold is_star. rewrite N.eqb_sym. trivial. Qed.

Lemma match_bold_char prev c s : is_star c = false -> match_bold prev (c :: s) = None.
Proof.
  intros Hc. rewrite match_bold_eq, strip_star2_cons, (not_star_eqb c Hc). reflexivity.
Qed.

Lemma scan_bold_skip prev c s :
  match_bold prev (c :: s) = None -> scan_bold prev (c :: s) = c :: scan_bold (Some c) s.
Proof. intros E. unfold scan_bold. apply scan_skip. exact E. Qed.

Lemma scan_bold_no_star : forall g t prev,
  no_star g = true -> scan_bold prev (g ++ t) = g ++ scan_bold (prev_after prev g) t.
Proof.
  induction g as [|c g IH]; intros t prev H; [reflexivity|].
  simpl in H. apply andb_prop in H. destruct H as [Hc H].
  cbn [app prev_after]. rewrite scan_bold_skip.
  - rewrite IH by exact H. reflexivity.
  - apply match_bold_char. destruct (is_star c); [discriminate|reflexivity].
Qed.

Lemma lazy_until_false_cons d c s :
  lazy_until false d (c :: s)
  = match strip_prefix d (c :: s) with
    | Some rest => Some ([], rest)
    | None =>
        if (c =? newline)%N then None
        else match lazy_until false d s with
             | Some (body, rest) => Some (c :: body, rest)
             | None => None
             end
    end.
Proof. reflexivity. Qed.

(** On one line the lazy group ends at the first closing delimiter. *)
Lemma lazy_until_bold_body : forall s r,
  no_star s = true -> no_newline s = true ->
  lazy_until false [star; star] (s ++ star :: star :: r) = Some (s, r).
Proof.
  induction s as [|c s IH]; intros r Hs Hn.
  - apply lazy_until_found. apply (strip_prefix_app [star; star] r).
  - simpl in Hs, Hn. apply andb_prop in Hs. destruct Hs as [Hc Hs].
    apply andb_prop in Hn. destruct Hn as [Hcn Hn].
    cbn [app]. rewrite lazy_until_false_cons, strip_star2_cons.
    rewrite not_star_eqb by (destruct (is_star c); [discriminate|reflexivity]).
    destruct (c =? newline)%N; [discriminate|].
    rewrite IH by assumption. reflexivity.
Qed.

(** Over a line break the lazy group finds no closing delimiter. *)
Lemma lazy_until_bold_newline : forall s t,
  no_star s = true -> no_newline s = false ->
  lazy_until false [star; star] (s ++ t) = None.
Proof.
  induction s as [|c s IH]; intros t Hs Hn; [discriminate|].
  simpl in Hs, Hn. apply andb_prop in Hs. destruct Hs as [Hc Hs].
  cbn [app]. rewrite lazy_until_false_cons, strip_star2_cons.
  rewrite not_star_eqb by (destruct (is_star c); [discriminate|reflexivity]).
  destruct (c =? newline)%N; [reflexivity|].
  simpl in Hn. rewrite IH by assumption. reflexivity.
Qed.

Lemma scan_bold_bold prev s r :
  no_star s = true -> no_newline s = true ->
  scan_bold prev ([star; star] ++ s ++ [star; star] ++ r)
  = lit "<b>" ++ s ++ lit "</b>" ++ scan_bold (Some star) r.
Proof.
  intros Hs Hn. unfold scan_bold.
  apply (scan_match match_bold _ _ star [star; star] [star; star] match_bold_sound
           (two_nonempty star)).
  rewrite match_bold_eq, strip_prefix_app. cbn [app].
  apply lazy_until_bold_body; assumption.
Qed.

Lemma recognized_cons p ps :
  recognized (p :: ps) = true -> piece_ok p = true /\ recognized ps = true.
Proof. intros H. simpl in H. apply andb_prop in H. exact H. Qed.

Lemma separated_cons p ps :
  separated (p :: ps) = true ->
  (is_text p = false -> starts_text ps = true) /\ separated ps = true.
Proof.
  intros H. simpl in H. apply andb_prop in H. destruct H as [H1 H2].
  split; [|exact H2]. intros Hp. rewrite Hp in H1. exact H1.
Qed.

(** A lone asterisk before plain text or the end opens no bold. *)
Lemma match_bold_lone_star prev r :
  r = [] \/ (exists c r', r = c :: r' /\ plain_char c = true) ->
  match_bold prev (star :: r) = None.
Proof.
  intros [->|[c [r' [-> Hc]]]]; rewrite match_bold_eq, strip_star2_cons, N.eqb_refl.
  - reflexivity.
  - rewrite strip_star1_cons, (not_star_eqb c (plain_char_not_star c Hc)). reflexivity.
Qed.

Lemma scan_bold_render : forall ps prev,
  recognized ps = true -> separated ps = true ->
  forallb bold_on_one_line ps = true ->
  scan_bold prev (render ps) = render (map stage_bold ps).
Proof.
  induction ps as [|p ps IH]; intros prev Hr Hsep Hb; [reflexivity|].
  apply recognized_cons in Hr. destruct Hr as [Hp Hr].
  apply separated_cons in Hsep. destruct Hsep as [Hnext Hsep].
  simpl in Hb. apply andb_prop in Hb. destruct Hb as [Hb1 Hb].
  cbn [map]. rewrite !render_cons.
  destruct p as [s|s|s|s|s]; cbn [stage_bold piece_ok] in *.
  - rewrite scan_bold_no_star by (apply plain_no_star; exact Hp).
    rewrite IH by assumption. reflexivity.
  - cbn [render_piece]. rewrite <- !app_assoc. rewrite scan_bold_bold;
      [|apply plain_no_star; exact Hp|exact Hb1].
    rewrite IH by assumption. cbn [converted]. rewrite <- !app_assoc. reflexivity.
  - apply andb_prop in Hp. destruct Hp as [Hp Hne].
    destruct s as [|c s]; [discriminate|].
    pose proof (plain_no_star _ Hp) as Hs.
    simpl in Hp. apply andb_prop in Hp. destruct Hp as [Hc _].
    cbn [render_piece]. rewrite <- !app_assoc. cbn [app].
    rewrite scan_bold_skip
      by (apply match_bold_lone_star; right; exists c, (s ++ star :: render ps);
          split; [reflexivity|exact Hc]).
    change (c :: s ++ star :: render ps) with ((c :: s) ++ star :: render ps).
    rewrite scan_bold_no_star by exact Hs.
    rewrite scan_bold_skip
      by (apply match_bold_lone_star; apply starts_text_head;
          [exact Hr|apply Hnext; reflexivity]).
    rewrite IH by assumption. reflexivity.
  - rewrite scan_bold_no_star
      by (cbn [render_piece]; rewrite !no_star_app, (plain_no_star _ Hp); reflexivity).
    rewrite IH by assumption. reflexivity.
  - apply andb_prop in Hp. destruct Hp as [Hp _].
    rewrite scan_bold_no_star
      by (cbn [render_piece]; rewrite !no_star_app, (plain_no_star _ Hp); reflexivity).
    rewrite IH by assumption. reflexivity.
Qed.

(* ---- second pass ---- *)

Lemma nonempty_until_body s r :
  no_star s = true -> s <> [] ->
  nonempty_until star (s ++ star :: r) = Some (s, r).
Proof.
  intros Hs Hne. unfold nonempty_until.
  change (s ++ star :: r) with (s ++ [star] ++ r).
  rewrite until_char_app by exact Hs. cbn [app].
  rewrite until_char_cons, N.eqb_refl. rewrite app_nil_r.
  destruct s; [congruence|reflexivity].
Qed.

Lemma startswith_head r :
  r = [] \/ (exists c r', r = c :: r' /\ plain_char c = true) ->
  startswith r [star] = false.
Proof.
  intros [->|[c [r' [-> Hc]]]]; [reflexivity|].
  rewrite startswith_star_cons. apply plain_char_not_star. exact Hc.
Qed.

Lemma scan_italic_italic prev s r :
  after_star prev = false -> no_star s = true -> s <> [] ->
  r = [] \/ (exists c r', r = c :: r' /\ plain_char c = true) ->
  scan_italic prev ([star] ++ s ++ [star] ++ r)
  = lit "<i>" ++ s ++ lit "</i>" ++ scan_italic (Some star) r.
Proof.
  intros Hp Hs Hne Hr. apply scan_italic_match. cbn [app].
  rewrite italic_star by exact Hp.
  rewrite nonempty_until_body by assumption.
  rewrite (startswith_head r Hr). reflexivity.
Qed.

Lemma scan_italic_render : forall ps prev,
  recognized ps = true -> separated ps = true ->
  forallb not_bold ps = true ->
  after_star prev = false \/ starts_text ps = true ->
  scan_italic prev (render ps) = render (map stage_italic ps).
Proof.
  induction ps as [|p ps IH]; intros prev Hr Hsep Hb Hready; [reflexivity|].
  apply recognized_cons in Hr. destruct Hr as [Hp Hr].
  apply separated_cons in Hsep. destruct Hsep as [Hnext Hsep].
  simpl in Hb. apply andb_prop in Hb. destruct Hb as [Hb1 Hb].
  cbn [map]. rewrite !render_cons.
  destruct p as [s|s|s|s|s]; cbn [stage_italic piece_ok] in *.
  - rewrite scan_italic_no_star by (apply plain_no_star; exact Hp).
    rewrite IH; try assumption; [reflexivity|].
    cbn [render_piece]. destruct s as [|c s].
    + destruct Hready as [H|H]; [left; exact H|discriminate].
    + left. apply prev_after_no_star; [apply plain_no_star; exact Hp|discriminate].
  - discriminate.
  - apply andb_prop in Hp. destruct Hp as [Hp Hne].
    destruct Hready as [Hprev|H]; [|discriminate].
    cbn [render_piece]. rewrite <- !app_assoc.
    rewrite scan_italic_italic;
      [|exact Hprev|apply plain_no_star; exact Hp
       |destruct s; [discriminate|discriminate]
       |apply starts_text_head; [exact Hr|apply Hnext; reflexivity]].
    rewrite IH; try assumption; [|right; apply Hnext; reflexivity].
    cbn [converted render_piece]. rewrite <- !app_assoc. reflexivity.
  - rewrite scan_italic_no_star
      by (cbn [render_piece]; rewrite !no_star_app, (plain_no_star _ Hp); reflexivity).
    rewrite IH; try assumption; [reflexivity|]. left.
    apply prev_after_no_star;
      [cbn [render_piece]; rewrite !no_star_app, (plain_no_star _ Hp); reflexivity
      |discriminate].
  - apply andb_prop in Hp. destruct Hp as [Hp _].
    rewrite scan_italic_no_star
      by (cbn [render_piece]; rewrite !no_star_app, (plain_no_star _ Hp); reflexivity).
    rewrite IH; try assumption; [reflexivity|]. left.
    apply prev_after_no_star;
      [cbn [render_piece]; rewrite !no_star_app, (plain_no_star _ Hp); reflexivity
      |discriminate].
Qed.

(* ---- third pass ---- *)

Lemma match_block_lone_backtick r :
  r = [] \/ (exists c r', r = c :: r' /\ plain_char c = true) ->
  match_block None (backtick :: r) = None.
Proof.
  intros [->|[c [r' [-> Hc]]]]; [reflexivity|].
  rewrite match_block_eq, strip_bt3_cons, N.eqb_refl, strip_bt2_cons.
  rewrite (not_backtick_eqb c (plain_char_not_backtick c Hc)). reflexivity.
Qed.

Lemma scan_block_render : forall ps,
  recognized ps = true -> separated ps = true ->
  scan_block None (render ps) = render (map stage_block ps).
Proof.
  induction ps as [|p ps IH]; intros Hr Hsep; [reflexivity|].
  apply recognized_cons in Hr. destruct Hr as [Hp Hr].
  apply separated_cons in Hsep. destruct Hsep as [Hnext Hsep].
  cbn [map]. rewrite !render_cons.
  destruct p as [s|s|s|s|s]; cbn [stage_block piece_ok] in *.
  - rewrite scan_block_no_backtick by (apply plain_no_backtick; exact Hp).
    rewrite IH by assumption. reflexivity.
  - rewrite scan_block_no_backtick
      by (cbn [render_piece]; rewrite !no_backtick_app, (plain_no_backtick _ Hp);
          reflexivity).
    rewrite IH by assumption. reflexivity.
  - apply andb_prop in Hp. destruct Hp as [Hp _].
    rewrite scan_block_no_backtick
      by (cbn [render_piece]; rewrite !no_backtick_app, (plain_no_backtick _ Hp);
          reflexivity).
    rewrite IH by assumption. reflexivity.
  - cbn [render_piece]. rewrite <- !app_assoc. fold bt3.
    rewrite scan_block_block by (apply plain_no_backtick; exact Hp).
    rewrite IH by assumption. cbn [converted render_piece].
    rewrite <- !app_assoc. reflexivity.
  - apply andb_prop in Hp. destruct Hp as [Hp Hne].
    destruct s as [|c s]; [discriminate|].
    pose proof (plain_no_backtick _ Hp) as Hs.
    simpl in Hp. apply andb_prop in Hp. destruct Hp as [Hc _].
    cbn [render_piece]. rewrite <- !app_assoc. cbn [app].
    rewrite scan_block_skip
      by (apply match_block_lone_backtick; right;
          exists c, (s ++ backtick :: render ps); split; [reflexivity|exact Hc]).
    change (c :: s ++ backtick :: render ps) with ((c :: s) ++ backtick :: render ps).
    rewrite scan_block_no_backtick by exact Hs.
    rewrite scan_block_skip
      by (apply match_block_lone_backtick; apply starts_text_head;
          [exact Hr|apply Hnext; reflexivity]).
    rewrite IH by assumption. reflexivity.
Qed.

(* ---- fourth pass ---- *)

Lemma scan_code_no_backtick : forall g t prev,
  no_backtick g = true ->
  scan_code prev (g ++ t) = g ++ scan_code (prev_after prev g) t.
Proof.
  induction g as [|c g IH]; intros t prev H; [reflexivity|].
  simpl in H. apply andb_prop in H. destruct H as [Hc H].
  cbn [app prev_after]. rewrite scan_code_char
    by (destruct (is_backtick c); [discriminate|reflexivity]).
  rewrite IH by exact H. reflexivity.
Qed.

Lemma scan_code_render : forall ps prev,
  recognized ps = true -> forallb not_block ps = true ->
  scan_code prev (render ps) = render (map stage_code ps).
Proof.
  induction ps as [|p ps IH]; intros prev Hr Hb; [reflexivity|].
  apply recognized_cons in Hr. destruct Hr as [Hp Hr].
  simpl in Hb. apply andb_prop in Hb. destruct Hb as [Hb1 Hb].
  cbn [map]. rewrite !render_cons.
  destruct p as [s|s|s|s|s]; cbn [stage_code piece_ok] in *.
  - rewrite scan_code_no_backtick by (apply plain_no_backtick; exact Hp).
    rewrite IH by assumption. reflexivity.
  - rewrite scan_code_no_backtick
      by (cbn [render_piece]; rewrite !no_backtick_app, (plain_no_backtick _ Hp);
          reflexivity).
    rewrite IH by assumption. reflexivity.
  - apply andb_prop in Hp. destruct Hp as [Hp _].
    rewrite scan_code_no_backtick
      by (cbn [render_piece]; rewrite !no_backtick_app, (plain_no_backtick _ Hp);
          reflexivity).
    rewrite IH by assumption. reflexivity.
  - discriminate.
  - apply andb_prop in Hp. destruct Hp as [Hp Hne].
    cbn [render_piece]. rewrite <- !app_assoc.
    rewrite scan_code_code;
      [|destruct s; [discriminate|discriminate]|apply plain_no_backtick; exact Hp].
    rewrite IH by assumption. cbn [converted render_piece].
    rewrite <- !app_assoc. reflexivity.
Qed.

(* ---- the stages keep the shape of the input ---- *)

Lemma tags_plain s a b :
  plain a = true -> plain b = true -> plain s = true -> plain (a ++ s ++ b) = true.
Proof. intros Ha Hb Hs. rewrite !plain_app, Ha, Hb, Hs. reflexivity. Qed.

Lemma stage_bold_ok p : piece_ok p = true -> piece_ok (stage_bold p) = true.
Proof.
  destruct p as [s|s|s|s|s]; cbn [stage_bold piece_ok converted]; trivial.
  intros H. apply tags_plain; [vm_compute; reflexivity|vm_compute; reflexivity|exact H].
Qed.

Lemma stage_italic_ok p : piece_ok p = true -> piece_ok (stage_italic p) = true.
Proof.
  destruct p as [s|s|s|s|s]; cbn [stage_italic piece_ok converted]; trivial.
  intros H. apply andb_prop in H. destruct H as [H _].
  apply tags_plain; [vm_compute; reflexivity|vm_compute; reflexivity|exact H].
Qed.

Lemma stage_block_ok p : piece_ok p = true -> piece_ok (stage_block p) = true.
Proof.
  destruct p as [s|s|s|s|s]; cbn [stage_block piece_ok converted]; trivial.
  intros H. apply tags_plain; [vm_compute; reflexivity|vm_compute; reflexivity|exact H].
Qed.

Lemma recognized_map (f : Piece -> Piece) :
  (forall p, piece_ok p = true -> piece_ok (f p) = true) ->
  forall ps, recognized ps = true -> recognized (map f ps) = true.
Proof.
  intros Hf. induction ps as [|p ps IH]; intros H; [reflexivity|].
  apply recognized_cons in H. destruct H as [Hp H].
  simpl. rewrite (Hf p Hp). apply IH. exact H.
Qed.

(** A stage turns a piece into a text only if that text is not empty. *)
Definition keeps_shape (f : Piece -> Piece) : Prop :=
  forall p, (is_text (f p) = true -> is_text p = true \/ exists s, f p = Text s /\ s <> [])
            /\ (is_text p = true -> f p = p).

Lemma starts_text_map (f : Piece -> Piece) ps :
  keeps_shape f -> starts_text ps = true -> starts_text (map f ps) = true.
Proof.
  intros Hf H. destruct ps as [|p ps]; [reflexivity|].
  destruct p as [s|s|s|s|s]; try discriminate.
  cbn [map]. destruct (Hf (Text s)) as [_ E]. rewrite E by reflexivity. exact H.
Qed.

Lemma separated_map (f : Piece -> Piece) :
  keeps_shape f -> (forall p, is_text p = true -> is_text (f p) = true) ->
  forall ps, separated ps = true -> separated (map f ps) = true.
Proof.
  intros Hf Ht. induction ps as [|p ps IH]; intros H; [reflexivity|].
  simpl in H. apply andb_prop in H. destruct H as [H1 H2].
  cbn [map separated]. rewrite (IH H2), andb_true_r.
  apply orb_prop in H1. destruct H1 as [H1|H1].
  - rewrite (Ht p H1). reflexivity.
  - rewrite (starts_text_map f ps Hf H1). apply orb_true_r.
Qed.

Lemma stage_bold_shape : keeps_shape stage_bold.
Proof.
  intros p. split.
  - destruct p as [s|s|s|s|s]; cbn; intros H; try discriminate; [left; reflexivity|].
    right. eexists. split; [reflexivity|]. discriminate.
  - destruct p; try discriminate. reflexivity.
Qed.

Lemma stage_italic_shape : keeps_shape stage_italic.
Proof.
  intros p. split.
  - destruct p as [s|s|s|s|s]; cbn; intros H; try discriminate; [left; reflexivity|].
    right. eexists. split; [reflexivity|]. discriminate.
  - destruct p; try discriminate. reflexivity.
Qed.

Lemma stage_text (f : Piece -> Piece) :
  keeps_shape f -> forall p, is_text p = true -> is_text (f p) = true.
Proof. intros Hf p H. destruct (Hf p) as [_ E]. rewrite E by exact H. exact H. Qed.

Lemma forallb_map_stage (P : Piece -> bool) (f : Piece -> Piece) :
  (forall p, P (f p) = true) -> forall ps, forallb P (map f ps) = true.
Proof.
  intros H. induction ps as [|p ps IH]; [reflexivity|].
  simpl. rewrite H, IH. reflexivity.
Qed.

Lemma stages_converted p :
  render_piece (stage_code (stage_block (stage_italic (stage_bold p)))) = converted p.
Proof. destruct p; reflexivity. Qed.

Lemma render_stages : forall ps,
  render (map stage_code (map stage_block (map stage_italic (map stage_bold ps))))
  = concat (map converted ps).
Proof.
  induction ps as [|p ps IH]; [reflexivity|].
  cbn [map]. rewrite render_cons, IH, stages_converted. reflexivity.
Qed.

(** X12.  An input made of the four patterns and plain text, in which every
    instance of a pattern is followed by non-empty plain text or by the end
    and the bold texts are on one line, is converted piece by piece: each
    instance becomes its tag around the same text and the plain text stays. *)
Theorem fix_telegram_formatting_converts (ps : list Piece) :
  recognized ps = true -> separated ps = true ->
  forallb bold_on_one_line ps = true ->
  fix_telegram_formatting (render ps) = concat (map converted ps).
Proof.
  intros Hr Hsep Hb. rewrite fix_telegram_formatting_eq.
  rewrite scan_bold_render by assumption.
  pose proof (recognized_map stage_bold stage_bold_ok ps Hr) as Hr1.
  pose proof (separated_map stage_bold stage_bold_shape
                (stage_text stage_bold stage_bold_shape) ps Hsep) as Hs1.
  rewrite scan_italic_render;
    [|exact Hr1|exact Hs1
     |apply forallb_map_stage; intros p; destruct p; reflexivity
     |left; reflexivity].
  pose proof (recognized_map stage_italic stage_italic_ok _ Hr1) as Hr2.
  pose proof (separated_map stage_italic stage_italic_shape
                (stage_text stage_italic stage_italic_shape) _ Hs1) as Hs2.
  rewrite scan_block_render by assumption.
  pose proof (recognized_map stage_block stage_block_ok _ Hr2) as Hr3.
  rewrite scan_code_render;
    [|exact Hr3|apply forallb_map_stage; intros p; destruct p; reflexivity].
  apply render_stages.
Qed.

Lemma fix_telegram_formatting_converts_witness :
  fix_telegram_formatting (render pieces_apart) = concat (map converted pieces_apart).
Proof.
  apply (fix_telegram_formatting_converts pieces_apart);
    vm_compute; reflexivity.
Defined.

(* ------------------------------------------------------------------ *)
(** ** Bold over a line break *)

Lemma no_match_bold_app : forall t s prev,
  no_star t = true ->
  no_match match_bold (prev_after prev t) s ->
  no_match match_bold prev (t ++ s).
Proof.
  induction t as [|c t IH]; intros s prev H Hs; [exact Hs|].
  simpl in H. apply andb_prop in H. destruct H as [Hc H].
  cbn [app no_match]. split.
  - apply match_bold_char. destruct (is_star c); [discriminate|reflexivity].
  - apply IH; assumption.
Qed.

Lemma no_match_block_no_backtick : forall z prev,
  no_backtick z = true -> no_match match_block prev z.
Proof.
  induction z as [|c z IH]; intros prev H; [exact I|].
  simpl in H. apply andb_prop in H. destruct H as [Hc H].
  cbn [no_match]. split; [|apply IH; exact H].
  unfold match_block. rewrite strip_bt3_cons.
  rewrite not_backtick_eqb by (destruct (is_backtick c); [discriminate|reflexivity]).
  reflexivity.
Qed.

Lemma stars_no_backtick s :
  plain s = true -> no_backtick ([star; star] ++ s ++ [star; star]) = true.
Proof.
  intros H. rewrite !no_backtick_app, (plain_no_backtick _ H). reflexivity.
Qed.

Lemma no_match_cons (m : matcher) prev c s :
  m prev (c :: s) = None -> no_match m (Some c) s -> no_match m prev (c :: s).
Proof. intros H1 H2. split; assumption. Qed.

(** X15.  Double asterisks around plain text that holds a line break are no
    instance of any pattern: the text is returned as it is. *)
Theorem bold_over_line_break_unchanged (s : str) :
  plain s = true -> no_newline s = false ->
  fix_telegram_formatting ([star; star] ++ s ++ [star; star])
  = [star; star] ++ s ++ [star; star].
Proof.
  intros Hp Hn. pose proof (plain_no_star _ Hp) as Hs.
  pose proof (stars_no_backtick s Hp) as Hb.
  destruct s as [|c s]; [discriminate|].
  assert (Hc : is_star c = false).
  { simpl in Hs. apply andb_prop in Hs. destruct Hs as [Hc _].
    destruct (is_star c); [discriminate|reflexivity]. }
  rewrite fix_telegram_formatting_eq.
  assert (H1 : scan_bold None ([star; star] ++ (c :: s) ++ [star; star])
               = [star; star] ++ (c :: s) ++ [star; star]).
  { unfold scan_bold. apply scan_fixed.
    apply no_match_cons; [|apply no_match_cons].
    - rewrite match_bold_eq.
      change (strip_prefix [star; star] (star :: [star] ++ (c :: s) ++ [star; star]))
        with (Some ((c :: s) ++ [star; star])).
      apply (lazy_until_bold_newline (c :: s) [star; star] Hs Hn).
    - rewrite match_bold_eq, strip_star2_cons, N.eqb_refl.
      cbn [app]. rewrite strip_star1_cons.
      rewrite (not_star_eqb c Hc). reflexivity.
    - apply no_match_bold_app; [exact Hs|].
      apply no_match_cons; [reflexivity|].
      apply no_match_cons; [reflexivity|exact I]. }
  rewrite H1.
  assert (H2 : scan_italic None ([star; star] ++ (c :: s) ++ [star; star])
               = [star; star] ++ (c :: s) ++ [star; star]).
  { unfold scan_italic. apply scan_fixed.
    apply no_match_cons; [|apply no_match_cons].
    - rewrite italic_star by reflexivity. reflexivity.
    - apply italic_after_star. reflexivity.
    - apply no_match_italic_app; [exact Hs|].
      apply no_match_cons; [|apply no_match_cons; [|exact I]].
      + rewrite italic_star
          by (apply prev_after_no_star; [exact Hs|discriminate]).
        reflexivity.
      + apply italic_after_star. reflexivity. }
  rewrite H2.
  assert (H3 : scan_block None ([star; star] ++ (c :: s) ++ [star; star])
               = [star; star] ++ (c :: s) ++ [star; star]).
  { unfold scan_block. apply scan_fixed. apply no_match_block_no_backtick. exact Hb. }
  rewrite H3.
  unfold scan_code. apply scan_fixed. apply no_backtick_no_match. exact Hb.
Qed.

Lemma bold_over_line_break_unchanged_witness :
  fix_telegram_formatting ([star; star] ++ bold_over_lines ++ [star; star])
  = [star; star] ++ bold_over_lines ++ [star; star].
Proof.
  apply (bold_over_line_break_unchanged bold_over_lines); vm_compute; reflexivity.
Defined.

Lemma fix_telegram_formatting_no_backtick_witness :
  no_backtick (fix_telegram_formatting (render pieces_example)) = true.
Proof.
  apply (fix_telegram_formatting_no_backtick (render pieces_example)).
  apply recognized_paired. vm_compute. reflexivity.
Defined.

(* ================================================================== *)
(** * site_parser.py: cleaning of HTML *)

Section Consuming.

Variable m : matcher.
Variables opening closing : str.
Variable last : char.
Hypothesis m_consumes :
  forall prev s g rest, m prev s = Some (g, rest) -> length rest < length s.

Lemma consuming_fuel : forall fuel1 fuel2 s prev,
  length s <= fuel1 -> length s <= fuel2 ->
  re_sub_from m opening closing last fuel1 prev s
  = re_sub_from m opening closing last fuel2 prev s.
Proof.
  induction fuel1 as [|fuel1 IH]; intros fuel2 s prev H1 H2.
  - destruct s; [|simpl in H1; lia]. destruct fuel2; reflexivity.
  - destruct fuel2 as [|fuel2].
    + destruct s; [reflexivity|simpl in H2; lia].
    + simpl. destruct s as [|c s]; [reflexivity|].
      destruct (m prev (c :: s)) as [[g rest]|] eqn:E.
      * apply m_consumes in E. simpl in *.
        rewrite (IH fuel2) by lia. reflexivity.
      * simpl in *. rewrite (IH fuel2) by lia. reflexivity.
Qed.

Lemma consuming_match prev s g rest :
  m prev s = Some (g, rest) ->
  scan m opening closing last prev s
  = opening ++ g ++ closing ++ scan m opening closing last (Some last) rest.
Proof.
  intros E. unfold scan. destruct s as [|c s].
  - apply m_consumes in E. simpl in E. lia.
  - simpl. rewrite E. pose proof (m_consumes _ _ _ _ E) as Hlen. simpl in Hlen.
    rewrite (consuming_fuel (length s) (length rest)) by lia. reflexivity.
Qed.

Lemma consuming_ind (Q : option char -> str -> Prop) :
  (forall prev, Q prev []) ->
  (forall prev s g rest,
     m prev s = Some (g, rest) -> Q (Some last) rest -> Q prev s) ->
  (forall prev c s, m prev (c :: s) = None -> Q (Some c) s -> Q prev (c :: s)) ->
  forall s prev, Q prev s.
Proof.
  intros Hnil Hmatch Hskip s.
  induction s as [s IH] using (induction_ltof1 _ (@length char)).
  intros prev. destruct s as [|c s]; [apply Hnil|].
  destruct (m prev (c :: s)) as [[g rest]|] eqn:E.
  - apply (Hmatch _ _ _ _ E). apply IH. unfold ltof.
    apply (m_consumes _ _ _ _ E).
  - apply Hskip; [exact E|]. apply IH. unfold ltof. simpl. lia.
Qed.

End Consuming.

Lemma lstrip_length : forall s, length (lstrip s) <= length s.
Proof.
  induction s as [|c s IH]; [reflexivity|].
  simpl. destruct (isspace c); simpl; lia.
Qed.

Lemma br_open_eq : lit "<br" = [langle; 98%N; 114%N].
Proof. vm_compute. reflexivity. Qed.

Lemma match_br_consumes prev s g rest :
  match_br prev s = Some (g, rest) -> length rest < length s.
Proof.
  unfold match_br. destruct (strip_prefix (lit "<br") s) as [r|] eqn:E; [|discriminate].
  apply strip_prefix_sound in E. subst s. rewrite length_app.
  pose proof (lstrip_length r) as Hl.
  destruct (lstrip r) as [|c r'] eqn:El; [discriminate|].
  simpl in Hl.
  destruct (c =? slash)%N.
  - destruct r' as [|c' rest']; [discriminate|].
    destruct (c' =? rangle)%N; [|discriminate].
    intros H. injection H as _ <-. simpl in *. lia.
  - destruct (c =? rangle)%N; [|discriminate].
    intros H. injection H as _ <-. simpl in *. lia.
Qed.

Lemma match_tag_consumes prev s g rest :
  match_tag prev s = Some (g, rest) -> length rest < length s.
Proof.
  unfold match_tag. destruct s as [|c r]; [discriminate|].
  destruct (c =? langle)%N; [|discriminate].
  destruct (lazy_until false [rangle] r) as [[b z]|] eqn:E; [|discriminate].
  apply lazy_until_sound in E. subst r.
  intros H. injection H as _ <-. simpl. rewrite length_app. simpl. lia.
Qed.

Lemma match_tag_none prev c s :
  match_tag prev (c :: s) = None <-> (c =? langle)%N = false \/ closes s = false.
Proof.
  unfold match_tag, closes. destruct (c =? langle)%N.
  - destruct (lazy_until false [rangle] s) as [[b z]|]; split; intros H;
      try discriminate; try reflexivity.
    + destruct H; discriminate.
    + right. reflexivity.
  - split; intros H; [left|]; reflexivity.
Qed.

Lemma closes_cons c s :
  closes (c :: s)
  = if (c =? rangle)%N then true else if (c =? newline)%N then false else closes s.
Proof.
  unfold closes. cbn [lazy_until strip_prefix]. rewrite N.eqb_sym.
  destruct (c =? rangle)%N; [reflexivity|].
  cbn [negb andb]. destruct (c =? newline)%N; [reflexivity|].
  destruct (lazy_until false [rangle] s) as [[b z]|]; reflexivity.
Qed.

Lemma scan_tag_match prev s g rest :
  match_tag prev s = Some (g, rest) -> scan_tag prev s = scan_tag (Some rangle) rest.
Proof.
  intros E. unfold scan_tag.
  rewrite (consuming_match match_tag [] [] rangle match_tag_consumes _ _ _ _ E).
  unfold match_tag in E. destruct s as [|c r]; [discriminate|].
  destruct (c =? langle)%N; [|discriminate].
  destruct (lazy_until false [rangle] r) as [[b z]|]; [|discriminate].
  injection E as <- _. reflexivity.
Qed.

Lemma scan_tag_skip prev c s :
  match_tag prev (c :: s) = None -> scan_tag prev (c :: s) = c :: scan_tag (Some c) s.
Proof. intros E. unfold scan_tag. apply scan_skip. exact E. Qed.

(** When the output of the second pass reaches a [>] before a newline, so
    does its input. *)
Lemma closes_scan_tag : forall s prev,
  closes (scan_tag prev s) = true -> closes s = true.
Proof.
  apply (consuming_ind match_tag rangle match_tag_consumes
           (fun prev s => closes (scan_tag prev s) = true -> closes s = true)).
  - intros prev H. exact H.
  - intros prev s g rest E _ _. unfold match_tag in E.
    destruct s as [|c r]; [discriminate|].
    destruct (N.eqb_spec c langle) as [->|]; [|discriminate].
    rewrite closes_cons. change (langle =? rangle)%N with false.
    change (langle =? newline)%N with false. cbv iota.
    unfold closes. destruct (lazy_until false [rangle] r); [reflexivity|discriminate].
  - intros prev c s E IH. rewrite scan_tag_skip by exact E.
    rewrite !closes_cons. destruct (c =? rangle)%N; [trivial|].
    destruct (c =? newline)%N; [trivial|]. exact IH.
Qed.

(** The second pass leaves no tag. *)
Lemma scan_tag_no_match : forall s prev prev',
  no_match match_tag prev' (scan_tag prev s).
Proof.
  intros s prev. revert s prev.
  apply (consuming_ind match_tag rangle match_tag_consumes
           (fun prev s => forall prev', no_match match_tag prev' (scan_tag prev s))).
  - intros prev prev'. exact I.
  - intros prev s g rest E IH prev'. rewrite (scan_tag_match _ _ _ _ E). apply IH.
  - intros prev c s E IH prev'. rewrite scan_tag_skip by exact E.
    split; [|apply IH].
    apply match_tag_none. apply match_tag_none in E. destruct E as [E|E]; [left; exact E|].
    right. destruct (closes (scan_tag (Some c) s)) eqn:Ec; [|reflexivity].
    apply closes_scan_tag in Ec. congruence.
Qed.

Lemma lstrip_suffix : forall s, exists p, s = p ++ lstrip s.
Proof.
  induction s as [|c s [p IH]]; [exists []; reflexivity|].
  simpl. destruct (isspace c).
  - exists (c :: p). simpl. rewrite <- IH. reflexivity.
  - exists []. reflexivity.
Qed.

Lemma strip_infix s : exists p q, s = p ++ strip s ++ q.
Proof.
  unfold strip, rstrip. destruct (lstrip_suffix s) as [p Hp].
  destruct (lstrip_suffix (rev (lstrip s))) as [q Hq].
  exists p, (rev q). rewrite <- rev_app_distr, <- Hq, rev_involutive. exact Hp.
Qed.

Lemma no_match_tag_prev : forall s prev prev',
  no_match match_tag prev s -> no_match match_tag prev' s.
Proof. intros s prev prev' H. destruct s; [exact I|exact H]. Qed.

Lemma no_match_tag_suffix : forall p s prev,
  no_match match_tag prev (p ++ s) -> no_match match_tag None s.
Proof.
  induction p as [|c p IH]; intros s prev H.
  - apply (no_match_tag_prev _ prev). exact H.
  - destruct H as [_ H]. apply (IH _ _ H).
Qed.

Lemma closes_run : forall g z,
  no_newline g = true -> closes (g ++ rangle :: z) = true.
Proof.
  induction g as [|c g IH]; intros z H.
  - cbn [app]. rewrite closes_cons, N.eqb_refl. reflexivity.
  - simpl in H. apply andb_prop in H. destruct H as [Hc H].
    cbn [app]. rewrite closes_cons. destruct (c =? rangle)%N; [reflexivity|].
    destruct (c =? newline)%N; [discriminate|]. apply IH. exact H.
Qed.

(** X16.  No tag is left in the result: whenever a [<] is followed by a [>] in
    it, there is a line break between the two. *)
Theorem clean_html_tags_leaves_no_tag (text : option str) (a g b : str) :
  clean_html_tags text = a ++ [langle] ++ g ++ [rangle] ++ b ->
  no_newline g = false.
Proof.
  intros H. destruct text as [t|]; [|destruct a; discriminate].
  unfold clean_html_tags in H.
  destruct (negb (str_truthy t)); [destruct a; discriminate|].
  destruct (strip_infix (sub_tag (sub_br t))) as [p [q Hpq]].
  pose proof (scan_tag_no_match (sub_br t) None None) as Hn.
  change (scan_tag None (sub_br t)) with (sub_tag (sub_br t)) in Hn.
  assert (Hout : sub_tag (sub_br t) = (p ++ a) ++ langle :: (g ++ rangle :: (b ++ q))).
  { rewrite Hpq, H, <- !app_assoc. reflexivity. }
  rewrite Hout in Hn. apply no_match_tag_suffix in Hn. destruct Hn as [Hn _].
  apply match_tag_none in Hn. destruct Hn as [Hn|Hn]; [discriminate|].
  destruct (no_newline g) eqn:Eg; [|reflexivity].
  rewrite closes_run in Hn by exact Eg. discriminate.
Qed.

(* ---- texts without tags ---- *)

Lemma match_br_char prev c s : (c =? langle)%N = false -> match_br prev (c :: s) = None.
Proof.
  intros H. unfold match_br. rewrite br_open_eq. cbn [strip_prefix].
  rewrite N.eqb_sym, H. reflexivity.
Qed.

Lemma match_tag_char prev c s : (c =? langle)%N = false -> match_tag prev (c :: s) = None.
Proof. intros H. unfold match_tag. rewrite H. reflexivity. Qed.

Lemma scan_br_skip prev c s :
  match_br prev (c :: s) = None -> scan_br prev (c :: s) = c :: scan_br (Some c) s.
Proof. intros E. unfold scan_br. apply scan_skip. exact E. Qed.

Lemma scan_br_no_langle : forall g t prev,
  no_langle g = true -> scan_br prev (g ++ t) = g ++ scan_br (prev_after prev g) t.
Proof.
  induction g as [|c g IH]; intros t prev H; [reflexivity|].
  simpl in H. apply andb_prop in H. destruct H as [Hc H].
  cbn [app prev_after]. rewrite scan_br_skip
    by (apply match_br_char; destruct (c =? langle)%N; [discriminate|reflexivity]).
  rewrite IH by exact H. reflexivity.
Qed.

Lemma scan_tag_no_langle : forall g t prev,
  no_langle g = true -> scan_tag prev (g ++ t) = g ++ scan_tag (prev_after prev g) t.
Proof.
  induction g as [|c g IH]; intros t prev H; [reflexivity|].
  simpl in H. apply andb_prop in H. destruct H as [Hc H].
  cbn [app prev_after]. rewrite scan_tag_skip
    by (apply match_tag_char; destruct (c =? langle)%N; [discriminate|reflexivity]).
  rewrite IH by exact H. reflexivity.
Qed.

Lemma scan_br_plain g prev : no_langle g = true -> scan_br prev g = g.
Proof.
  intros H. rewrite <- (app_nil_r g) at 1. rewrite scan_br_no_langle by exact H.
  rewrite app_nil_r at 1. destruct g; reflexivity.
Qed.

Lemma scan_tag_plain g prev : no_langle g = true -> scan_tag prev g = g.
Proof.
  intros H. rewrite <- (app_nil_r g) at 1. rewrite scan_tag_no_langle by exact H.
  rewrite app_nil_r at 1. destruct g; reflexivity.
Qed.

Lemma clean_html_tags_eq t :
  clean_html_tags (Some t) = strip (scan_tag None (scan_br None t)).
Proof.
  unfold clean_html_tags. destruct t; reflexivity.
Qed.

(** X17.  A text without [<] is only stripped. *)
Theorem clean_html_tags_plain (t : str) :
  no_langle t = true -> clean_html_tags (Some t) = strip t.
Proof.
  intros H. rewrite clean_html_tags_eq.
  rewrite scan_br_plain by exact H. rewrite scan_tag_plain by exact H. reflexivity.
Qed.

Lemma no_langle_app a b : no_langle (a ++ b) = no_langle a && no_langle b.
Proof. unfold no_langle. apply forallb_app. Qed.

Lemma lstrip_spaces : forall ws z,
  forallb isspace ws = true -> lstrip (ws ++ z) = lstrip z.
Proof.
  induction ws as [|c ws IH]; intros z H; [reflexivity|].
  simpl in H. apply andb_prop in H. destruct H as [Hc H].
  cbn [app lstrip]. rewrite Hc. apply IH. exact H.
Qed.

Lemma match_br_br prev ws sl b :
  forallb isspace ws = true -> sl = [] \/ sl = [slash] ->
  match_br prev (lit "<br" ++ ws ++ sl ++ [rangle] ++ b) = Some ([], b).
Proof.
  intros Hws Hsl. unfold match_br. rewrite strip_prefix_app.
  rewrite lstrip_spaces by exact Hws.
  destruct Hsl as [->| ->]; reflexivity.
Qed.

(** X18.  A line break tag, with or without whitespace and a slash, between
    texts without [<] becomes a newline. *)
Theorem clean_html_tags_br (a ws sl b : str) :
  no_langle a = true -> no_langle b = true ->
  forallb isspace ws = true -> sl = [] \/ sl = [slash] ->
  clean_html_tags (Some (a ++ lit "<br" ++ ws ++ sl ++ [rangle] ++ b))
  = strip (a ++ [newline] ++ b).
Proof.
  intros Ha Hb Hws Hsl. rewrite clean_html_tags_eq.
  rewrite scan_br_no_langle by exact Ha.
  unfold scan_br at 1.
  rewrite (consuming_match match_br [newline] [] rangle match_br_consumes _ _ _ _
             (match_br_br _ ws sl b Hws Hsl)).
  fold scan_br. rewrite (scan_br_plain b _ Hb).
  cbn [app]. rewrite scan_tag_plain; [reflexivity|].
  rewrite no_langle_app, Ha. cbn [no_langle forallb]. exact Hb.
Qed.

Lemma lazy_until_tag_body : forall g z,
  no_newline g = true -> forallb (fun c => negb (c =? rangle)%N) g = true ->
  lazy_until false [rangle] (g ++ rangle :: z) = Some (g, z).
Proof.
  induction g as [|c g IH]; intros z Hn Hr.
  - cbn [app]. apply lazy_until_found. apply (strip_prefix_app [rangle] z).
  - simpl in Hn, Hr. apply andb_prop in Hn. destruct Hn as [Hcn Hn].
    apply andb_prop in Hr. destruct Hr as [Hcr Hr].
    cbn [app lazy_until strip_prefix]. rewrite N.eqb_sym.
    destruct (c =? rangle)%N; [discriminate|].
    cbn [negb andb]. destruct (c =? newline)%N; [discriminate|].
    rewrite IH by assumption. reflexivity.
Qed.

Lemma match_br_other prev g z :
  startswith (g ++ [rangle]) (lit "br") = false ->
  match_br prev (langle :: g ++ rangle :: z) = None.
Proof.
  intros H. unfold match_br. rewrite br_open_eq.
  cbn [strip_prefix]. rewrite N.eqb_refl.
  unfold startswith in H. change (lit "br") with [98%N; 114%N] in H.
  destruct g as [|c1 g]; cbn [app strip_prefix] in *.
  - reflexivity.
  - destruct (98 =? c1)%N; [|reflexivity].
    destruct g as [|c2 g]; cbn [app strip_prefix] in *; [reflexivity|].
    destruct (114 =? c2)%N; [discriminate|reflexivity].
Qed.

(** X19.  A tag on one line that is no line break, between texts without [<],
    is removed. *)
Theorem clean_html_tags_removes_tag (a g b : str) :
  no_langle a = true -> no_langle b = true -> no_langle g = true ->
  no_newline g = true -> forallb (fun c => negb (c =? rangle)%N) g = true ->
  startswith (g ++ [rangle]) (lit "br") = false ->
  clean_html_tags (Some (a ++ [langle] ++ g ++ [rangle] ++ b)) = strip (a ++ b).
Proof.
  intros Ha Hb Hg Hn Hr Hbr. rewrite clean_html_tags_eq.
  rewrite scan_br_no_langle by exact Ha. cbn [app].
  rewrite scan_br_skip by (apply match_br_other; exact Hbr).
  change (g ++ rangle :: b) with (g ++ [rangle] ++ b).
  rewrite app_assoc. rewrite scan_br_plain
    by (rewrite !no_langle_app, Hg, Hb; reflexivity).
  rewrite <- app_assoc. cbn [app].
  change (a ++ langle :: g ++ rangle :: b) with (a ++ langle :: (g ++ rangle :: b)).
  rewrite scan_tag_no_langle by exact Ha.
  assert (E : match_tag (prev_after None a) (langle :: g ++ rangle :: b) = Some ([], b)).
  { unfold match_tag. rewrite N.eqb_refl.
    rewrite lazy_until_tag_body by assumption. reflexivity. }
  rewrite (scan_tag_match _ _ _ _ E). rewrite scan_tag_plain by exact Hb. reflexivity.
Qed.

Lemma clean_html_tags_leaves_no_tag_witness :
  no_newline (lit "b
c") = false.
Proof.
  apply (clean_html_tags_leaves_no_tag (Some bracket_over_lines) (lit "a") _ (lit "d")).
  vm_compute. reflexivity.
Defined.

Lemma clean_html_tags_plain_witness :
  clean_html_tags (Some (lit "  2 года  ")) = strip (lit "  2 года  ").
Proof. apply (clean_html_tags_plain (lit "  2 года  ")). vm_compute. reflexivity. Defined.

Lemma clean_html_tags_br_witness :
  clean_html_tags (Some (lit "a" ++ lit "<br" ++ lit " " ++ [slash] ++ [rangle] ++ lit "b"))
  = strip (lit "a" ++ [newline] ++ lit "b").
Proof.
  apply (clean_html_tags_br (lit "a") (lit " ") [slash] (lit "b"));
    [vm_compute; reflexivity|vm_compute; reflexivity|vm_compute; reflexivity
    |right; reflexivity].
Defined.

Lemma clean_html_tags_removes_tag_witness :
  clean_html_tags (Some (lit "a" ++ [langle] ++ lit "p class=x" ++ [rangle] ++ lit "b"))
  = strip (lit "a" ++ lit "b").
Proof.
  apply (clean_html_tags_removes_tag (lit "a") (lit "p class=x") (lit "b"));
    vm_compute; reflexivity.
Defined.

(* ================================================================== *)
(** * site_parser.py: the program id of an address *)

Lemma split_nonempty d : forall s, split d s <> [].
Proof.
  induction s as [|c s IH]; simpl; [discriminate|].
  destruct (c =? d)%N; [discriminate|].
  destruct (split d s); discriminate.
Qed.

Lemma join_cons d x y l : join d (x :: y :: l) = x ++ d :: join d (y :: l).
Proof. reflexivity. Qed.

Lemma split_cons d c s :
  split d (c :: s)
  = if (c =? d)%N then [] :: split d s
    else match split d s with
         | part :: parts => (c :: part) :: parts
         | [] => [[c]]
         end.
Proof. reflexivity. Qed.

(** Joining the parts of a split gives the text back. *)
Lemma join_split d : forall s, join d (split d s) = s.
Proof.
  induction s as [|c s IH]; [reflexivity|].
  rewrite split_cons. pose proof (split_nonempty d s) as Hne.
  destruct (split d s) as [|part parts]; [congruence|].
  destruct (N.eqb_spec c d) as [->|Hc].
  - rewrite join_cons, IH. reflexivity.
  - destruct parts as [|part' parts].
    + simpl in *. rewrite IH. reflexivity.
    + rewrite join_cons in *. rewrite <- IH. reflexivity.
Qed.

Lemma split_parts_free d : forall s,
  Forall (fun part => forallb (fun c => negb (c =? d)%N) part = true) (split d s).
Proof.
  induction s as [|c s IH]; [repeat constructor|].
  simpl. destruct (c =? d)%N eqn:E.
  - constructor; [reflexivity|exact IH].
  - destruct (split d s) as [|part parts]; [repeat constructor; simpl; rewrite E; reflexivity|].
    inversion IH as [|? ? H1 H2]; subst. constructor; [|exact H2].
    simpl. rewrite E, H1. reflexivity.
Qed.

Lemma last_item_some : forall l, l <> [] -> exists x, last_item l = Some x /\ In x l.
Proof.
  induction l as [|y l IH]; intros H; [congruence|].
  destruct l as [|z l].
  - exists y. split; [reflexivity|left; reflexivity].
  - destruct IH as [x [Hx Hin]]; [discriminate|].
    exists x. split; [exact Hx|right; exact Hin].
Qed.

Lemma join_last d : forall l x,
  last_item l = Some x -> join d l = x \/ exists a, join d l = a ++ d :: x.
Proof.
  induction l as [|y l IH]; intros x H; [discriminate|].
  destruct l as [|z l].
  - injection H as <-. left. reflexivity.
  - right. change (last_item (y :: z :: l)) with (last_item (z :: l)) in H.
    change (join d (y :: z :: l)) with (y ++ d :: join d (z :: l)).
    destruct (IH x H) as [E|[a E]]; rewrite E.
    + exists y. reflexivity.
    + exists (y ++ d :: a). rewrite <- app_assoc. reflexivity.
Qed.

Lemma lstrip_char_all d : forall s,
  forallb (fun c => (c =? d)%N) s = true -> lstrip_char d s = [].
Proof.
  induction s as [|c s IH]; intros H; [reflexivity|].
  simpl in *. apply andb_prop in H. destruct H as [Hc H].
  rewrite Hc. apply IH. exact H.
Qed.

Section ProgramId.

Variable urlparse_path : str -> option str.

(** Both branches return the last part of the path. *)
Lemma extract_program_id_eq url path :
  urlparse_path url = Some path ->
  last_item (split slash (strip_char slash path))
  = Some (extract_program_id_from_url urlparse_path url).
Proof.
  intros H. unfold extract_program_id_from_url. rewrite H. cbv zeta.
  pose proof (split_nonempty slash (strip_char slash path)) as Hne.
  destruct (last_item_some _ Hne) as [x [Hx _]]. rewrite Hx.
  destruct (split slash (strip_char slash path)) as [|part parts]; [congruence|].
  destruct ((3 <=? length (part :: parts))
            && str_eqb (nth 0 (part :: parts) []) (lit "program")); reflexivity.
Qed.

(** X20.  The program id is what follows the last slash of the path stripped of
    slashes, or that whole path when it has no slash; the id holds no
    slash.  The test on the first part, ["program"], changes nothing. *)
Theorem extract_program_id_is_last_segment (url path : str) :
  urlparse_path url = Some path ->
  no_slash (extract_program_id_from_url urlparse_path url) = true /\
  (strip_char slash path = extract_program_id_from_url urlparse_path url \/
   exists a,
     strip_char slash path
     = a ++ slash :: extract_program_id_from_url urlparse_path url).
Proof.
  intros H. pose proof (extract_program_id_eq url path H) as E.
  split.
  - pose proof (split_parts_free slash (strip_char slash path)) as Hf.
    rewrite Forall_forall in Hf. apply Hf.
    destruct (last_item_some _ (split_nonempty slash (strip_char slash path)))
      as [x [Hx Hin]].
    rewrite Hx in E. injection E as <-. exact Hin.
  - destruct (join_last slash _ _ E) as [E1|[a E1]]; rewrite join_split in E1;
      [left|right; exists a]; exact E1.
Qed.

(** X21.  When the path is empty or made of slashes the id is the empty text,
    not ['unknown'], and the output file is [itmo_program_data_.json]. *)
Theorem extract_program_id_of_empty_path (url path : str) :
  urlparse_path url = Some path ->
  forallb (fun c => (c =? slash)%N) path = true ->
  extract_program_id_from_url urlparse_path url = [] /\
  output_filename urlparse_path url = lit "itmo_program_data_.json".
Proof.
  intros H Hs.
  assert (E : extract_program_id_from_url urlparse_path url = []).
  { pose proof (extract_program_id_eq url path H) as E.
    unfold strip_char in E. rewrite (lstrip_char_all slash path Hs) in E.
    simpl in E. injection E as <-. reflexivity. }
  split; [exact E|]. unfold output_filename. rewrite E. vm_compute. reflexivity.
Qed.

End ProgramId.

Lemma extract_program_id_is_last_segment_witness :
  no_slash (extract_program_id_from_url urlparse_example program_url) = true /\
  (strip_char slash (lit "/program/master/ai_product")
   = extract_program_id_from_url urlparse_example program_url \/
   exists a,
     strip_char slash (lit "/program/master/ai_product")
     = a ++ slash :: extract_program_id_from_url urlparse_example program_url).
Proof.
  apply (extract_program_id_is_last_segment urlparse_example program_url
           (lit "/program/master/ai_product")).
  vm_compute. reflexivity.
Defined.

Lemma extract_program_id_of_empty_path_witness :
  extract_program_id_from_url urlparse_example (lit "https://abit.itmo.ru/") = [] /\
  output_filename urlparse_example (lit "https://abit.itmo.ru/")
  = lit "itmo_program_data_.json".
Proof.
  apply (extract_program_id_of_empty_path urlparse_example (lit "https://abit.itmo.ru/")
           (lit "/")); vm_compute; reflexivity.
Defined.
